(** * gemini-simplemem: the LLM client's resilience and extraction core

    A shallow embedding of [src/utils/llm_client.py] (class [LLMClient]):
    the retry loop of [chat_completion], the stream aggregator
    [_handle_streaming_response], the extraction chain [extract_json], the
    cleaner [_clean_json_string] and the scanner [_extract_balanced_json].

    Conventions of the embedding.
    - A Python [str] is a list of characters, the type [str].  The character type is
      [ascii], read as the code points 0..255; the whitespace class and the
      case mapping below are Python's, restricted to that range.  In that
      range [str.lower] maps one character to one character; statements
      that go through [text.lower()] are about such texts.
    - [json.loads] belongs to Python's standard library, not to the
      repository: the client is a Section over an arbitrary parser
      [json_loads : str -> option V], where [None] stands for
      [json.JSONDecodeError].  Every call of the parser is recorded, with the
      place in [extract_json] that made it, so that statements can speak
      about which strategies ran.  A parser that raises other exceptions
      as well ([ValueError] on an integer of more than 4300 digits,
      [RecursionError]) is [json_loads : str -> parsed V E], and
      [extract_json_raising] is the chain over it.
    - [litellm.completion] is the backend: a Section variable giving the
      outcome of the n-th call.  [time.sleep] is recorded as an event.
    - Console output ([print]) is not part of the model.

    The embedding client of [src/utils/embedding.py] (class
    [EmbeddingModel]) follows in the module [Embed], over the backend
    [litellm.embedding]. *)

From Stdlib Require Import List Ascii String ZArith Lia Bool Arith.
From Stdlib Require Import Sorted Permutation.
Import ListNotations.

Set Implicit Arguments.

(** ** Python strings *)

Module PyStr.

Definition str : Type := list ascii.

(** A literal of the source. *)
Definition py (s : string) : str := list_ascii_of_string s.

Definition backslash : ascii := "\"%char.
Definition quote : ascii := "034"%char.
Definition newline : ascii := "010"%char.

(** A literal that holds double quotes, written with ['] in their place. *)
Definition pyq (s : string) : str :=
  map (fun c => if Ascii.eqb c "'"%char then quote else c) (py s).

Definition code (c : ascii) : N := N_of_ascii c.

(** [str.isspace] on one character, which is also the class [\s] of [re] on
    [str] patterns: TAB..CR, FS..US, SPACE, NEL and NBSP below 256. *)
Definition isspace (c : ascii) : bool :=
  let n := code c in
  ((9 <=? n) && (n <=? 13) || (28 <=? n) && (n <=? 32)
   || (n =? 133) || (n =? 160))%N.

(** [str.lower] on one character: A..Z and the Latin-1 capitals
    U+00C0..U+00DE (without the multiplication sign U+00D7) move by 32. *)
Definition lower_char (c : ascii) : ascii :=
  let n := code c in
  if ((65 <=? n) && (n <=? 90)
      || (192 <=? n) && (n <=? 222) && negb (n =? 215))%N
  then ascii_of_N (n + 32) else c.

Definition lower (s : str) : str := map lower_char s.

Fixpoint lstrip (s : str) : str :=
  match s with
  | [] => []
  | c :: r => if isspace c then lstrip r else s
  end.

Fixpoint rstrip (s : str) : str :=
  match s with
  | [] => []
  | c :: r =>
      match rstrip r with
      | [] => if isspace c then [] else [c]
      | r' => c :: r'
      end
  end.

(** [s.strip()] *)
Definition strip (s : str) : str := rstrip (lstrip s).

(** [s.startswith(p)] *)
Fixpoint startswith (p s : str) : bool :=
  match p, s with
  | [], _ => true
  | _ :: _, [] => false
  | a :: p', b :: s' => Ascii.eqb a b && startswith p' s'
  end.

(** The search of [s.find(sub, start)], counted from the position [i] at which
    [s] begins. *)
Fixpoint find_at (sub : str) (i : nat) (s : str) : option nat :=
  if startswith sub s then Some i
  else match s with
       | [] => None
       | _ :: r => find_at sub (S i) r
       end.

(** [s.find(sub, start)] for [0 <= start]; [None] is Python's [-1]. *)
Definition find (sub : str) (start : nat) (s : str) : option nat :=
  if List.length s <? start then None else find_at sub start (skipn start s).

(** [sub in s] *)
Definition contains (sub s : str) : bool :=
  match find sub 0 s with Some _ => true | None => false end.

(** [s[a:b]] for [0 <= a] and [0 <= b] *)
Definition slice (s : str) (a b : nat) : str := firstn (b - a) (skipn a s).

(** [s[a:]] *)
Definition slice_from (s : str) (a : nat) : str := skipn a s.

End PyStr.
Import PyStr.

(** ** The three substitutions of the cleaner

    [re.sub] replaces the leftmost non-overlapping matches, scanning from left
    to right.  Each pattern of [_clean_json_string] is written out as the
    function it denotes. *)

Module Re.

Definition is_closer (c : ascii) : bool :=
  (Ascii.eqb c "}" || Ascii.eqb c "]")%char.

(** Does [\s*[}\]]] match at the head of [s]?  The closers are not in [\s],
    so the greedy [\s*] never has to give a character back. *)
Fixpoint ws_closer_ahead (s : str) : bool :=
  match s with
  | [] => false
  | c :: r => if isspace c then ws_closer_ahead r else is_closer c
  end.

(** [re.sub(r',(\s*[}\]])', r'\1', s)]: a comma followed by optional white
    space and a closer is dropped, the group is kept.  The kept group holds no
    comma, so no match can start inside it and the scan may go on right after
    the comma. *)
Fixpoint sub_trailing_comma (s : str) : str :=
  match s with
  | [] => []
  | c :: r =>
      if (Ascii.eqb c ",")%char && ws_closer_ahead r
      then sub_trailing_comma r
      else c :: sub_trailing_comma r
  end.

(** [re.sub(r'//.*?$', '', s, flags=re.MULTILINE)]: [.] does not match a
    newline and [$] holds before a newline and at the end of the text, so the
    lazy match runs from [//] to the end of its line.  [in_comment] says that
    the scan is inside such a match. *)
Fixpoint line_comments (in_comment : bool) (s : str) : str :=
  match s with
  | [] => []
  | c :: r =>
      if in_comment then
        if Ascii.eqb c newline then c :: line_comments false r
        else line_comments true r
      else
        match r with
        | d :: r' =>
            if (Ascii.eqb c "/" && Ascii.eqb d "/")%char
            then line_comments true r'
            else c :: line_comments false r
        | [] => [c]
        end
  end.

Definition sub_line_comments (s : str) : str := line_comments false s.

(** Is there a [*/] in [s]? *)
Fixpoint has_block_end (s : str) : bool :=
  match s with
  | c :: (d :: _) as r =>
      (Ascii.eqb c "*" && Ascii.eqb d "/")%char || has_block_end r
  | _ => false
  end.

(** [re.sub(r'/\*.*?\*/', '', s, flags=re.DOTALL)]: a match starts at a [/*]
    that has a [*/] after it and, being lazy, ends with the first one.  A
    [/*] that is never closed matches nothing and stays. *)
Fixpoint block_comments (in_comment : bool) (s : str) : str :=
  match s with
  | [] => []
  | c :: r =>
      match r with
      | d :: r' =>
          if in_comment then
            if (Ascii.eqb c "*" && Ascii.eqb d "/")%char
            then block_comments false r'
            else block_comments true r
          else
            if (Ascii.eqb c "/" && Ascii.eqb d "*")%char && has_block_end r'
            then block_comments true r'
            else c :: block_comments false r
      | [] => if in_comment then [] else [c]
      end
  end.

Definition sub_block_comments (s : str) : str := block_comments false s.

End Re.

(** ** A reference JSON reader

    [json.loads] is a parameter of the client below.  To run the client on
    concrete texts, this module gives one parser to put in its place: the
    JSON grammar with integer numbers and the two-character escapes.  Numbers
    with a fraction or an exponent, [\u] escapes and the constants [NaN] and
    [Infinity] are outside this fragment and are rejected. *)

Module Json.

#[warnings="-register-all"]
Inductive value : Type :=
| JNull
| JBool (b : bool)
| JInt (z : Z)
| JStr (s : str)
| JArr (items : list value)
| JObj (members : list (str * value)).

Definition is_json_ws (c : ascii) : bool :=
  (Ascii.eqb c " " || Ascii.eqb c "009" || Ascii.eqb c "010"
   || Ascii.eqb c "013")%char.

Fixpoint skip_ws (s : str) : str :=
  match s with
  | c :: r => if is_json_ws c then skip_ws r else s
  | [] => []
  end.

Definition digit (c : ascii) : option Z :=
  let n := code c in
  if ((48 <=? n) && (n <=? 57))%N then Some (Z.of_N n - 48)%Z else None.

Fixpoint digits (acc : Z) (s : str) : Z * str :=
  match s with
  | c :: r =>
      match digit c with
      | Some d => digits (10 * acc + d)%Z r
      | None => (acc, s)
      end
  | [] => (acc, [])
  end.

(** [0], or a non-zero digit followed by digits. *)
Definition natural (s : str) : option (Z * str) :=
  match s with
  | c :: r =>
      match digit c with
      | Some 0%Z => Some (0%Z, r)
      | Some d => Some (digits d r)
      | None => None
      end
  | [] => None
  end.

Definition integer (s : str) : option (Z * str) :=
  match s with
  | c :: r =>
      if (Ascii.eqb c "-")%char
      then match natural r with
           | Some (n, r') => Some ((- n)%Z, r')
           | None => None
           end
      else natural s
  | [] => None
  end.

Definition unescape (c : ascii) : option ascii :=
  (if Ascii.eqb c quote then Some quote
   else if Ascii.eqb c "\" then Some "\"
   else if Ascii.eqb c "/" then Some "/"
   else if Ascii.eqb c "b" then Some "008"
   else if Ascii.eqb c "f" then Some "012"
   else if Ascii.eqb c "n" then Some "010"
   else if Ascii.eqb c "r" then Some "013"
   else if Ascii.eqb c "t" then Some "009"
   else None)%char.

(** The characters of a string after its opening quote, up to the closing
    one; control characters are not allowed inside. *)
Fixpoint string_body (acc : str) (s : str) : option (str * str) :=
  match s with
  | [] => None
  | c :: r =>
      if Ascii.eqb c quote then Some (rev acc, r)
      else if (Ascii.eqb c "\")%char then
        match r with
        | e :: r' =>
            match unescape e with
            | Some x => string_body (x :: acc) r'
            | None => None
            end
        | [] => None
        end
      else if (code c <? 32)%N then None
      else string_body (c :: acc) r
  end.

Fixpoint parse_value (fuel : nat) (s : str) {struct fuel}
  : option (value * str) :=
  match fuel with
  | O => None
  | S n =>
      match skip_ws s with
      | [] => None
      | c :: r =>
          if (Ascii.eqb c "{")%char then
            match skip_ws r with
            | d :: r' =>
                if (Ascii.eqb d "}")%char then Some (JObj [], r')
                else parse_members n [] r
            | [] => None
            end
          else if (Ascii.eqb c "[")%char then
            match skip_ws r with
            | d :: r' =>
                if (Ascii.eqb d "]")%char then Some (JArr [], r')
                else parse_items n [] r
            | [] => None
            end
          else if Ascii.eqb c quote then
            match string_body [] r with
            | Some (str, r') => Some (JStr str, r')
            | None => None
            end
          else if startswith (py "null") (c :: r)
          then Some (JNull, skipn 4 (c :: r))
          else if startswith (py "true") (c :: r)
          then Some (JBool true, skipn 4 (c :: r))
          else if startswith (py "false") (c :: r)
          then Some (JBool false, skipn 5 (c :: r))
          else match integer (c :: r) with
               | Some (z, r') => Some (JInt z, r')
               | None => None
               end
      end
  end
with parse_items (fuel : nat) (acc : list value) (s : str) {struct fuel}
  : option (value * str) :=
  match fuel with
  | O => None
  | S n =>
      match parse_value n s with
      | Some (v, r) =>
          match skip_ws r with
          | c :: r' =>
              if (Ascii.eqb c ",")%char then parse_items n (v :: acc) r'
              else if (Ascii.eqb c "]")%char
                   then Some (JArr (rev (v :: acc)), r')
                   else None
          | [] => None
          end
      | None => None
      end
  end
with parse_members (fuel : nat) (acc : list (str * value)) (s : str)
  {struct fuel} : option (value * str) :=
  match fuel with
  | O => None
  | S n =>
      match skip_ws s with
      | q :: r =>
          if Ascii.eqb q quote then
            match string_body [] r with
            | Some (key, r1) =>
                match skip_ws r1 with
                | c :: r2 =>
                    if (Ascii.eqb c ":")%char then
                      match parse_value n r2 with
                      | Some (v, r3) =>
                          match skip_ws r3 with
                          | e :: r4 =>
                              if (Ascii.eqb e ",")%char
                              then parse_members n ((key, v) :: acc) r4
                              else if (Ascii.eqb e "}")%char
                                   then Some (JObj (rev ((key, v) :: acc)), r4)
                                   else None
                          | [] => None
                          end
                      | None => None
                      end
                    else None
                | [] => None
                end
            | None => None
            end
          else None
      | [] => None
      end
  end.

(** One value, white space around it, and nothing else.  Of two nested
    calls one follows a consumed character, which is why the fuel is twice
    the length of the text. *)
Definition loads (s : str) : option value :=
  match parse_value (2 * List.length s + 2) s with
  | Some (v, r) => match skip_ws r with [] => Some v | _ :: _ => None end
  | None => None
  end.

Definition is_null (v : value) : bool :=
  match v with JNull => true | _ => false end.

End Json.

(** ** Outcomes, exceptions and recorded calls *)

(** The exceptions that occur.  [BackendException] stands for whatever
    [Exception] the backend library raises. *)
Inductive exn : Type :=
| ValueError (msg : str)
| TypeError (msg : str)
| IndexError (msg : str)
| BackendException (cause : str).

(** A Python call either returns or raises. *)
Inductive outcome (A : Type) : Type :=
| Returned (v : A)
| Raised (e : exn).
Arguments Returned {A} v.
Arguments Raised {A} e.

(** The places of [extract_json] that call [json.loads], in the order of the
    source: the direct parse, the two fenced-block strategies, the balanced
    scan and the last resort. *)
Inductive strategy : Type :=
| Direct
| LabeledFence
| GenericFence
| BalancedScan
| BestEffortSuffix.

(** One call [json.loads(arg)]. *)
Inductive parse_call : Type :=
| Loads (site : strategy) (arg : str).

(** A computation that records the parser calls it makes. *)
Definition Logged (A : Type) : Type := (A * list parse_call)%type.

Definition ret {A} (a : A) : Logged A := (a, []).

Definition bind {A B} (m : Logged A) (k : A -> Logged B) : Logged B :=
  let (a, l1) := m in
  let (b, l2) := k a in
  (b, l1 ++ l2).

Declare Scope logged_scope.
Delimit Scope logged_scope with logged.
Notation "x <- m ;; k" := (bind m (fun x => k))
  (at level 61, m at next level, right associativity) : logged_scope.
Open Scope logged_scope.

Definition result {A} (m : Logged A) : A := fst m.
Definition calls {A} (m : Logged A) : list parse_call := snd m.

(** The strategy that made the last recorded call: for a run that returned
    a value, the strategy that produced it. *)
Definition produced_by {A} (m : Logged A) : option strategy :=
  match rev (calls m) with
  | Loads site _ :: _ => Some site
  | [] => None
  end.

(** ** The cleaner and the scanner state of the specification *)

(** [LLMClient._clean_json_string] *)
Definition _clean_json_string (json_str : str) : str :=
  let json_str := Re.sub_trailing_comma json_str in
  let json_str := Re.sub_line_comments json_str in
  let json_str := Re.sub_block_comments json_str in
  strip json_str.

(** The closing character that [_extract_balanced_json] pairs with
    [start_char]. *)
Definition end_char_of (start_char : ascii) : ascii :=
  if (Ascii.eqb start_char "{")%char then "}"%char else "]"%char.

(** The loop [for i in range(start_idx, len(text))] of
    [_extract_balanced_json], over the characters [rest] from position [i]
    on.  The loop is left in two ways only: at the closing character that
    brings [depth] to 0, where the source parses [text[start_idx:i+1]] and
    returns or breaks ([at_close i]), and at the end of the text
    ([at_end]). *)
Fixpoint scan_loop {R : Type} (start_char end_char : ascii)
  (at_close : nat -> R) (at_end : R)
  (depth : Z) (in_string escape_next : bool) (i : nat) (rest : str) : R :=
  match rest with
  | [] => at_end
  | char :: rest' =>
      let continue := scan_loop start_char end_char at_close at_end in
      if escape_next then continue depth in_string false (S i) rest'
      else if Ascii.eqb char backslash
      then continue depth in_string true (S i) rest'
      else if Ascii.eqb char quote
      then continue depth (negb in_string) false (S i) rest'
      else if in_string then continue depth in_string false (S i) rest'
      else if Ascii.eqb char start_char
      then continue (depth + 1)%Z in_string false (S i) rest'
      else if Ascii.eqb char end_char
      then let depth := (depth - 1)%Z in
           if (depth =? 0)%Z then at_close i
           else continue depth in_string false (S i) rest'
      else continue depth in_string false (S i) rest'
  end.

(** The region [text[start_idx:i+1]] that [_extract_balanced_json] hands to
    the parser, if the loop gets to one. *)
Definition balanced_region (text : str) (start_char : ascii) : option str :=
  match find [start_char] 0 text with
  | None => None
  | Some start_idx =>
      scan_loop start_char (end_char_of start_char)
        (fun i => Some (slice text start_idx (i + 1))) None
        0%Z false false start_idx (skipn start_idx text)
  end.

(** The scanner as the specification words it (4.4): the state, and what one
    character does to it. *)
Module ScanSpec.

Record ScanState : Type := mkScanState {
  depth : Z;
  in_string : bool;
  escaped : bool
}.

Definition initial : ScanState := mkScanState 0 false false.

(** An escaped character is inert and uses the escape up; a backslash
    escapes the next character; a quote toggles the in-string flag; opening
    and closing characters move the depth outside strings only. *)
Definition step (opening closing : ascii) (st : ScanState) (c : ascii)
  : ScanState :=
  if escaped st then mkScanState (depth st) (in_string st) false
  else if Ascii.eqb c backslash then mkScanState (depth st) (in_string st) true
  else if Ascii.eqb c quote
  then mkScanState (depth st) (negb (in_string st)) false
  else if in_string st then st
  else if Ascii.eqb c opening
  then mkScanState (depth st + 1) (in_string st) false
  else if Ascii.eqb c closing
  then mkScanState (depth st - 1) (in_string st) false
  else st.

(** Does [c] bring the depth to zero? *)
Definition closes (opening closing : ascii) (st : ScanState) (c : ascii)
  : bool :=
  negb (escaped st) && negb (Ascii.eqb c backslash)
  && negb (Ascii.eqb c quote) && negb (in_string st)
  && negb (Ascii.eqb c opening) && Ascii.eqb c closing
  && (depth st - 1 =? 0)%Z.

(** The state after the characters of [s], from [st]. *)
Definition run (opening closing : ascii) (st : ScanState) (s : str)
  : ScanState :=
  fold_left (step opening closing) s st.

(** The opening characters, each with the closing character that matches
    it: object-style, then array-style. *)
Definition brackets : list (ascii * ascii) :=
  [ ("{"%char, "}"%char); ("["%char, "]"%char) ].

(** The depth after [s], scanning from the initial state. *)
Definition depth_after (opening closing : ascii) (s : str) : Z :=
  depth (run opening closing initial s).

End ScanSpec.

(** ** The extraction chain *)

Definition common_prefixes : list str :=
  [ py "Here's the JSON:";
    py "Here is the JSON:";
    py "The JSON is:";
    py "JSON:";
    py "Result:";
    py "Output:";
    py "Answer:" ].

(** One round of the loop over [common_prefixes]. *)
Definition strip_prefix (text prefix : str) : str :=
  if startswith (lower prefix) (lower text)
  then strip (slice_from text (List.length prefix))
  else text.

(** The text that the strategies of [extract_json] work on: stripped, then
    passed through the loop over [common_prefixes]. *)
Definition normalized (text : str) : str :=
  fold_left strip_prefix common_prefixes (strip text).

Definition empty_response : exn :=
  ValueError (py "Empty response received").

Definition failure_header : str :=
  py "Failed to extract valid JSON from response. First 300 chars: ".

Definition extraction_failed (text : str) : exn :=
  ValueError (failure_header ++ slice text 0 300 ++ py "...").

Section Extraction.

(** The parsed values, [json.loads] on them ([None]: [JSONDecodeError]), and
    the test [v is None]. *)
Variable V : Type.
Variable json_loads : str -> option V.
Variable is_None : V -> bool.

(** [try: return json.loads(s) / except json.JSONDecodeError] *)
Definition loads (site : strategy) (s : str) : Logged (option V) :=
  (json_loads s, [Loads site s]).

(** [LLMClient._extract_balanced_json]; the result [None] is Python's
    [None] of the two [return None]. *)
Definition _extract_balanced_json (text : str) (start_char : ascii)
  : Logged (option V) :=
  let end_char := end_char_of start_char in
  match find [start_char] 0 text with
  | None => ret None
  | Some start_idx =>
      scan_loop start_char end_char
        (fun i =>
           let json_str := slice text start_idx (i + 1) in
           r <- loads BalancedScan json_str ;;
           match r with
           | Some v => ret (Some v)
           | None =>
               let cleaned := _clean_json_string json_str in
               (* the source parses [json_str] here, not [cleaned] *)
               r' <- loads BalancedScan json_str ;;
               match r' with
               | Some v => ret (Some v)
               | None => ret None
               end
           end)
        (ret None)
        0%Z false false start_idx (skipn start_idx text)
  end.

(** What [_extract_balanced_json] does with the region it found (lines
    227-235): the two calls of the parser are on the same, uncleaned,
    string. *)
Definition parse_region (json_str : str) : Logged (option V) :=
  r <- loads BalancedScan json_str ;;
  match r with
  | Some v => ret (Some v)
  | None =>
      r' <- loads BalancedScan json_str ;;
      match r' with
      | Some v => ret (Some v)
      | None => ret None
      end
  end.

(** The sequence shared by the two fenced-block strategies: parse, and on
    failure clean and parse again. *)
Definition parse_then_clean (site : strategy) (json_str : str)
  : Logged (option V) :=
  r <- loads site json_str ;;
  match r with
  | Some v => ret (Some v)
  | None =>
      let json_str := _clean_json_string json_str in
      loads site json_str
  end.

Definition fence : str := py "```".

(** Lines 125-141: the block opened by a fence labelled [json]. *)
Definition labeled_fence (text : str) : Logged (option V) :=
  if contains (py "```json") (lower text) then
    let start_marker := py "```json" in
    match find start_marker 0 (lower text) with
    | Some start_idx =>
        let start := start_idx + List.length start_marker in
        match find fence start text with
        | Some end_ =>
            parse_then_clean LabeledFence (strip (slice text start end_))
        | None => ret None
        end
    | None => ret None
    end
  else ret None.

(** Lines 143-159: any fenced block, past a label line shorter than 20. *)
Definition generic_fence (text : str) : Logged (option V) :=
  if contains fence text then
    match find fence 0 text with
    | Some idx =>
        let start := idx + 3 in
        let start :=
          match find [newline] start text with
          | Some newline => if newline - start <? 20 then newline + 1 else start
          | None => start
          end in
        match find fence start text with
        | Some end_ =>
            parse_then_clean GenericFence (strip (slice text start end_))
        | None => ret None
        end
    | None => ret None
    end
  else ret None.

(** [for start_char in ['{', '[']: ...], leaving at the first value. *)
Fixpoint for_start_chars (body : ascii -> Logged (option V))
  (start_chars : list ascii) : Logged (option V) :=
  match start_chars with
  | [] => ret None
  | start_char :: more =>
      r <- body start_char ;;
      match r with
      | Some v => ret (Some v)
      | None => for_start_chars body more
      end
  end.

Definition start_chars : list ascii := ["{"%char; "["%char].

(** Lines 161-165: [result = ...; if result is not None: return result]. *)
Definition balanced_scan (text : str) : Logged (option V) :=
  for_start_chars
    (fun start_char =>
       r <- _extract_balanced_json text start_char ;;
       match r with
       | Some v => if is_None v then ret None else ret (Some v)
       | None => ret None
       end)
    start_chars.

(** Lines 167-176: everything from the first opening character on. *)
Definition best_effort_suffix (text : str) : Logged (option V) :=
  for_start_chars
    (fun start_char =>
       match find [start_char] 0 text with
       | Some start_idx =>
           let chunk := slice_from text start_idx in
           let cleaned := _clean_json_string chunk in
           loads BestEffortSuffix cleaned
       | None => ret None
       end)
    start_chars.

(** What follows the direct parse: the four later strategies in order, each
    tried only if the ones before it gave nothing. *)
Fixpoint first_value (strategies : list (str -> Logged (option V)))
  (text : str) : Logged (option V) :=
  match strategies with
  | [] => ret None
  | strat :: more =>
      r <- strat text ;;
      match r with
      | Some v => ret (Some v)
      | None => first_value more text
      end
  end.

Definition later_strategies : list (str -> Logged (option V)) :=
  [labeled_fence; generic_fence; balanced_scan; best_effort_suffix].

(** [LLMClient.extract_json] *)
Definition extract_json (text : str) : Logged (outcome V) :=
  if match text with [] => true | _ => false end
     || match strip text with [] => true | _ => false end
  then ret (Raised empty_response)
  else
    let text := strip text in
    let text := fold_left strip_prefix common_prefixes text in
    r <- loads Direct text ;;
    match r with
    | Some v => ret (Returned v)
    | None =>
        r <- first_value later_strategies text ;;
        match r with
        | Some v => ret (Returned v)
        | None => ret (Raised (extraction_failed text))
        end
    end.

End Extraction.

(** ** Exceptions of the parser other than [JSONDecodeError]

    [json.loads] can also raise an exception that is no [JSONDecodeError]:
    a [ValueError] for an integer literal of more than 4300 digits, a
    [RecursionError] for a text nested too deeply.  No [except] clause of
    [extract_json] or of [_extract_balanced_json] catches it.  Every call of
    the parser stands in a [return json.loads(...)]: such an exception
    leaves the function at the very place where a value would, and it is
    not [None] for the test of line 164.  The run is therefore the one
    described above, with the exception carried in the place of the
    value. *)

(** What one call of [json.loads] does. *)
Inductive parsed (V E : Type) : Type :=
| Parsed (v : V)
| DecodeError
| OtherError (e : E).
Arguments Parsed {V E} v.
Arguments DecodeError {V E}.
Arguments OtherError {V E} e.

(** How [extract_json] ends: it returns a value, raises one of its own two
    errors, or lets an exception of the parser through. *)
Inductive ending (V E : Type) : Type :=
| Gives (v : V)
| Fails (e : exn)
| Escapes (e : E).
Arguments Gives {V E} v.
Arguments Fails {V E} e.
Arguments Escapes {V E} e.

Section Raising.

Variables V E : Type.
Variable json_loads : str -> parsed V E.
Variable is_None : V -> bool.

(** [try: return json.loads(s) / except json.JSONDecodeError]: what leaves
    the function, if anything does. *)
Definition caught (s : str) : option (V + E) :=
  match json_loads s with
  | Parsed v => Some (inl v)
  | DecodeError => None
  | OtherError e => Some (inr e)
  end.

(** [result is not None] is reached with a value only. *)
Definition leaves_None (r : V + E) : bool :=
  match r with
  | inl v => is_None v
  | inr _ => false
  end.

(** [LLMClient.extract_json] with a parser that may raise other
    exceptions. *)
Definition extract_json_raising (text : str) : Logged (ending V E) :=
  let (r, made) := extract_json caught leaves_None text in
  (match r with
   | Returned (inl v) => Gives v
   | Returned (inr e) => Escapes e
   | Raised e => Fails e
   end,
   made).

End Raising.

(** ** The request executor *)

(** What the retry loop does to the outside world, in order: the calls of
    [completion] with [kwargs] (with the number of the attempt making them) and
    the calls of [time.sleep]. *)
Inductive io_event (K : Type) : Type :=
| Completion (attempt : Z) (kwargs : K)
| Sleep (seconds : Z).
Arguments Completion {K} attempt kwargs.
Arguments Sleep {K} seconds.

(** [raise last_exception]: raising [None] is a [TypeError] of Python. *)
Definition raise_last {A} (last_exception : option exn) : outcome A :=
  match last_exception with
  | Some e => Raised e
  | None => Raised (TypeError (py "exceptions must derive from BaseException"))
  end.

(** [range(n)] *)
Definition range (n : Z) : list Z := map Z.of_nat (seq 0 (Z.to_nat n)).

Section Executor.

(** Values the client only passes on to the backend. *)
Variables Message Temperature : Type.

(** The fields of the client set by [__init__]. *)
Record LLMClient : Type := mkLLMClient {
  api_key : option str;
  model : str;
  base_url : option str;
  enable_thinking : bool;
  use_streaming : bool
}.

(** The dict [kwargs]; the three optional keys are [None] when absent. *)
Record Kwargs : Type := mkKwargs {
  kw_model : str;
  kw_messages : list Message;
  kw_temperature : Temperature;
  kw_api_key : option str;
  kw_base_url : option str;
  kw_response_format : option (list (str * str));
  kw_stream : option bool
}.

Definition set_stream (kwargs : Kwargs) (b : bool) : Kwargs :=
  mkKwargs (kw_model kwargs) (kw_messages kwargs) (kw_temperature kwargs)
    (kw_api_key kwargs) (kw_base_url kwargs) (kw_response_format kwargs)
    (Some b).

(** A full response is the list of [choices[k].message.content]; a chunk of
    a stream is the list of [choices[k].delta.content].  A content may be
    [None]. *)
Definition Response : Type := list (option str).
Definition Chunk : Type := list (option str).

(** A stream delivers its chunks and then ends, or breaks with an
    exception. *)
Record Stream : Type := mkStream {
  chunks : list Chunk;
  failure : option exn
}.

(** The backend, [litellm.completion]: what the call made by attempt number
    [attempt] gives, without and with [stream=True]. *)
Variable completion : Z -> Kwargs -> outcome Response.
Variable completion_stream : Z -> Kwargs -> outcome Stream.

(** The body of [for chunk in stream]. *)
Definition collect (full_content : list str) (chunk : Chunk) : list str :=
  match chunk with
  | Some content :: _ => full_content ++ [content]
  | _ => full_content
  end.

(** [LLMClient._handle_streaming_response], called by attempt [attempt]. *)
Definition _handle_streaming_response (attempt : Z) (kwargs : Kwargs)
  : outcome str :=
  match completion_stream attempt kwargs with
  | Raised e => Raised e
  | Returned stream =>
      let full_content := fold_left collect (chunks stream) [] in
      match failure stream with
      | Some e => Raised e
      | None => Returned (List.concat full_content)
      end
  end.

(** The [try] block of one attempt, with the [kwargs] it leaves behind.  A
    text result may be Python's [None] (a [message.content] that is
    absent). *)
Definition attempt_once (self : LLMClient) (attempt : Z) (kwargs : Kwargs)
  : Kwargs * outcome (option str) :=
  if use_streaming self then
    let kwargs := set_stream kwargs true in
    (kwargs,
     match _handle_streaming_response attempt kwargs with
     | Returned s => Returned (Some s)
     | Raised e => Raised e
     end)
  else
    (kwargs,
     match completion attempt kwargs with
     | Returned response =>
         match response with
         | content :: _ => Returned content
         | [] => Raised (IndexError (py "list index out of range"))
         end
     | Raised e => Raised e
     end).

(** [for attempt in range(max_retries): ...] followed by
    [raise last_exception]. *)
Fixpoint retry_loop (self : LLMClient) (max_retries : Z) (attempts : list Z)
  (kwargs : Kwargs) (last_exception : option exn)
  : outcome (option str) * list (io_event Kwargs) :=
  match attempts with
  | [] => (raise_last last_exception, [])
  | attempt :: later =>
      let (kwargs, r) := attempt_once self attempt kwargs in
      match r with
      | Returned s => (Returned s, [Completion attempt kwargs])
      | Raised e =>
          let last_exception := Some e in
          let slept :=
            if (attempt <? max_retries - 1)%Z
            then let wait_time := (2 ^ attempt)%Z in [Sleep wait_time]
            else [] in
          let (r', evs) :=
            retry_loop self max_retries later kwargs last_exception in
          (r', Completion attempt kwargs :: slept ++ evs)
      end
  end.

Definition truthy_str (s : option str) : bool :=
  match s with Some (_ :: _) => true | _ => false end.

Definition truthy_dict {A} (d : option (list A)) : bool :=
  match d with Some (_ :: _) => true | _ => false end.

(** [LLMClient.chat_completion] *)
Definition chat_completion (self : LLMClient) (messages : list Message)
  (temperature : Temperature) (response_format : option (list (str * str)))
  (max_retries : Z) : outcome (option str) * list (io_event Kwargs) :=
  let kwargs :=
    mkKwargs (model self) messages temperature (api_key self)
      (if truthy_str (base_url self) then base_url self else None)
      (if truthy_dict response_format then response_format else None)
      None in
  retry_loop self max_retries (range max_retries) kwargs None.

(** The events of a run that are waits, and the attempts made. *)
Definition waits (evs : list (io_event Kwargs)) : list Z :=
  flat_map (fun ev => match ev with Sleep s => [s] | _ => [] end) evs.

Definition attempts_made (evs : list (io_event Kwargs)) : list Z :=
  flat_map (fun ev => match ev with Completion a _ => [a] | _ => [] end) evs.

End Executor.

(** ** Reading the specification

    Definitions that follow the words of the specification, to be compared
    with the code above. *)

Module Spec.

(** 4.2: the text fragment that an increment of a stream carries, if any,
    and what it adds to the aggregated text. *)
Definition fragment_of (chunk : Chunk) : option str :=
  match chunk with
  | content :: _ => content
  | [] => None
  end.

Definition text_of_fragment (fragment : option str) : str :=
  match fragment with
  | Some s => s
  | None => []
  end.

(** The concatenation of the fragments in delivery order. *)
Definition aggregate (stream_chunks : list Chunk) : str :=
  List.concat (map (fun chunk => text_of_fragment (fragment_of chunk))
                 stream_chunks).


(** 4.1: the waits of the backoff policy before attempts [1 .. n-1]. *)
Definition backoff (i : Z) : Z := 2 ^ i.

(** 4.3, step 1, read as "one phrase": the first phrase of the list that
    leads the text is removed, and no other. *)
Fixpoint strip_one_prefix (prefixes : list str) (text : str) : str :=
  match prefixes with
  | [] => text
  | prefix :: more =>
      if startswith (lower prefix) (lower text)
      then strip (slice_from text (List.length prefix))
      else strip_one_prefix more text
  end.

(** 4.3, exhaustion: the error carries a bounded prefix of the original
    text. *)
Definition carries_prefix_of (e : exn) (original : str) : Prop :=
  exists k, k <= 300
            /\ e = ValueError (failure_header ++ firstn k original ++ py "...").

End Spec.

(** Does a recognised phrase lead [text]? *)
Definition leads (text prefix : str) : bool :=
  startswith (lower prefix) (lower text).

(** The phrases listed after the first one that leads [text]. *)
Fixpoint later_phrases (prefixes : list str) (text : str) : list str :=
  match prefixes with
  | [] => []
  | prefix :: more =>
      if leads text prefix then more else later_phrases more text
  end.

(** A recorded call that the parser answered with [JSONDecodeError]. *)
Definition rejected {V} (json_loads : str -> option V) (c : parse_call)
  : Prop :=
  match c with Loads _ s => json_loads s = None end.

(** A computation that gives a value only if the parser accepted one of
    its calls. *)
Definition quiet {V} (json_loads : str -> option V) (m : Logged (option V))
  : Prop :=
  Forall (rejected json_loads) (calls m) -> result m = None.

(** A comma that has only white space between it and the next comma. *)
Fixpoint comma_ahead (s : str) : bool :=
  match s with
  | [] => false
  | c :: r => if isspace c then comma_ahead r else Ascii.eqb c ","%char
  end.

Fixpoint stacked_commas (s : str) : bool :=
  match s with
  | [] => false
  | c :: r => (Ascii.eqb c ","%char && comma_ahead r) || stacked_commas r
  end.

Definition has_slash (s : str) : bool :=
  existsb (fun c => Ascii.eqb c "/"%char) s.

(** Is there a comma that the first substitution of the cleaner removes? *)
Fixpoint has_trailing_comma (s : str) : bool :=
  match s with
  | [] => false
  | c :: r =>
      (Ascii.eqb c ","%char && Re.ws_closer_ahead r) || has_trailing_comma r
  end.

(** Is there a [//] in [s]?  The second substitution of the cleaner matches
    at each of them. *)
Fixpoint has_line_comment (s : str) : bool :=
  match s with
  | c :: (d :: _) as r =>
      (Ascii.eqb c "/" && Ascii.eqb d "/")%char || has_line_comment r
  | _ => false
  end.

(** Is there a [/*] in [s] with a [*/] behind it, which the third
    substitution removes? *)
Fixpoint has_block_comment (s : str) : bool :=
  match s with
  | c :: (d :: r') as r =>
      (Ascii.eqb c "/" && Ascii.eqb d "*")%char && Re.has_block_end r'
      || has_block_comment r
  | _ => false
  end.

(** The events of a run in which every attempt fails: each attempt calls
    the backend with [kwargs], and each but the last is followed by its
    wait. *)
Definition failing_run {K} (max_retries : Z) (kwargs : K)
  : list (io_event K) :=
  flat_map (fun attempt =>
              Completion attempt kwargs ::
              (if (attempt <? max_retries - 1)%Z
               then [Sleep (2 ^ attempt)%Z] else []))
    (range max_retries).

(** The [kwargs] that reach the backend: [stream] is set when streaming. *)
Definition sent_kwargs {M T} (self : LLMClient) (kwargs : Kwargs M T)
  : Kwargs M T :=
  if use_streaming self then set_stream kwargs true else kwargs.

(** The [kwargs] that [chat_completion] builds before its loop. *)
Definition built_kwargs {M T} (self : LLMClient) (messages : list M)
  (temperature : T) (response_format : option (list (str * str)))
  : Kwargs M T :=
  mkKwargs (model self) messages temperature (api_key self)
    (if truthy_str (base_url self) then base_url self else None)
    (if truthy_dict response_format then response_format else None)
    None.

(** The attempts [a, a+1, ..., a+n-1]. *)
Definition attempts_from (a n : nat) : list Z := map Z.of_nat (seq a n).

(** The time slept in all. *)
Definition total (seconds : list Z) : Z := fold_right Z.add 0%Z seconds.

(** An event that is a backend call was made with [kwargs]. *)
Definition sends {K} (kwargs : K) (ev : io_event K) : Prop :=
  match ev with
  | Completion _ kw => kw = kwargs
  | Sleep _ => True
  end.

(** The events of a run that fails [k] times and then gets an answer. *)
Definition recovering_run {K} (k : nat) (kwargs : K) : list (io_event K) :=
  flat_map (fun attempt => [Completion attempt kwargs; Sleep (2 ^ attempt)%Z])
    (attempts_from 0 k)
  ++ [Completion (Z.of_nat k) kwargs].

(** A computation whose value, if it has one, is what the parser said
    about the string of its last call. *)
Definition sound {V} (json_loads : str -> option V) (m : Logged (option V))
  : Prop :=
  forall v, result m = Some v ->
            exists before site s,
              calls m = before ++ [Loads site s] /\ json_loads s = Some v.

(** A continuation that hands a value on, or drops it, without calling the
    parser. *)
Definition hands_on {V} (k : option V -> Logged (option V)) : Prop :=
  forall v v', result (k (Some v)) = Some v' ->
               v' = v /\ calls (k (Some v)) = [].

(** A call made at the place [site]. *)
Definition made_by (site : strategy) (c : parse_call) : Prop :=
  match c with Loads site' _ => site' = site end.

(** At most [n] calls, all made at the place [site]. *)
Definition part (site : strategy) (n : nat) (l : list parse_call) : Prop :=
  Forall (made_by site) l /\ List.length l <= n.

(** [s] is a part of [text] in one piece. *)
Definition slice_of (s text : str) : Prop :=
  exists before after, text = before ++ s ++ after.

Definition backtick : ascii := "`"%char.

(** The two ways in which the parse-then-clean sequence gives [v]. *)
Definition parses_to {V} (json_loads : str -> option V) (s : str) (v : V)
  : Prop :=
  json_loads s = Some v
  \/ (json_loads s = None /\ json_loads (_clean_json_string s) = Some v).

(** The character [c] does not occur in [s]. *)
Definition lacks (c : ascii) (s : str) : bool :=
  forallb (fun x => negb (Ascii.eqb x c)) s.

(** The text between the fences that the generic strategy parses when the
    opening fence is followed by [line] and a newline: a first line of
    fewer than 20 characters is taken for a label and left out. *)
Definition generic_interior (line body : str) : str :=
  if List.length line <? 20 then body else line ++ newline :: body.

(** A comma of [s] that has only white space between it and the end of
    [s]. *)
Fixpoint comma_hanging (s : str) : bool :=
  match s with
  | [] => false
  | c :: r => (Ascii.eqb c ","%char && forallb isspace r) || comma_hanging r
  end.

(** [a] is [b] with some characters deleted. *)
Inductive subsequence : str -> str -> Prop :=
| subsequence_nil : subsequence [] []
| subsequence_skip c a b : subsequence a b -> subsequence a (c :: b)
| subsequence_keep c a b : subsequence a b -> subsequence (c :: a) (c :: b).

(** ** The embedding client ([src/utils/embedding.py]) *)

Module Embed.

(** The values of [config.py] that the class reads. *)
Record Config : Type := mkConfig {
  OPENAI_API_KEY : option str;
  EMBEDDING_MODEL : str
}.

(** [config.py] as it is written, for a key taken from the environment. *)
Definition config_py (key : option str) : Config :=
  mkConfig key (py "gemini/text-embedding-004").

Section Client.

(** The numbers of an embedding vector: Python floats, which the client
    only passes on. *)
Variable F : Type.

(** An element of [response['data']], with the two keys that the client
    reads. *)
Record Item : Type := mkItem {
  index : Z;
  embedding : list F
}.

(** The backend, [litellm.embedding(model=..., input=..., api_key=...)],
    giving [response['data']] as a list. *)
Variable litellm_embedding :
  str -> list str -> option str -> outcome (list Item).

(** The attributes of an [EmbeddingModel]; [dimension] is [None] while
    [__init__] has not set it. *)
Record EmbeddingModel : Type := mkEmbeddingModel {
  model_name : str;
  api_key : option str;
  dimension : option Z
}.

(** [data.sort(key=lambda x: x['index'])].  Python's sort is stable, and
    what a stable sort gives is fixed by the keys; it is written here as
    the insertion of each item before the first one whose index is not
    smaller. *)
Fixpoint insert_by_index (x : Item) (sorted : list Item) : list Item :=
  match sorted with
  | [] => [x]
  | y :: more =>
      if (index x <=? index y)%Z then x :: sorted
      else y :: insert_by_index x more
  end.

Definition sort_by_index (data : list Item) : list Item :=
  fold_right insert_by_index [] data.

(** [EmbeddingModel.encode_documents], with the [input] of each call it
    makes to the backend.  [data] is a list, so that the branch
    [hasattr(data, 'sort')] is the one taken; an exception is printed and
    raised again. *)
Definition encode_documents (self : EmbeddingModel) (texts : list str)
  : outcome (list (list F)) * list (list str) :=
  match texts with
  | [] => (Returned [], [])
  | _ :: _ =>
      match litellm_embedding (model_name self) texts (api_key self) with
      | Returned data =>
          let data := sort_by_index data in
          (Returned (map embedding data), [texts])
      | Raised e => (Raised e, [texts])
      end
  end.

(** [EmbeddingModel.encode_single] *)
Definition encode_single (self : EmbeddingModel) (text : str)
  : outcome (list F) * list (list str) :=
  let (r, made) := encode_documents self [text] in
  match r with
  | Returned embeddings =>
      match embeddings with
      | [] => (Raised (ValueError (py "Failed to generate embedding")), made)
      | first :: _ => (Returned first, made)
      end
  | Raised e => (Raised e, made)
  end.

(** [EmbeddingModel.__init__]: the object built, and the calls made to the
    backend while building it.  [model_name or config.EMBEDDING_MODEL]
    keeps a name that is given and not empty. *)
Definition __init__ (config : Config) (name : option str)
  : EmbeddingModel * list (list str) :=
  let model_name :=
    match name with
    | Some (c :: n) => c :: n
    | _ => EMBEDDING_MODEL config
    end in
  let api_key := OPENAI_API_KEY config in
  let self := mkEmbeddingModel model_name api_key None in
  if contains (py "text-embedding-004") model_name
  then (mkEmbeddingModel model_name api_key (Some 768%Z), [])
  else if contains (py "ada-002") model_name
          || contains (py "3-small") model_name
  then (mkEmbeddingModel model_name api_key (Some 1536%Z), [])
  else if contains (py "qwen") (lower model_name)
  then (mkEmbeddingModel model_name api_key (Some 1024%Z), [])
  else
    let (dummy, made) := encode_single self (py "test") in
    match dummy with
    | Returned v =>
        (mkEmbeddingModel model_name api_key
           (Some (Z.of_nat (List.length v))), made)
    | Raised _ => (mkEmbeddingModel model_name api_key (Some 768%Z), made)
    end.

(** [EmbeddingModel.get_sentence_embedding_dimension] *)
Definition get_sentence_embedding_dimension (self : EmbeddingModel)
  : option Z :=
  dimension self.

End Client.

End Embed.

(** ** Concrete backends and inputs used to instantiate the statements *)

Module Examples.

(** The prose-wrapped object with a trailing comma. *)
Definition trailing_comma_text : str := pyq "{'a': 1,} ok".
Definition trailing_comma_region : str := pyq "{'a': 1,}".

(** The object of the specification's scanner scenario. *)
Definition braces_in_string : str := pyq "{'a': 'x{y}z'}".

(** An escaped quote and a closing brace inside a string, an array inside
    the object, and prose with braces after it. *)
Definition escaped_quote_text : str :=
  pyq "{'a': 'x\'}', 'b': [1]} and {more}".
Definition escaped_quote_region : str := pyq "{'a': 'x\'}', 'b': [1]}".

(** Trailing commas, one behind the other and one before a comment. *)
Definition two_trailing_commas : str := pyq " {'a': [1, 2, ], } ".
Definition comma_before_comment : str :=
  pyq "{'a': 1, // one" ++ newline :: py "}".

Definition client (streaming : bool) : LLMClient :=
  mkLLMClient (Some (py "key")) (py "gemini/gemini-2.5-flash") None false
    streaming.

Definition timeout_error (attempt : Z) : exn :=
  BackendException (py "timeout").

(** A backend that raises on every call. *)
Definition failing : Z -> Kwargs unit unit -> outcome Response :=
  fun attempt _ => Raised (timeout_error attempt).
Definition failing_stream : Z -> Kwargs unit unit -> outcome Stream :=
  fun attempt _ => Raised (timeout_error attempt).

(** A backend that answers [{"a": 1}], at once or in pieces, with a chunk
    without choices, an absent fragment and an empty one among them. *)
Definition answer : str := pyq "{'a': 1}".
Definition answering : Z -> Kwargs unit unit -> outcome Response :=
  fun _ _ => Returned [Some answer].
Definition answer_chunks : list Chunk :=
  [ [Some (pyq "{'a")]; []; [None]; [Some []]; [Some (pyq "': 1}")] ].
Definition answering_stream : Z -> Kwargs unit unit -> outcome Stream :=
  fun _ _ => Returned (mkStream answer_chunks None).


(** A backend that times out twice and then answers; its stream breaks
    after two chunks on the first attempt. *)
Definition recovering : Z -> Kwargs unit unit -> outcome Response :=
  fun attempt _ =>
    if (attempt <? 2)%Z then Raised (timeout_error attempt)
    else Returned [Some answer].
Definition breaking_stream : Z -> Kwargs unit unit -> outcome Stream :=
  fun attempt _ =>
    if (attempt =? 0)%Z
    then Returned (mkStream [[Some (py "garb")]; [Some (py "age")]]
                     (Some (timeout_error attempt)))
    else Returned (mkStream answer_chunks None).

(** A backend whose answer has a choice without content. *)
Definition contentless : Z -> Kwargs unit unit -> outcome Response :=
  fun _ _ => Returned [None; Some answer].

(** A backend whose answer has no choice at all. *)
Definition choiceless : Z -> Kwargs unit unit -> outcome Response :=
  fun _ _ => Returned [].

(** An embedding backend that answers in reverse order, and one that
    fails. *)
Definition reversing : str -> list str -> option str
                       -> outcome (list (Embed.Item Z)) :=
  fun _ texts _ =>
    Returned (rev (map (fun k => Embed.mkItem (Z.of_nat k)
                                   [Z.of_nat k; Z.of_nat (k + 10)])
                     (seq 0 (List.length texts)))).
Definition unreachable : str -> list str -> option str
                         -> outcome (list (Embed.Item Z)) :=
  fun _ _ _ => Raised (BackendException (py "unreachable")).
(** An embedding backend that answers any request with three items, the
    one of least index in the middle, and one that answers with none. *)
Definition swapped_items : list (Embed.Item Z) :=
  [ Embed.mkItem 2%Z [2%Z; 12%Z];
    Embed.mkItem 0%Z [0%Z; 10%Z];
    Embed.mkItem 1%Z [1%Z; 11%Z] ].
Definition swapping : str -> list str -> option str
                      -> outcome (list (Embed.Item Z)) :=
  fun _ _ _ => Returned swapped_items.
Definition silent : str -> list str -> option str
                    -> outcome (list (Embed.Item Z)) :=
  fun _ _ _ => Returned [].
Definition embedder : Embed.EmbeddingModel :=
  Embed.mkEmbeddingModel (py "gemini/text-embedding-004") None (Some 768%Z).
Definition three_texts : list str := [py "a"; py "b"; py "c"].

(** Texts for the strategies of the chain. *)
Definition labeled_block_text : str :=
  py "Sure! ```JSON" ++ newline :: pyq "{'a': 1,}" ++ newline :: py "``` bye".
Definition labeled_block_body : str :=
  newline :: pyq "{'a': 1,}" ++ [newline].
Definition generic_block_text : str :=
  py "see ```python" ++ newline :: py "[true]" ++ newline :: py "```".
Definition generic_block_body : str := py "[true]" ++ [newline].
Definition suffix_text : str := pyq "so: [1, 2,] // done".

(** The reference reader with the limit that CPython puts on the digits of
    an integer literal, for texts that are one such literal: beyond 4300
    digits the conversion raises a [ValueError] that is no
    [JSONDecodeError]. *)
Definition int_max_str_digits : Z := 4300.
Definition digits_exceeded : exn :=
  ValueError (py "Exceeds the limit (4300 digits) for integer string conversion").
Definition loads_limited (s : str) : parsed Json.value exn :=
  match Json.loads s with
  | Some (Json.JInt z) =>
      if (10 ^ int_max_str_digits <=? Z.abs z)%Z
      then OtherError digits_exceeded
      else Parsed (Json.JInt z)
  | Some v => Parsed v
  | None => DecodeError
  end.

(** An integer of 4301 digits in a fenced block, with an array after it. *)
Definition long_integer : str := repeat "1"%char 4301.
Definition fenced_long_integer : str :=
  py "```" ++ newline :: long_integer ++ newline :: py "``` [1,]".

(** A URL inside a string. *)
Definition url_head : str := pyq "{'u': 'http:".
Definition url_tail : str := pyq "example.org/x'}".

(** What [reversing] answers for three texts. *)
Definition reversed_items : list (Embed.Item Z) :=
  [ Embed.mkItem 2%Z [2%Z; 12%Z];
    Embed.mkItem 1%Z [1%Z; 11%Z];
    Embed.mkItem 0%Z [0%Z; 10%Z] ].

End Examples.

(** * Properties *)

(** ** Python strings *)

Lemma lstrip_blank (s : str) : forallb isspace s = true -> lstrip s = [].
Proof.
  induction s as [|c r IH]; simpl; [reflexivity|].
  intros H; apply andb_true_iff in H as [Hc Hr].
  rewrite Hc; auto.
Qed.

Lemma strip_blank (s : str) : forallb isspace s = true -> strip s = [].
Proof. intros H; unfold strip; rewrite lstrip_blank; auto. Qed.

Lemma lstrip_nil_blank (s : str) : lstrip s = [] -> forallb isspace s = true.
Proof.
  induction s as [|c r IH]; simpl; [reflexivity|].
  destruct (isspace c); [auto | discriminate].
Qed.

Lemma rstrip_nil_blank (s : str) : rstrip s = [] -> forallb isspace s = true.
Proof.
  induction s as [|c r IH]; simpl; [reflexivity|].
  destruct (rstrip r) eqn:E; [|discriminate].
  destruct (isspace c); [auto | discriminate].
Qed.

Lemma lstrip_head (s : str) c r : lstrip s = c :: r -> isspace c = false.
Proof.
  induction s as [|d s' IH]; simpl; [discriminate|].
  destruct (isspace d) eqn:E; [exact IH|].
  intros H; injection H as -> _; exact E.
Qed.

Lemma lstrip_fixed (s : str) c r : s = c :: r -> isspace c = false -> lstrip s = s.
Proof. intros -> H; simpl; rewrite H; reflexivity. Qed.

Lemma rstrip_head (s : str) c r : rstrip s = c :: r -> exists r', s = c :: r'.
Proof.
  destruct s as [|d s']; simpl; [discriminate|].
  destruct (rstrip s'); [destruct (isspace d); [discriminate|] |];
    intros H; injection H as -> _; eauto.
Qed.

Lemma rstrip_idem (s : str) : rstrip (rstrip s) = rstrip s.
Proof.
  induction s as [|c r IH]; simpl; [reflexivity|].
  destruct (rstrip r) as [|d r'] eqn:E.
  - destruct (isspace c) eqn:Ec; simpl; [reflexivity | rewrite Ec; reflexivity].
  - simpl in *. rewrite IH. reflexivity.
Qed.

Lemma strip_idem (s : str) : strip (strip s) = strip s.
Proof.
  unfold strip.
  destruct (rstrip (lstrip s)) as [|c r] eqn:E; [reflexivity|].
  destruct (rstrip_head _ E) as [r' E'].
  rewrite (lstrip_fixed (s := c :: r) (c := c) (r := r) eq_refl).
  - rewrite <- E. apply rstrip_idem.
  - exact (lstrip_head _ E').
Qed.

Lemma strip_nil_blank (s : str) : strip s = [] -> forallb isspace s = true.
Proof.
  unfold strip; intros H. apply rstrip_nil_blank in H.
  induction s as [|c r IH]; simpl in *; [reflexivity|].
  destruct (isspace c) eqn:E; simpl; [auto|].
  simpl in H. rewrite E in H. discriminate.
Qed.

(** ** The model on small inputs *)

Example sub_trailing_comma_example :
  Re.sub_trailing_comma (pyq "{'a': [1, 2, ], 'b': 3 ,x ,}")
  = pyq "{'a': [1, 2 ], 'b': 3 ,x }".
Proof. reflexivity. Qed.

Example sub_line_comments_example :
  Re.sub_line_comments (py "a // b" ++ newline :: py "c / d //")
  = py "a " ++ newline :: py "c / d ".
Proof. reflexivity. Qed.

Example sub_block_comments_example :
  Re.sub_block_comments (py "a /* b */ c /*/ d /**/ e /* f")
  = py "a  c  e /* f".
Proof. reflexivity. Qed.

Example clean_example :
  _clean_json_string (pyq " {'a': 1, /* one */ 'b': [2,], } ")
  = pyq "{'a': 1,  'b': [2] }".
Proof. reflexivity. Qed.

Example labeled_fence_example :
  extract_json Json.loads Json.is_null
    (py "Here's the json: ```json" ++ newline :: py "[1, 2,]"
     ++ newline :: py "``` done")
  = (Returned (Json.JArr [Json.JInt 1; Json.JInt 2]),
     [Loads Direct (py "```json" ++ newline :: py "[1, 2,]"
                    ++ newline :: py "``` done");
      Loads LabeledFence (py "[1, 2,]");
      Loads LabeledFence (py "[1, 2]")]).
Proof. reflexivity. Qed.

Example generic_fence_example :
  extract_json Json.loads Json.is_null
    (py "see ```python" ++ newline :: py "[true]" ++ newline :: py "```")
  = (Returned (Json.JArr [Json.JBool true]),
     [Loads Direct (py "see ```python" ++ newline :: py "[true]"
                    ++ newline :: py "```");
      Loads GenericFence (py "[true]")]).
Proof. reflexivity. Qed.

Example balanced_scan_example :
  extract_json Json.loads Json.is_null (pyq "It is {'a': [1]} I think")
  = (Returned (Json.JObj [(py "a", Json.JArr [Json.JInt 1])]),
     [Loads Direct (pyq "It is {'a': [1]} I think");
      Loads BalancedScan (pyq "{'a': [1]}")]).
Proof. reflexivity. Qed.

Example best_effort_suffix_example :
  extract_json Json.loads Json.is_null (pyq "so: [1, 2,] // done")
  = (Returned (Json.JArr [Json.JInt 1; Json.JInt 2]),
     [Loads Direct (pyq "so: [1, 2,] // done");
      Loads BalancedScan (pyq "[1, 2,]");
      Loads BalancedScan (pyq "[1, 2,]");
      Loads BestEffortSuffix (pyq "[1, 2]")]).
Proof. reflexivity. Qed.

Lemma space_not_comma (c : ascii) :
  isspace c = true -> Ascii.eqb c ","%char = false.
Proof.
  destruct (Ascii.eqb c ",") eqn:E; [|reflexivity].
  apply Ascii.eqb_eq in E as ->. discriminate.
Qed.

Lemma closer_not_comma (c : ascii) :
  Re.is_closer c = true -> Ascii.eqb c ","%char = false.
Proof.
  destruct (Ascii.eqb c ",") eqn:E; [|reflexivity].
  apply Ascii.eqb_eq in E as ->. discriminate.
Qed.

(** The group [\s*[}\]]] holds no comma: the substitution leaves it as it
    is and goes on behind it. *)
Lemma sub_trailing_comma_over_group (r : str) :
  Re.ws_closer_ahead r = true ->
  exists w c rest,
    r = w ++ c :: rest /\ forallb isspace w = true /\ Re.is_closer c = true
    /\ Re.sub_trailing_comma r = w ++ c :: Re.sub_trailing_comma rest.
Proof.
  induction r as [|d r' IH]; [discriminate|].
  cbn [Re.ws_closer_ahead]. destruct (isspace d) eqn:Hd; intros H.
  - destruct (IH H) as [w [c [rest [Hr [Hw [Hc Hsub]]]]]].
    exists (d :: w), c, rest. repeat split.
    + cbn [app]. congruence.
    + cbn [forallb]. rewrite Hd. exact Hw.
    + exact Hc.
    + cbn [Re.sub_trailing_comma app].
      rewrite (space_not_comma _ Hd). cbn [andb]. f_equal. exact Hsub.
  - exists [], d, r'. repeat split; [exact H|].
    cbn [Re.sub_trailing_comma app].
    rewrite (closer_not_comma _ H). reflexivity.
Qed.

(** The first substitution in the words of [re.sub]: at a comma that has
    white space [w] and a closer [c] after it, the comma goes, the group
    [w ++ [c]] stays and the scan goes on behind the group. *)
Lemma sub_trailing_comma_group (r : str) :
  Re.ws_closer_ahead r = true ->
  exists w c rest,
    r = w ++ c :: rest /\ forallb isspace w = true /\ Re.is_closer c = true
    /\ Re.sub_trailing_comma (","%char :: r)
       = w ++ c :: Re.sub_trailing_comma rest.
Proof.
  intros H.
  destruct (sub_trailing_comma_over_group _ H) as [w [c [rest [Hr [Hw [Hc Hsub]]]]]].
  exists w, c, rest. repeat split; try assumption.
  rewrite <- Hsub. cbn [Re.sub_trailing_comma]. rewrite H. reflexivity.
Qed.

(** ** The extraction chain: empty input and the direct parse *)

Section ExtractionFacts.

Variable V : Type.
Variable json_loads : str -> option V.
Variable is_None : V -> bool.

Lemma normalized_blank (text : str) : strip text = [] -> normalized text = [].
Proof. intros H; unfold normalized; rewrite H; reflexivity. Qed.

(** C7.  An input that is empty or made of white space only makes
    [extract_json] raise the error "Empty response received" at once: the
    parser is never called, so no strategy is attempted and nothing is tried
    a second time. *)
Theorem extract_json_empty_input (text : str) :
  forallb isspace text = true ->
  extract_json json_loads is_None text = (Raised empty_response, [])
  /\ produced_by (extract_json json_loads is_None text) = None.
Proof.
  intros H. unfold extract_json, produced_by.
  rewrite (strip_blank _ H), orb_true_r. split; reflexivity.
Qed.

(** C5, as the code has it.  Whenever the direct parse (the parse of the
    stripped text, which is the first strategy to run) succeeds,
    [extract_json] returns exactly the value it gave, and returns it bare:
    the code attaches no strategy tag to what it returns.  The only call of
    the parser is that one, made at the direct parse, so no later strategy
    runs.  The parser is assumed to reject the empty text, as [json.loads]
    does. *)
Theorem extract_json_direct (text : str) (v : V) :
  json_loads [] = None ->
  json_loads (normalized text) = Some v ->
  result (extract_json json_loads is_None text) = Returned v
  /\ calls (extract_json json_loads is_None text)
     = [Loads Direct (normalized text)]
  /\ produced_by (extract_json json_loads is_None text) = Some Direct.
Proof.
  intros Hempty Hv.
  assert (Hne : strip text <> []).
  { intros E. rewrite (normalized_blank _ E) in Hv. congruence. }
  unfold extract_json, produced_by, result, calls.
  destruct text as [|c r]; [exfalso; apply Hne; reflexivity|].
  destruct (strip (c :: r)) as [|c' r'] eqn:E; [congruence|].
  cbn [orb]. rewrite <- E. fold (normalized (c :: r)).
  unfold loads, bind. rewrite Hv. cbn. repeat split.
Qed.

End ExtractionFacts.

(** The witness of C7: a line of blanks. *)
Lemma extract_json_empty_input_witness :
  forallb isspace (py "  ") = true
  /\ (extract_json Json.loads Json.is_null (py "  ")
        = (Raised empty_response, [])
      /\ produced_by (extract_json Json.loads Json.is_null (py "  ")) = None).
Proof.
  split; [reflexivity|].
  apply (@extract_json_empty_input Json.value Json.loads Json.is_null (py "  ")).
  reflexivity.
Defined.

(** The witness of C5: an answer behind a label. *)
Lemma extract_json_direct_witness :
  Json.loads [] = None
  /\ Json.loads (normalized (py " JSON: [1, 2] ")) = Some (Json.JArr [Json.JInt 1; Json.JInt 2])
  /\ (result (extract_json Json.loads Json.is_null (py " JSON: [1, 2] "))
        = Returned (Json.JArr [Json.JInt 1; Json.JInt 2])
      /\ calls (extract_json Json.loads Json.is_null (py " JSON: [1, 2] "))
         = [Loads Direct (normalized (py " JSON: [1, 2] "))]
      /\ produced_by (extract_json Json.loads Json.is_null (py " JSON: [1, 2] "))
         = Some Direct).
Proof.
  split; [reflexivity|]. split; [reflexivity|].
  apply (@extract_json_direct Json.value Json.loads Json.is_null
           (py " JSON: [1, 2] ")); reflexivity.
Defined.

(** C5 as stated fails in its tag: the direct parse of [[1]] and the
    labelled fenced block around [[1]] make [extract_json] return the very
    same value, so nothing in what is returned tells the strategy. *)
Lemma returned_value_has_no_tag :
  Json.loads (normalized (py "[1]")) = Some (Json.JArr [Json.JInt 1])
  /\ produced_by (extract_json Json.loads Json.is_null (py "[1]"))
     = Some Direct
  /\ produced_by (extract_json Json.loads Json.is_null (py "```json [1] ```"))
     = Some LabeledFence
  /\ result (extract_json Json.loads Json.is_null (py "[1]"))
     = result (extract_json Json.loads Json.is_null (py "```json [1] ```"))
  /\ ~ (exists tag_of : outcome Json.value -> strategy,
          forall text s,
            produced_by (extract_json Json.loads Json.is_null text) = Some s ->
            tag_of (result (extract_json Json.loads Json.is_null text)) = s).
Proof.
  assert (Hd : produced_by (extract_json Json.loads Json.is_null (py "[1]"))
               = Some Direct) by reflexivity.
  assert (Hf : produced_by
                 (extract_json Json.loads Json.is_null (py "```json [1] ```"))
               = Some LabeledFence) by reflexivity.
  assert (He : result (extract_json Json.loads Json.is_null (py "[1]"))
               = result (extract_json Json.loads Json.is_null
                           (py "```json [1] ```"))) by reflexivity.
  split; [reflexivity|]. split; [exact Hd|]. split; [exact Hf|].
  split; [exact He|].
  intros [tag_of H].
  pose proof (H _ _ Hd) as H1. pose proof (H _ _ Hf) as H2.
  rewrite He in H1. congruence.
Qed.

(** ** The request executor *)

Lemma range_nonpos (n : Z) : (n <= 0)%Z -> range n = [].
Proof.
  intros H. unfold range.
  replace (Z.to_nat n) with 0 by lia. reflexivity.
Qed.

Lemma range_succ (n : Z) :
  (0 <= n)%Z -> range (n + 1) = range n ++ [n].
Proof.
  intros H. unfold range.
  replace (Z.to_nat (n + 1)) with (S (Z.to_nat n)) by lia.
  rewrite seq_S, map_app. simpl. rewrite Z2Nat.id by lia. reflexivity.
Qed.

Lemma range_bounds (n a : Z) : In a (range n) -> (0 <= a < n)%Z.
Proof.
  unfold range. intros H. apply in_map_iff in H as [k [<- Hk]].
  apply in_seq in Hk. lia.
Qed.

Section ExecutorFacts.

Variables Message Temperature : Type.
Variable completion : Z -> Kwargs Message Temperature -> outcome Response.
Variable completion_stream :
  Z -> Kwargs Message Temperature -> outcome Stream.

Local Abbreviation attempt := (attempt_once completion completion_stream).
Local Abbreviation loop := (retry_loop completion completion_stream).
Local Abbreviation chat := (chat_completion completion completion_stream).
Local Abbreviation kwargs := (Kwargs Message Temperature).

Lemma attempt_once_kwargs self a (kw : kwargs) :
  fst (attempt self a kw) = sent_kwargs self kw.
Proof. unfold attempt_once, sent_kwargs. destruct (use_streaming self); reflexivity. Qed.

Lemma sent_kwargs_idem self (kw : kwargs) :
  sent_kwargs self (sent_kwargs self kw) = sent_kwargs self kw.
Proof. unfold sent_kwargs. destruct (use_streaming self); reflexivity. Qed.

(** The loop when every attempt of [attempts] fails, attempt [a] with
    [err a]. *)
Lemma retry_loop_all_fail self (err : Z -> exn) (m : Z) :
  (forall a kw, snd (attempt self a kw) = Raised (err a)) ->
  forall (attempts : list Z) (kw : kwargs) (last : option exn),
    loop self m attempts kw last
    = (raise_last (fold_left (fun _ a => Some (err a)) attempts last),
       flat_map (fun a =>
                   Completion a (sent_kwargs self kw) ::
                   (if (a <? m - 1)%Z then [Sleep (2 ^ a)%Z] else []))
         attempts).
Proof.
  intros Hfail attempts.
  induction attempts as [|a later IH]; intros kw last; [reflexivity|].
  cbn [retry_loop fold_left flat_map].
  pose proof (Hfail a kw) as Ha. pose proof (attempt_once_kwargs self a kw) as Hk.
  destruct (attempt self a kw) as [kw' r]. cbn [fst snd] in Ha, Hk.
  subst r kw'. rewrite IH, sent_kwargs_idem. reflexivity.
Qed.

Lemma last_error_range (err : Z -> exn) (n : Z) (last : option exn) :
  (1 <= n)%Z ->
  fold_left (fun _ a => Some (err a)) (range n) last = Some (err (n - 1)%Z).
Proof.
  intros H. assert (E : range n = range (n - 1) ++ [(n - 1)%Z]).
  { rewrite <- range_succ by lia. f_equal. lia. }
  rewrite E, fold_left_app. reflexivity.
Qed.

Lemma attempts_made_failing_run (m : Z) (kw : kwargs) (l : list Z) :
  attempts_made
    (flat_map (fun a => Completion a kw ::
                        (if (a <? m - 1)%Z then [Sleep (2 ^ a)%Z] else [])) l)
  = l.
Proof.
  induction l as [|a l IH]; [reflexivity|].
  cbn [flat_map]. unfold attempts_made in *. cbn [flat_map app].
  rewrite flat_map_app, IH.
  destruct (a <? m - 1)%Z; reflexivity.
Qed.

Lemma waits_failing_run (m : Z) (kw : kwargs) (l : list Z) :
  waits
    (flat_map (fun a => Completion a kw ::
                        (if (a <? m - 1)%Z then [Sleep (2 ^ a)%Z] else [])) l)
  = map Spec.backoff (filter (fun a => (a <? m - 1)%Z) l).
Proof.
  induction l as [|a l IH]; [reflexivity|].
  cbn [flat_map filter]. unfold waits in *. cbn [flat_map app].
  rewrite flat_map_app, IH.
  destruct (a <? m - 1)%Z; reflexivity.
Qed.

Lemma filter_range_below (n : Z) :
  (1 <= n)%Z -> filter (fun a => (a <? n - 1)%Z) (range n) = range (n - 1).
Proof.
  intros H. assert (E : range n = range (n - 1) ++ [(n - 1)%Z]).
  { rewrite <- range_succ by lia. f_equal. lia. }
  rewrite E, filter_app. cbn [filter].
  rewrite Z.ltb_irrefl, app_nil_r.
  apply forallb_filter_id. apply forallb_forall.
  intros a Ha. apply range_bounds in Ha. apply Z.ltb_lt. lia.
Qed.

(** C10.  With [max_retries] zero or negative the loop body never runs:
    [chat_completion] calls the backend not once, never sleeps and returns no
    text; it ends in the final [raise], whose operand [last_exception] is
    still [None], which Python answers with a [TypeError]. *)
Theorem chat_completion_no_budget (self : LLMClient) (messages : list Message)
  (temperature : Temperature) (response_format : option (list (str * str)))
  (max_retries : Z) :
  (max_retries <= 0)%Z ->
  chat self messages temperature response_format max_retries
  = (raise_last None, [])
  /\ forall s,
      fst (chat self messages temperature response_format
             max_retries) <> Returned s.
Proof.
  intros H. unfold chat_completion.
  rewrite (range_nonpos H). cbn. split; [reflexivity | discriminate].
Qed.

(** C2, as the code has it.  Against a backend on which every attempt
    fails (attempt [i] with the error [err i]) and with a budget of at
    least one attempt, [chat_completion] makes the attempts
    [0 .. max_retries-1] and no other, sleeps [2^i] after each failed
    attempt [i] but the last (so the waits are 1, 2, 4, ... and there are
    [max_retries - 1] of them; 1 and 2 for a budget of 3), and then raises
    the error of the last attempt itself. *)
Theorem chat_completion_all_fail (self : LLMClient) (messages : list Message)
  (temperature : Temperature) (response_format : option (list (str * str)))
  (max_retries : Z) (err : Z -> exn) :
  (1 <= max_retries)%Z ->
  (forall a kw, snd (attempt self a kw) = Raised (err a)) ->
  let run :=
    chat self messages temperature response_format max_retries in
  fst run = Raised (err (max_retries - 1)%Z)
  /\ snd run
     = failing_run max_retries
         (sent_kwargs self
            (built_kwargs self messages temperature response_format))
  /\ attempts_made (snd run) = range max_retries
  /\ waits (snd run) = map Spec.backoff (range (max_retries - 1))
  /\ List.length (attempts_made (snd run)) = Z.to_nat max_retries
  /\ (max_retries = 3%Z -> waits (snd run) = [1%Z; 2%Z]).
Proof.
  intros Hn Hfail run. subst run. unfold chat_completion.
  fold (built_kwargs self messages temperature response_format).
  rewrite (retry_loop_all_fail self err max_retries Hfail).
  cbn [fst snd]. rewrite (last_error_range err None Hn).
  unfold failing_run.
  rewrite attempts_made_failing_run, waits_failing_run, filter_range_below by lia.
  repeat split.
  - unfold range. rewrite length_map, length_seq. reflexivity.
  - intros ->. reflexivity.
Qed.

(** The aggregator's list of kept contents, from any starting list. *)
Lemma collect_fold (cs : list Chunk) (acc : list str) :
  List.concat (fold_left collect cs acc)
  = List.concat acc ++ Spec.aggregate cs.
Proof.
  revert acc. induction cs as [|ch cs IH]; intros acc.
  - cbn. rewrite app_nil_r. reflexivity.
  - cbn [fold_left]. rewrite IH. unfold Spec.aggregate. cbn [map List.concat].
    destruct ch as [|[content|] more]; cbn [collect Spec.fragment_of Spec.text_of_fragment].
    + reflexivity.
    + rewrite concat_app. cbn. rewrite app_nil_r, <- app_assoc. reflexivity.
    + reflexivity.
Qed.


Lemma handle_streaming_delivered (a : Z) (kw : kwargs) (cs : list Chunk) :
  completion_stream a kw = Returned (mkStream cs None) ->
  _handle_streaming_response completion_stream a kw
  = Returned (Spec.aggregate cs).
Proof.
  intros H. unfold _handle_streaming_response. rewrite H. cbn.
  rewrite collect_fold. reflexivity.
Qed.


End ExecutorFacts.

(** The witness of C10: a budget of zero. *)
Lemma chat_completion_no_budget_witness :
  (0 <= 0)%Z
  /\ (chat_completion Examples.answering Examples.answering_stream
        (Examples.client true) [] tt None 0
      = (raise_last None, [])
      /\ forall s,
          fst (chat_completion Examples.answering Examples.answering_stream
                 (Examples.client true) [] tt None 0) <> Returned s).
Proof.
  split; [lia|].
  apply (@chat_completion_no_budget unit unit Examples.answering
           Examples.answering_stream (Examples.client true) [] tt None 0%Z).
  lia.
Defined.

(** The witness of C2: three attempts against a backend that times out. *)
Lemma chat_completion_all_fail_witness :
  (1 <= 3)%Z
  /\ (forall a kw,
        snd (attempt_once Examples.failing Examples.failing_stream
               (Examples.client true) a kw)
        = Raised (Examples.timeout_error a))
  /\ (let run :=
        chat_completion Examples.failing Examples.failing_stream
          (Examples.client true) [] tt None 3 in
      fst run = Raised (Examples.timeout_error (3 - 1)%Z)
      /\ snd run
         = failing_run 3
             (sent_kwargs (Examples.client true)
                (built_kwargs (Examples.client true) [] tt None))
      /\ attempts_made (snd run) = range 3
      /\ waits (snd run) = map Spec.backoff (range (3 - 1))
      /\ List.length (attempts_made (snd run)) = Z.to_nat 3
      /\ (3%Z = 3%Z -> waits (snd run) = [1%Z; 2%Z])).
Proof.
  split; [lia|]. split; [intros a kw; reflexivity|].
  apply (@chat_completion_all_fail unit unit Examples.failing
           Examples.failing_stream (Examples.client true) [] tt None 3%Z
           Examples.timeout_error).
  - lia.
  - intros a kw. reflexivity.
Defined.


(** C2 as stated fails for a budget of zero: against the failing backend
    no attempt is made, and what is raised is Python's [TypeError] for
    [raise None], not a failure of the backend. *)
Lemma no_budget_raises_no_backend_failure :
  (forall a kw,
     snd (attempt_once Examples.failing Examples.failing_stream
            (Examples.client true) a kw)
     = Raised (Examples.timeout_error a))
  /\ chat_completion Examples.failing Examples.failing_stream
       (Examples.client true) [] tt None 0
     = (Raised (TypeError (py "exceptions must derive from BaseException")),
        [])
  /\ ~ (exists a,
          fst (chat_completion Examples.failing Examples.failing_stream
                 (Examples.client true) [] tt None 0)
          = Raised (Examples.timeout_error a)).
Proof.
  split; [intros a kw; reflexivity|]. split; [reflexivity|].
  intros [a H]. vm_compute in H. discriminate.
Qed.

(** ** The prefix strip *)

Lemma strip_prefix_leads (text prefix : str) :
  strip_prefix text prefix
  = if leads text prefix then strip (slice_from text (List.length prefix))
    else text.
Proof. reflexivity. Qed.

Lemma fold_strip_prefix_first (prefixes : list str) (text : str) :
  fold_left strip_prefix prefixes text
  = fold_left strip_prefix (later_phrases prefixes text)
      (Spec.strip_one_prefix prefixes text).
Proof.
  revert text. induction prefixes as [|p more IH]; intros text; [reflexivity|].
  cbn [fold_left later_phrases Spec.strip_one_prefix].
  rewrite strip_prefix_leads. unfold leads at 2.
  destruct (leads text p) eqn:E; unfold leads in E; rewrite E.
  - reflexivity.
  - apply IH.
Qed.

Lemma fold_strip_prefix_none (prefixes : list str) (text : str) :
  forallb (fun p => negb (leads text p)) prefixes = true ->
  fold_left strip_prefix prefixes text = text.
Proof.
  induction prefixes as [|p more IH]; [reflexivity|].
  cbn [forallb fold_left]. intros H. apply andb_true_iff in H as [Hp Hmore].
  rewrite strip_prefix_leads. apply negb_true_iff in Hp. rewrite Hp. auto.
Qed.

(** C9, as the code has it.  The loop tests the seven phrases once each, in
    the order of the list, against the text as it stands, ignoring case: it
    removes the first phrase that leads the stripped input, as the reading
    "one phrase" does, and then goes on with the phrases listed after that
    one, each tested against what is left.  When no phrase leads the
    stripped input, the result is the stripped input. *)
Theorem prefix_strip_first_then_later (text : str) :
  normalized text
  = fold_left strip_prefix (later_phrases common_prefixes (strip text))
      (Spec.strip_one_prefix common_prefixes (strip text))
  /\ (forallb (fun p => negb (leads (strip text) p)) common_prefixes = true ->
      normalized text = strip text)
  /\ (later_phrases common_prefixes (strip text) = [] ->
      normalized text = Spec.strip_one_prefix common_prefixes (strip text)).
Proof.
  unfold normalized. split; [apply fold_strip_prefix_first|]. split.
  - apply fold_strip_prefix_none.
  - intros H. rewrite fold_strip_prefix_first, H. reflexivity.
Qed.

(** C9 as stated fails: of the two phrases that lead this input in turn,
    the loop removes both, where "exactly one" would leave the second. *)
Lemma prefix_strip_removes_two :
  normalized (py "Result: Output: 1") = py "1"
  /\ Spec.strip_one_prefix common_prefixes (strip (py "Result: Output: 1"))
     = py "Output: 1"
  /\ normalized (py "Result: Output: 1")
     <> Spec.strip_one_prefix common_prefixes (strip (py "Result: Output: 1")).
Proof. repeat split. vm_compute. discriminate. Qed.

(** ** The scanner loop and the balanced scan *)

(** The loop only chooses where to stop; what is done there can be applied
    afterwards. *)
Lemma scan_loop_factor {R : Type} (start_char end_char : ascii)
  (at_close : nat -> R) (at_end : R) (rest : str) :
  forall depth in_string escape_next i,
    scan_loop start_char end_char at_close at_end depth in_string
      escape_next i rest
    = match scan_loop start_char end_char (@Some nat) None depth in_string
              escape_next i rest with
      | Some j => at_close j
      | None => at_end
      end.
Proof.
  induction rest as [|char rest' IH]; intros depth in_string escape_next i;
    [reflexivity|].
  cbn [scan_loop].
  repeat match goal with
         | |- context [if ?b then _ else _] => destruct b
         end; try apply IH; reflexivity.
Qed.

Section BalancedScanFacts.

Variable V : Type.
Variable json_loads : str -> option V.
Variable is_None : V -> bool.

Lemma extract_balanced_by_region (text : str) (start_char : ascii) :
  _extract_balanced_json json_loads text start_char
  = match balanced_region text start_char with
    | Some json_str => parse_region json_loads json_str
    | None => ret None
    end.
Proof.
  unfold _extract_balanced_json, balanced_region.
  destruct (find [start_char] 0 text) as [start_idx|]; [|reflexivity].
  rewrite scan_loop_factor.
  rewrite (scan_loop_factor _ _ (fun i => Some (slice text start_idx (i + 1)))).
  destruct (scan_loop _ _ _ _ _ _ _ _ _); reflexivity.
Qed.

(** When the direct parse of the balanced region fails, the strategy gives
    nothing, whatever the parser says about the cleaned region: that string
    is never handed to it. *)
Lemma extract_balanced_unparsed (text : str) (start_char : ascii)
  (json_str : str) :
  balanced_region text start_char = Some json_str ->
  json_loads json_str = None ->
  _extract_balanced_json json_loads text start_char
  = (None, [Loads BalancedScan json_str; Loads BalancedScan json_str]).
Proof.
  intros Hregion Hfail. rewrite extract_balanced_by_region, Hregion.
  unfold parse_region, loads, bind. rewrite Hfail. reflexivity.
Qed.

End BalancedScanFacts.

(** C1 (the code departs from the claim).  On the text [{"a": 1,} ok] the
    scanner finds the region [{"a": 1,}], whose direct parse fails and
    which parses once cleaned; yet [_extract_balanced_json] calls the parser
    on the uncleaned region twice, never on the cleaned one, and gives
    nothing, and [extract_json] as a whole ends in the extraction error. *)
Theorem balanced_scan_skips_cleaned_parse :
  balanced_region Examples.trailing_comma_text "{"
  = Some Examples.trailing_comma_region
  /\ Json.loads Examples.trailing_comma_region = None
  /\ Json.loads (_clean_json_string Examples.trailing_comma_region)
     = Some (Json.JObj [(py "a", Json.JInt 1)])
  /\ _extract_balanced_json Json.loads Examples.trailing_comma_text "{"
     = (None, [Loads BalancedScan Examples.trailing_comma_region;
               Loads BalancedScan Examples.trailing_comma_region])
  /\ result (extract_json Json.loads Json.is_null Examples.trailing_comma_text)
     = Raised (extraction_failed Examples.trailing_comma_text).
Proof.
  assert (Hregion : balanced_region Examples.trailing_comma_text "{"
                    = Some Examples.trailing_comma_region) by reflexivity.
  assert (Hfail : Json.loads Examples.trailing_comma_region = None)
    by reflexivity.
  split; [exact Hregion|]. split; [exact Hfail|]. split; [reflexivity|].
  split; [exact (extract_balanced_unparsed Json.loads _ _ Hregion Hfail)|].
  vm_compute. reflexivity.
Qed.

(** ** The scanner against the state machine of the specification *)

Section ScannerFacts.

Import ScanSpec.

Variables opening closing : ascii.

Local Abbreviation step := (ScanSpec.step opening closing).
Local Abbreviation run := (ScanSpec.run opening closing).
Local Abbreviation closes := (ScanSpec.closes opening closing).
Local Abbreviation scan := (scan_loop opening closing (@Some nat) None).

(** One round of the loop is one step of the state machine, unless the
    character closes the region. *)
Lemma scan_loop_step d ins esc i c rest :
  scan d ins esc i (c :: rest)
  = if closes (mkScanState d ins esc) c then Some i
    else let st := step (mkScanState d ins esc) c in
         scan (depth st) (in_string st) (escaped st) (S i) rest.
Proof.
  unfold ScanSpec.closes, ScanSpec.step. cbn [scan_loop depth in_string escaped].
  destruct esc; [reflexivity|].
  destruct (Ascii.eqb c backslash); [reflexivity|].
  destruct (Ascii.eqb c quote); [reflexivity|].
  destruct ins; [reflexivity|].
  destruct (Ascii.eqb c opening); [reflexivity|].
  destruct (Ascii.eqb c closing); [|reflexivity].
  cbn [negb andb]. destruct (d - 1 =? 0)%Z; reflexivity.
Qed.

Lemma closes_depth st c : closes st c = true -> depth (step st c) = 0%Z.
Proof.
  unfold ScanSpec.closes, ScanSpec.step. destruct st as [d ins esc].
  cbn [depth in_string escaped].
  destruct esc; [discriminate|].
  destruct (Ascii.eqb c backslash); [discriminate|].
  destruct (Ascii.eqb c quote); [discriminate|].
  destruct ins; [discriminate|].
  destruct (Ascii.eqb c opening); [discriminate|].
  destruct (Ascii.eqb c closing); [|discriminate].
  cbn. intros H. apply Z.eqb_eq in H. exact H.
Qed.

Lemma open_depth st c :
  closes st c = false -> (1 <= depth st)%Z -> (1 <= depth (step st c))%Z.
Proof.
  unfold ScanSpec.closes, ScanSpec.step. destruct st as [d ins esc].
  cbn [depth in_string escaped].
  destruct esc; [auto|].
  destruct (Ascii.eqb c backslash); [auto|].
  destruct (Ascii.eqb c quote); [auto|].
  destruct ins; [auto|].
  destruct (Ascii.eqb c opening); [cbn; lia|].
  destruct (Ascii.eqb c closing); [|auto].
  cbn. intros H Hd. apply Z.eqb_neq in H. lia.
Qed.

(** From a state of positive depth the loop stops at the first character
    after which the depth is zero, and runs to the end of the text if there
    is none. *)
Lemma scan_loop_first_zero (rest : str) :
  forall d ins esc i,
    (1 <= d)%Z ->
    match scan d ins esc i rest with
    | Some j =>
        exists m, j = i + m /\ m < List.length rest
                  /\ depth (run (mkScanState d ins esc) (firstn (S m) rest))
                     = 0%Z
                  /\ forall k, k <= m ->
                       (1 <= depth (run (mkScanState d ins esc)
                                      (firstn k rest)))%Z
    | None =>
        forall k, (1 <= depth (run (mkScanState d ins esc) (firstn k rest)))%Z
    end.
Proof.
  induction rest as [|c rest' IH]; intros d ins esc i Hd.
  - cbn [scan_loop]. intros k. rewrite firstn_nil. exact Hd.
  - rewrite scan_loop_step.
    destruct (closes (mkScanState d ins esc) c) eqn:Hc.
    + exists 0. repeat split.
      * lia.
      * cbn; lia.
      * cbn. apply (closes_depth _ _ Hc).
      * intros k Hk. replace k with 0 by lia. exact Hd.
    + pose proof (open_depth _ _ Hc Hd) as Hd'.
      cbv zeta. set (st := step (mkScanState d ins esc) c) in *.
      specialize (IH (depth st) (in_string st) (escaped st) (S i) Hd').
      replace (mkScanState (depth st) (in_string st) (escaped st)) with st in IH
        by (destruct st; reflexivity).
      destruct (scan (depth st) (in_string st) (escaped st) (S i) rest')
        as [j|].
      * destruct IH as [m [Hj [Hm [Hz Hpos]]]].
        exists (S m). repeat split.
        -- lia.
        -- cbn; lia.
        -- exact Hz.
        -- intros k Hk. destruct k as [|k]; [exact Hd|].
           cbn [firstn]. apply Hpos. lia.
      * intros k. destruct k as [|k]; [exact Hd|]. apply IH.
Qed.

End ScannerFacts.

(** [find] of one character gives its first occurrence. *)
Lemma find_at_char (c : ascii) (s : str) :
  forall i j,
    find_at [c] i s = Some j ->
    exists m rest, j = i + m /\ skipn m s = c :: rest
                   /\ forall k, k < m -> nth_error s k <> Some c.
Proof.
  induction s as [|b s' IH]; intros i j; cbn [find_at startswith];
    [discriminate|].
  destruct (Ascii.eqb c b) eqn:E; cbn [andb].
  - intros H; injection H as <-. apply Ascii.eqb_eq in E as <-.
    exists 0, s'. repeat split; [lia | intros k Hk; lia].
  - intros H. apply IH in H as [m [rest [Hj [Hs Hfirst]]]].
    exists (S m), rest. repeat split; [lia | exact Hs |].
    intros k Hk. destruct k as [|k]; cbn.
    + intros Heq; injection Heq as ->. rewrite Ascii.eqb_refl in E. discriminate.
    + apply Hfirst. lia.
Qed.

Lemma find_char_first (c : ascii) (text : str) (start_idx : nat) :
  find [c] 0 text = Some start_idx ->
  exists rest, skipn start_idx text = c :: rest
               /\ forall k, k < start_idx -> nth_error text k <> Some c.
Proof.
  unfold find. cbn [Nat.ltb Nat.leb skipn]. intros H.
  apply find_at_char in H as [m [rest [Hj [Hs Hfirst]]]].
  cbn in Hj. subst m. eauto.
Qed.

Lemma opening_not_special (start_char : ascii) :
  start_char = "{"%char \/ start_char = "["%char ->
  ScanSpec.step start_char (end_char_of start_char) ScanSpec.initial start_char
  = ScanSpec.mkScanState 1 false false
  /\ ScanSpec.closes start_char (end_char_of start_char) ScanSpec.initial
       start_char = false.
Proof. intros [-> | ->]; split; reflexivity. Qed.

Lemma brackets_end_char (start_char closing : ascii) :
  In (start_char, closing) ScanSpec.brackets ->
  closing = end_char_of start_char
  /\ (start_char = "{"%char \/ start_char = "["%char).
Proof.
  intros [H | [H | []]]; injection H as <- <-; split; auto.
Qed.

(** The region that the loop of the scanner gets to, against the state
    machine of the specification. *)
Lemma balanced_region_spec (text : str) (start_char closing : ascii) :
  In (start_char, closing) ScanSpec.brackets ->
  match balanced_region text start_char with
  | Some region =>
      exists start_idx n,
        find [start_char] 0 text = Some start_idx
        /\ nth_error text start_idx = Some start_char
        /\ (forall k, k < start_idx -> nth_error text k <> Some start_char)
        /\ region = slice text start_idx (start_idx + n)
        /\ 2 <= n /\ start_idx + n <= List.length text
        /\ ScanSpec.depth_after start_char closing [] = 0%Z
        /\ ScanSpec.depth_after start_char closing region = 0%Z
        /\ forall k, 1 <= k < n ->
             (1 <= ScanSpec.depth_after start_char closing
                     (firstn k region))%Z
  | None =>
      find [start_char] 0 text = None
      \/ exists start_idx,
           find [start_char] 0 text = Some start_idx
           /\ forall k, 1 <= k ->
                (1 <= ScanSpec.depth_after start_char closing
                        (firstn k (skipn start_idx text)))%Z
  end.
Proof.
  intros Hin. destruct (brackets_end_char Hin) as [-> Hc].
  destruct (opening_not_special Hc) as [Hstep Hopen].
  unfold balanced_region.
  destruct (find [start_char] 0 text) as [start_idx|] eqn:Hfind; [|left; reflexivity].
  destruct (find_char_first _ _ Hfind) as [rest [Hskip Hfirst]].
  rewrite scan_loop_factor, Hskip, scan_loop_step.
  change (ScanSpec.mkScanState 0 false false) with ScanSpec.initial.
  rewrite Hopen, Hstep. cbv zeta. cbn [ScanSpec.depth ScanSpec.in_string ScanSpec.escaped].
  pose proof (@scan_loop_first_zero start_char (end_char_of start_char) rest
                1%Z false false (S start_idx) ltac:(lia)) as Hscan.
  assert (Hlen : List.length text = start_idx + S (List.length rest)).
  { rewrite <- (firstn_skipn start_idx text) at 1.
    rewrite length_app, Hskip. cbn [List.length].
    assert (start_idx <= List.length text).
    { destruct (Nat.le_gt_cases start_idx (List.length text)) as [H|H]; [exact H|].
      rewrite skipn_all2 in Hskip by lia. discriminate. }
    rewrite length_firstn. lia. }
  assert (Hrun : forall l,
             ScanSpec.depth_after start_char (end_char_of start_char)
               (start_char :: l)
             = ScanSpec.depth
                 (ScanSpec.run start_char (end_char_of start_char)
                    (ScanSpec.mkScanState 1 false false) l)).
  { intros l. unfold ScanSpec.depth_after, ScanSpec.run. cbn [fold_left].
    rewrite Hstep. reflexivity. }
  destruct (scan_loop start_char (end_char_of start_char) (@Some nat) None 1
              false false (S start_idx) rest) as [j|].
  - destruct Hscan as [m [Hj [Hm [Hz Hpos]]]].
    assert (Hregion : slice text start_idx (j + 1)
                      = start_char :: firstn (S m) rest).
    { unfold slice. rewrite Hskip.
      replace (j + 1 - start_idx) with (S (S m)) by lia. reflexivity. }
    exists start_idx, (S (S m)). repeat split.
    + rewrite <- (Nat.add_0_r start_idx), <- nth_error_skipn, Hskip. reflexivity.
    + exact Hfirst.
    + f_equal. lia.
    + lia.
    + lia.
    + rewrite Hregion, Hrun. exact Hz.
    + intros k [Hk1 Hk2]. rewrite Hregion.
      destruct k as [|k]; [lia|].
      change (firstn (S k) (start_char :: firstn (S m) rest))
        with (start_char :: firstn k (firstn (S m) rest)).
      rewrite Hrun, firstn_firstn. replace (Nat.min k (S m)) with k by lia.
      apply Hpos. lia.
  - right. exists start_idx. split; [reflexivity|].
    intros k Hk. rewrite Hskip. destruct k as [|k]; [lia|].
    cbn [firstn]. rewrite Hrun. apply Hscan.
Qed.

(** What [_extract_balanced_json] records and gives, by the region that its
    loop gets to. *)
Lemma extract_balanced_calls (V : Type) (json_loads : str -> option V)
  (text : str) (start_char : ascii) :
  match balanced_region text start_char with
  | Some region =>
      exists later,
        calls (_extract_balanced_json json_loads text start_char)
        = Loads BalancedScan region :: later
        /\ Forall (eq (Loads BalancedScan region)) later
        /\ result (_extract_balanced_json json_loads text start_char)
           = json_loads region
  | None => _extract_balanced_json json_loads text start_char = ret None
  end.
Proof.
  rewrite extract_balanced_by_region.
  destruct (balanced_region text start_char) as [region|]; [|reflexivity].
  unfold parse_region, loads, bind, ret, calls, result.
  destruct (json_loads region) as [v|] eqn:Hparse.
  - exists []. cbn. repeat split. constructor.
  - exists [Loads BalancedScan region]. cbn.
    repeat split. repeat constructor.
Qed.

(** C3.  For an opening character [{] or [[] with the closing character
    that matches it, [_extract_balanced_json] calls the parser only on one
    string, the region, and gives what the parser makes of it.  The region
    starts at the first occurrence of the opening character in the text and
    ends with the first character after which the depth of the
    specification's state machine is back at zero; the depth is zero before
    the region and after it, and at least one in between.  When no call is
    made the function gives [None], and the opening character does not
    occur or the depth never comes back to zero.  The state machine is the
    specification's: an escaped character is inert, a backslash escapes the
    next character only, an unescaped quote toggles the in-string flag, and
    the opening and closing characters move the depth outside strings only;
    so the braces inside the string of [{"a": "x{y}z"}] do not end the
    region early, and an escaped quote does not end a string. *)
Theorem extract_balanced_first_return_to_zero
  (V : Type) (json_loads : str -> option V)
  (text : str) (start_char closing : ascii) :
  In (start_char, closing) ScanSpec.brackets ->
  match calls (_extract_balanced_json json_loads text start_char) with
  | Loads site region :: later =>
      site = BalancedScan
      /\ Forall (eq (Loads BalancedScan region)) later
      /\ result (_extract_balanced_json json_loads text start_char)
         = json_loads region
      /\ exists start_idx n,
           find [start_char] 0 text = Some start_idx
           /\ nth_error text start_idx = Some start_char
           /\ (forall k, k < start_idx -> nth_error text k <> Some start_char)
           /\ region = slice text start_idx (start_idx + n)
           /\ 2 <= n /\ start_idx + n <= List.length text
           /\ ScanSpec.depth_after start_char closing [] = 0%Z
           /\ ScanSpec.depth_after start_char closing region = 0%Z
           /\ forall k, 1 <= k < n ->
                (1 <= ScanSpec.depth_after start_char closing
                        (firstn k region))%Z
  | [] =>
      result (_extract_balanced_json json_loads text start_char) = None
      /\ (find [start_char] 0 text = None
          \/ exists start_idx,
               find [start_char] 0 text = Some start_idx
               /\ forall k, 1 <= k ->
                    (1 <= ScanSpec.depth_after start_char closing
                            (firstn k (skipn start_idx text)))%Z)
  end
  /\ _extract_balanced_json Json.loads Examples.braces_in_string "{"
     = (Some (Json.JObj [(py "a", Json.JStr (py "x{y}z"))]),
        [Loads BalancedScan Examples.braces_in_string])
  /\ calls (_extract_balanced_json Json.loads Examples.escaped_quote_text "{")
     = [Loads BalancedScan Examples.escaped_quote_region].
Proof.
  intros Hin. split; [|split; vm_compute; reflexivity].
  pose proof (balanced_region_spec text Hin) as Hspec.
  pose proof (extract_balanced_calls json_loads text start_char) as Hcalls.
  destruct (balanced_region text start_char) as [region|].
  - destruct Hcalls as [later [-> [Hlater Hresult]]].
    split; [reflexivity|]. split; [exact Hlater|]. split; [exact Hresult|].
    exact Hspec.
  - rewrite Hcalls. split; [reflexivity | exact Hspec].
Qed.

(** The witness of C3: the scenario of the specification, with the
    reference parser. *)
Lemma extract_balanced_first_return_to_zero_witness :
  In ("{"%char, "}"%char) ScanSpec.brackets
  /\ calls (_extract_balanced_json Json.loads Examples.braces_in_string "{")
     = [Loads BalancedScan Examples.braces_in_string]
  /\ ScanSpec.depth_after "{" "}" Examples.braces_in_string = 0%Z
  /\ (match calls (_extract_balanced_json Json.loads
                     Examples.braces_in_string "{") with
      | Loads site region :: later =>
          site = BalancedScan
          /\ Forall (eq (Loads BalancedScan region)) later
          /\ result (_extract_balanced_json Json.loads
                       Examples.braces_in_string "{")
             = Json.loads region
          /\ exists start_idx n,
               find ["{"%char] 0 Examples.braces_in_string = Some start_idx
               /\ nth_error Examples.braces_in_string start_idx
                  = Some "{"%char
               /\ (forall k, k < start_idx ->
                     nth_error Examples.braces_in_string k <> Some "{"%char)
               /\ region
                  = slice Examples.braces_in_string start_idx (start_idx + n)
               /\ 2 <= n
               /\ start_idx + n <= List.length Examples.braces_in_string
               /\ ScanSpec.depth_after "{" "}" [] = 0%Z
               /\ ScanSpec.depth_after "{" "}" region = 0%Z
               /\ forall k, 1 <= k < n ->
                    (1 <= ScanSpec.depth_after "{" "}" (firstn k region))%Z
      | [] =>
          result (_extract_balanced_json Json.loads
                    Examples.braces_in_string "{") = None
          /\ (find ["{"%char] 0 Examples.braces_in_string = None
              \/ exists start_idx,
                   find ["{"%char] 0 Examples.braces_in_string
                   = Some start_idx
                   /\ forall k, 1 <= k ->
                        (1 <= ScanSpec.depth_after "{" "}"
                                (firstn k (skipn start_idx
                                             Examples.braces_in_string)))%Z)
      end
      /\ _extract_balanced_json Json.loads Examples.braces_in_string "{"
         = (Some (Json.JObj [(py "a", Json.JStr (py "x{y}z"))]),
            [Loads BalancedScan Examples.braces_in_string])
      /\ calls (_extract_balanced_json Json.loads
                  Examples.escaped_quote_text "{")
         = [Loads BalancedScan Examples.escaped_quote_region]).
Proof.
  split; [left; reflexivity|]. split; [reflexivity|]. split; [reflexivity|].
  apply (@extract_balanced_first_return_to_zero Json.value Json.loads
           Examples.braces_in_string "{"%char "}"%char).
  left; reflexivity.
Defined.

(** ** Exhaustion of the chain *)

Lemma calls_bind {A B} (m : Logged A) (k : A -> Logged B) :
  calls (bind m k) = calls m ++ calls (k (result m)).
Proof.
  unfold bind, calls, result. destruct m as [a l1]. cbn [fst snd].
  destruct (k a); reflexivity.
Qed.

Lemma result_bind {A B} (m : Logged A) (k : A -> Logged B) :
  result (bind m k) = result (k (result m)).
Proof.
  unfold bind, calls, result. destruct m as [a l1]. cbn [fst snd].
  destruct (k a); reflexivity.
Qed.

Section ExhaustionFacts.

Variable V : Type.
Variable json_loads : str -> option V.
Variable is_None : V -> bool.

Lemma quiet_ret : quiet json_loads (ret None).
Proof. intros _; reflexivity. Qed.

Lemma quiet_loads site s : quiet json_loads (loads json_loads site s).
Proof.
  unfold quiet, loads, calls, result. cbn [fst snd].
  intros H. apply Forall_inv in H. exact H.
Qed.

Lemma quiet_bind (m : Logged (option V)) (k : option V -> Logged (option V)) :
  quiet json_loads m -> quiet json_loads (k None) -> quiet json_loads (bind m k).
Proof.
  unfold quiet. intros Hm Hk H. rewrite calls_bind in H.
  apply Forall_app in H as [H1 H2]. rewrite result_bind.
  rewrite (Hm H1) in *. auto.
Qed.

Lemma quiet_parse_then_clean site s :
  quiet json_loads (parse_then_clean json_loads site s).
Proof.
  unfold parse_then_clean. apply quiet_bind; apply quiet_loads.
Qed.

Lemma quiet_extract_balanced text start_char :
  quiet json_loads (_extract_balanced_json json_loads text start_char).
Proof.
  rewrite extract_balanced_by_region.
  destruct (balanced_region text start_char); [|apply quiet_ret].
  unfold parse_region. apply quiet_bind; [apply quiet_loads|].
  apply quiet_bind; [apply quiet_loads | apply quiet_ret].
Qed.

Lemma quiet_for_start_chars body cs :
  (forall c, quiet json_loads (body c)) -> quiet json_loads (for_start_chars body cs).
Proof.
  intros Hbody. induction cs as [|c cs IH]; [apply quiet_ret|].
  cbn [for_start_chars]. apply quiet_bind; auto.
Qed.

Lemma quiet_later_strategies strat :
  In strat (later_strategies json_loads is_None) ->
  forall text, quiet json_loads (strat text).
Proof.
  intros [<- | [<- | [<- | [<- | []]]]] text.
  - unfold labeled_fence.
    repeat match goal with
           | |- quiet json_loads (if ?b then _ else _) => destruct b
           | |- quiet json_loads (match ?o with Some _ => _ | None => _ end) => destruct o
           end;
      (apply quiet_parse_then_clean || apply quiet_ret).
  - unfold generic_fence.
    destruct (contains fence text); [|apply quiet_ret].
    destruct (find fence 0 text); [|apply quiet_ret].
    match goal with
    | |- quiet json_loads (match ?o with Some _ => _ | None => _ end) => destruct o
    end; (apply quiet_parse_then_clean || apply quiet_ret).
  - unfold balanced_scan. apply quiet_for_start_chars. intros c.
    apply quiet_bind; [apply quiet_extract_balanced | apply quiet_ret].
  - unfold best_effort_suffix. apply quiet_for_start_chars. intros c.
    destruct (find [c] 0 text); [apply quiet_loads | apply quiet_ret].
Qed.

Lemma quiet_first_value strategies text :
  (forall strat, In strat strategies -> forall t, quiet json_loads (strat t)) ->
  quiet json_loads (first_value strategies text).
Proof.
  induction strategies as [|strat more IH]; intros H; [apply quiet_ret|].
  cbn [first_value]. apply quiet_bind.
  - apply H. left; reflexivity.
  - apply IH. intros s Hs. apply H. right; exact Hs.
Qed.

Lemma rstrip_prefix (s : str) : exists w, s = rstrip s ++ w.
Proof.
  induction s as [|c r [w IH]]; [exists []; reflexivity|].
  cbn [rstrip]. destruct (rstrip r) as [|d r'] eqn:E.
  - destruct (isspace c); [exists (c :: r) | exists r]; reflexivity.
  - exists w. cbn [app] in *. f_equal. exact IH.
Qed.

(** C8, as the code has it.  When the input is not blank and the parser
    rejects every string the chain hands to it, [extract_json] raises the
    error "Failed to extract valid JSON from response", which carries the
    first 300 characters of the text the strategies worked on: the input
    after white space and the recognised leading phrases were stripped.
    That excerpt is a prefix of the input itself when the input has no
    leading white space and no recognised leading phrase. *)
Theorem extract_json_exhausted (text : str) :
  forallb isspace text = false ->
  Forall (rejected json_loads) (calls (extract_json json_loads is_None text)) ->
  result (extract_json json_loads is_None text)
  = Raised (extraction_failed (normalized text))
  /\ extraction_failed (normalized text)
     = ValueError (failure_header ++ firstn 300 (normalized text) ++ py "...")
  /\ List.length (firstn 300 (normalized text)) <= 300
  /\ (lstrip text = text ->
      forallb (fun p => negb (leads (strip text) p)) common_prefixes = true ->
      Spec.carries_prefix_of (extraction_failed (normalized text)) text).
Proof.
  intros Hblank Hrej.
  assert (Hne : strip text <> []).
  { intros E. apply strip_nil_blank in E. congruence. }
  split; [|split; [reflexivity|split; [apply firstn_le_length|]]].
  - revert Hrej. unfold extract_json.
    destruct text as [|c r]; [discriminate|].
    destruct (strip (c :: r)) as [|c' r'] eqn:E; [congruence|].
    cbn [orb]. rewrite <- E. fold (normalized (c :: r)).
    intros Hrej. rewrite calls_bind in Hrej. apply Forall_app in Hrej as [H1 H2].
    rewrite result_bind. pose proof (quiet_loads H1) as Hd.
    rewrite Hd in *.
    rewrite calls_bind in H2. apply Forall_app in H2 as [H2 _].
    rewrite result_bind.
    rewrite (@quiet_first_value _ (normalized (c :: r))
               (@quiet_later_strategies) H2).
    reflexivity.
  - intros Hl Hnone.
    unfold normalized. rewrite (fold_strip_prefix_none _ _ Hnone).
    unfold strip. rewrite Hl.
    destruct (rstrip_prefix text) as [w Hw].
    exists (Nat.min 300 (List.length (rstrip text))). split; [lia|].
    unfold extraction_failed, slice. cbn [skipn]. rewrite Nat.sub_0_r.
    do 3 f_equal. rewrite Hw at 3.
    rewrite firstn_app.
    replace (Nat.min 300 (List.length (rstrip text)) - List.length (rstrip text))
      with 0 by lia.
    cbn [firstn]. rewrite app_nil_r, <- firstn_firstn.
    rewrite (firstn_all (rstrip text)). reflexivity.
Qed.

End ExhaustionFacts.

(** The witness of C8: plain prose. *)
Lemma extract_json_exhausted_witness :
  forallb isspace (py "hello world") = false
  /\ Forall (rejected Json.loads)
       (calls (extract_json Json.loads Json.is_null (py "hello world")))
  /\ (result (extract_json Json.loads Json.is_null (py "hello world"))
      = Raised (extraction_failed (normalized (py "hello world")))
      /\ extraction_failed (normalized (py "hello world"))
         = ValueError (failure_header
                       ++ firstn 300 (normalized (py "hello world"))
                       ++ py "...")
      /\ List.length (firstn 300 (normalized (py "hello world"))) <= 300
      /\ (lstrip (py "hello world") = py "hello world" ->
          forallb (fun p => negb (leads (strip (py "hello world")) p))
            common_prefixes = true ->
          Spec.carries_prefix_of
            (extraction_failed (normalized (py "hello world")))
            (py "hello world"))).
Proof.
  assert (Hcalls : Forall (rejected Json.loads)
            (calls (extract_json Json.loads Json.is_null (py "hello world")))).
  { change (calls (extract_json Json.loads Json.is_null (py "hello world")))
      with [Loads Direct (py "hello world")].
    constructor; [reflexivity | constructor]. }
  split; [reflexivity|]. split; [exact Hcalls|].
  apply (@extract_json_exhausted Json.value Json.loads Json.is_null
           (py "hello world")); [reflexivity | exact Hcalls].
Defined.

(** C8 as stated fails: for an input with a leading blank every strategy
    fails, and the error carries [hello], which is the start of the stripped
    text and not of the input. *)
Lemma exhausted_excerpt_not_of_input :
  forallb isspace (py " hello") = false
  /\ Forall (rejected Json.loads)
       (calls (extract_json Json.loads Json.is_null (py " hello")))
  /\ result (extract_json Json.loads Json.is_null (py " hello"))
     = Raised (ValueError (failure_header ++ py "hello" ++ py "..."))
  /\ ~ (exists e,
          result (extract_json Json.loads Json.is_null (py " hello"))
          = Raised e
          /\ Spec.carries_prefix_of e (py " hello")).
Proof.
  assert (Hres : result (extract_json Json.loads Json.is_null (py " hello"))
                 = Raised (ValueError (failure_header ++ py "hello" ++ py "...")))
    by (vm_compute; reflexivity).
  split; [reflexivity|]. split.
  { change (calls (extract_json Json.loads Json.is_null (py " hello")))
      with [Loads Direct (py "hello")].
    constructor; [reflexivity | constructor]. }
  split; [exact Hres|].
  intros [e [He [k [_ Hk]]]]. rewrite Hres in He. injection He as <-.
  injection Hk as Hk.
  destruct k as [|k]; cbn in Hk; discriminate.
Qed.

(** ** The cleaner *)

Lemma line_comments_no_slash (s : str) :
  has_slash s = false -> Re.sub_line_comments s = s.
Proof.
  unfold Re.sub_line_comments.
  induction s as [|c r IH]; [reflexivity|].
  cbn [has_slash existsb Re.line_comments]. intros H.
  apply orb_false_iff in H as [Hc Hr]. rewrite Hc. cbn [andb].
  destruct r as [|d r']; [reflexivity|]. f_equal. apply IH. exact Hr.
Qed.

Lemma block_comments_no_slash (s : str) :
  has_slash s = false -> Re.sub_block_comments s = s.
Proof.
  unfold Re.sub_block_comments.
  induction s as [|c r IH]; [reflexivity|].
  cbn [has_slash existsb Re.block_comments]. intros H.
  apply orb_false_iff in H as [Hc Hr]. rewrite Hc. cbn [andb].
  destruct r as [|d r']; [reflexivity|]. f_equal. apply IH. exact Hr.
Qed.

Lemma sub_trailing_comma_no_slash (s : str) :
  has_slash s = false -> has_slash (Re.sub_trailing_comma s) = false.
Proof.
  induction s as [|c r IH]; [reflexivity|].
  cbn [has_slash existsb Re.sub_trailing_comma]. intros H.
  apply orb_false_iff in H as [Hc Hr].
  destruct (Ascii.eqb c "," && Re.ws_closer_ahead r); [auto|].
  cbn [existsb]. rewrite Hc. cbn [orb]. auto.
Qed.

Lemma lstrip_no_slash (s : str) :
  has_slash s = false -> has_slash (lstrip s) = false.
Proof.
  induction s as [|c r IH]; [reflexivity|].
  cbn [lstrip]. destruct (isspace c); [|auto].
  cbn [has_slash existsb]. intros H. apply orb_false_iff in H as [_ Hr]. auto.
Qed.

Lemma rstrip_no_slash (s : str) :
  has_slash s = false -> has_slash (rstrip s) = false.
Proof.
  induction s as [|c r IH]; [reflexivity|].
  cbn [has_slash existsb rstrip]. intros H.
  apply orb_false_iff in H as [Hc Hr]. specialize (IH Hr).
  destruct (rstrip r) as [|d r'].
  - destruct (isspace c); [reflexivity|]. cbn. rewrite Hc. reflexivity.
  - cbn [has_slash existsb] in *. rewrite Hc. exact IH.
Qed.

Lemma strip_no_slash (s : str) :
  has_slash s = false -> has_slash (strip s) = false.
Proof. intros H. apply rstrip_no_slash, lstrip_no_slash, H. Qed.

Lemma sub_trailing_comma_fixed (s : str) :
  has_trailing_comma s = false -> Re.sub_trailing_comma s = s.
Proof.
  induction s as [|c r IH]; [reflexivity|].
  cbn [has_trailing_comma Re.sub_trailing_comma]. intros H.
  apply orb_false_iff in H as [Hc Hr]. rewrite Hc. f_equal. auto.
Qed.

(** A closer that shows up behind white space after the substitution was
    there before, or a removed comma stood in between. *)
Lemma ws_closer_after_sub (r : str) :
  Re.ws_closer_ahead (Re.sub_trailing_comma r) = true ->
  Re.ws_closer_ahead r = true \/ comma_ahead r = true.
Proof.
  induction r as [|d r' IH]; [discriminate|].
  cbn [Re.sub_trailing_comma Re.ws_closer_ahead comma_ahead].
  destruct (isspace d) eqn:Hd.
  - rewrite (space_not_comma _ Hd). cbn [andb Re.ws_closer_ahead].
    rewrite Hd. exact IH.
  - destruct (Ascii.eqb d ",") eqn:Hc; [auto|].
    cbn [andb Re.ws_closer_ahead]. rewrite Hd. auto.
Qed.

Lemma sub_trailing_comma_clears (s : str) :
  stacked_commas s = false ->
  has_trailing_comma (Re.sub_trailing_comma s) = false.
Proof.
  induction s as [|c r IH]; [reflexivity|].
  cbn [stacked_commas Re.sub_trailing_comma]. intros H.
  apply orb_false_iff in H as [Hc Hr]. specialize (IH Hr).
  destruct (Ascii.eqb c "," && Re.ws_closer_ahead r) eqn:E; [exact IH|].
  cbn [has_trailing_comma]. rewrite IH, orb_false_r.
  destruct (Ascii.eqb c ","); [|reflexivity]. cbn [andb] in *.
  destruct (Re.ws_closer_ahead (Re.sub_trailing_comma r)) eqn:E'; [|reflexivity].
  apply ws_closer_after_sub in E' as [E' | E']; congruence.
Qed.

Lemma lstrip_no_trailing_comma (s : str) :
  has_trailing_comma s = false -> has_trailing_comma (lstrip s) = false.
Proof.
  induction s as [|c r IH]; [reflexivity|].
  cbn [lstrip]. destruct (isspace c); [|auto].
  cbn [has_trailing_comma]. intros H. apply orb_false_iff in H as [_ Hr]. auto.
Qed.

Lemma ws_closer_after_rstrip (r : str) :
  Re.ws_closer_ahead (rstrip r) = true -> Re.ws_closer_ahead r = true.
Proof.
  induction r as [|d r' IH]; [discriminate|].
  cbn [rstrip Re.ws_closer_ahead].
  destruct (rstrip r') as [|x r''].
  - destruct (isspace d) eqn:Hd; [discriminate|].
    cbn [Re.ws_closer_ahead]. rewrite Hd. auto.
  - cbn [Re.ws_closer_ahead] in *. destruct (isspace d); auto.
Qed.

Lemma rstrip_no_trailing_comma (s : str) :
  has_trailing_comma s = false -> has_trailing_comma (rstrip s) = false.
Proof.
  induction s as [|c r IH]; [reflexivity|].
  cbn [has_trailing_comma]. intros H.
  apply orb_false_iff in H as [Hc Hr]. specialize (IH Hr).
  cbn [rstrip]. destruct (rstrip r) as [|d r'] eqn:E.
  - destruct (isspace c); [reflexivity|]. cbn. rewrite andb_false_r. reflexivity.
  - cbn [has_trailing_comma] in *. rewrite IH, orb_false_r.
    destruct (Ascii.eqb c ","); [|reflexivity]. cbn [andb] in *.
    destruct (Re.ws_closer_ahead (d :: r')) eqn:E'; [|reflexivity].
    rewrite <- E in E'. apply ws_closer_after_rstrip in E'. congruence.
Qed.

Lemma clean_no_slash (s : str) :
  has_slash s = false ->
  _clean_json_string s = strip (Re.sub_trailing_comma s).
Proof.
  intros H. unfold _clean_json_string.
  pose proof (sub_trailing_comma_no_slash _ H) as H'.
  rewrite (line_comments_no_slash _ H'), (block_comments_no_slash _ H').
  reflexivity.
Qed.

Lemma lstrip_suffix (s : str) : exists w, s = w ++ lstrip s.
Proof.
  induction s as [|c r [w IH]]; [exists []; reflexivity|].
  cbn [lstrip]. destruct (isspace c).
  - exists (c :: w). cbn. congruence.
  - exists []. reflexivity.
Qed.

Lemma subsequence_refl (s : str) : subsequence s s.
Proof. induction s; constructor; assumption. Qed.

Lemma subsequence_trans (a b c : str) :
  subsequence a b -> subsequence b c -> subsequence a c.
Proof.
  intros Hab Hbc. revert a Hab.
  induction Hbc as [|x b c Hbc IH|x b c Hbc IH]; intros a Hab.
  - exact Hab.
  - constructor. apply IH. exact Hab.
  - inversion Hab; subst.
    + constructor. apply IH. assumption.
    + apply subsequence_keep. apply IH. assumption.
Qed.

Lemma subsequence_length (a b : str) :
  subsequence a b -> List.length a <= List.length b.
Proof. induction 1; cbn; lia. Qed.

Lemma subsequence_nil_l (s : str) : subsequence [] s.
Proof. induction s; constructor; assumption. Qed.

Lemma sub_trailing_comma_deletes (s : str) :
  subsequence (Re.sub_trailing_comma s) s.
Proof.
  induction s as [|c r IH]; [constructor|].
  cbn [Re.sub_trailing_comma].
  destruct (Ascii.eqb c "," && Re.ws_closer_ahead r);
    [apply subsequence_skip | apply subsequence_keep]; exact IH.
Qed.

Lemma line_comments_deletes (s : str) :
  forall b, subsequence (Re.line_comments b s) s.
Proof.
  assert (H : forall n s, List.length s <= n ->
                          forall b, subsequence (Re.line_comments b s) s).
  { induction n as [|n IH]; intros [|c r] Hlen b; cbn [List.length] in Hlen;
      try lia; try (cbn; constructor; fail).
    cbn [Re.line_comments]. destruct b.
    - destruct (Ascii.eqb c newline);
        [apply subsequence_keep | apply subsequence_skip]; apply IH; lia.
    - destruct r as [|d r']; [apply subsequence_refl|].
      destruct (Ascii.eqb c "/" && Ascii.eqb d "/").
      + do 2 apply subsequence_skip. apply IH. cbn [List.length] in Hlen. lia.
      + apply subsequence_keep. apply IH. lia. }
  intros b. apply (H (List.length s)). lia.
Qed.

Lemma block_comments_deletes (s : str) :
  forall b, subsequence (Re.block_comments b s) s.
Proof.
  assert (H : forall n s, List.length s <= n ->
                          forall b, subsequence (Re.block_comments b s) s).
  { induction n as [|n IH]; intros [|c r] Hlen b; cbn [List.length] in Hlen;
      try lia; try (cbn; constructor; fail).
    cbn [Re.block_comments]. destruct r as [|d r'].
    - destruct b; [apply subsequence_nil_l | apply subsequence_refl].
    - cbn [List.length] in Hlen. destruct b.
      + destruct (Ascii.eqb c "*" && Ascii.eqb d "/").
        * do 2 apply subsequence_skip. apply IH. lia.
        * apply subsequence_skip. apply IH. cbn [List.length]. lia.
      + destruct (Ascii.eqb c "/" && Ascii.eqb d "*" && Re.has_block_end r').
        * do 2 apply subsequence_skip. apply IH. lia.
        * apply subsequence_keep. apply IH. cbn [List.length]. lia. }
  intros b. apply (H (List.length s)). lia.
Qed.

Lemma lstrip_deletes (s : str) : subsequence (lstrip s) s.
Proof.
  induction s as [|c r IH]; [constructor|].
  cbn [lstrip]. destruct (isspace c); [apply subsequence_skip; exact IH|].
  apply subsequence_refl.
Qed.

Lemma rstrip_deletes (s : str) : subsequence (rstrip s) s.
Proof.
  induction s as [|c r IH]; [constructor|].
  cbn [rstrip]. destruct (rstrip r) as [|d r'].
  - destruct (isspace c); [apply subsequence_nil_l|].
    apply subsequence_keep. exact IH.
  - apply subsequence_keep. exact IH.
Qed.

Lemma subsequence_same_length (a b : str) :
  subsequence a b -> List.length a = List.length b -> a = b.
Proof.
  induction 1 as [|c a b H IH|c a b H IH]; cbn; intros Hlen.
  - reflexivity.
  - apply subsequence_length in H. lia.
  - f_equal. apply IH. lia.
Qed.

Lemma sub_line_comments_fixed (s : str) :
  has_line_comment s = false -> Re.sub_line_comments s = s.
Proof.
  unfold Re.sub_line_comments.
  induction s as [|c r IH]; [reflexivity|].
  cbn [Re.line_comments]. destruct r as [|d r']; [reflexivity|].
  cbn [has_line_comment]. intros H. apply orb_false_iff in H as [Hc Hr].
  rewrite Hc. f_equal. apply IH. exact Hr.
Qed.

Lemma sub_block_comments_fixed (s : str) :
  has_block_comment s = false -> Re.sub_block_comments s = s.
Proof.
  unfold Re.sub_block_comments.
  induction s as [|c r IH]; [reflexivity|].
  cbn [Re.block_comments]. destruct r as [|d r']; [reflexivity|].
  cbn [has_block_comment]. intros H. apply orb_false_iff in H as [Hc Hr].
  rewrite Hc. f_equal. apply IH. exact Hr.
Qed.

Lemma sub_trailing_comma_shrinks (s : str) :
  has_trailing_comma s = true ->
  List.length (Re.sub_trailing_comma s) < List.length s.
Proof.
  induction s as [|c r IH]; [discriminate|].
  cbn [has_trailing_comma Re.sub_trailing_comma].
  pose proof (subsequence_length (sub_trailing_comma_deletes r)) as Hle.
  destruct (Ascii.eqb c "," && Re.ws_closer_ahead r); cbn [orb List.length].
  - intros _. lia.
  - intros H. apply IH in H. lia.
Qed.

Lemma sub_line_comments_shrinks (s : str) :
  has_line_comment s = true ->
  List.length (Re.sub_line_comments s) < List.length s.
Proof.
  unfold Re.sub_line_comments.
  induction s as [|c r IH]; [discriminate|].
  cbn [Re.line_comments]. destruct r as [|d r']; [discriminate|].
  cbn [has_line_comment].
  destruct (Ascii.eqb c "/" && Ascii.eqb d "/"); cbn [orb].
  - intros _.
    pose proof (subsequence_length (line_comments_deletes r' true)).
    cbn [List.length]. lia.
  - intros H. apply IH in H. cbn [List.length] in *. lia.
Qed.

Lemma sub_block_comments_shrinks (s : str) :
  has_block_comment s = true ->
  List.length (Re.sub_block_comments s) < List.length s.
Proof.
  unfold Re.sub_block_comments.
  induction s as [|c r IH]; [discriminate|].
  cbn [Re.block_comments]. destruct r as [|d r']; [discriminate|].
  cbn [has_block_comment].
  destruct (Ascii.eqb c "/" && Ascii.eqb d "*" && Re.has_block_end r');
    cbn [orb].
  - intros _.
    pose proof (subsequence_length (block_comments_deletes r' true)).
    cbn [List.length]. lia.
  - intros H. apply IH in H. cbn [List.length] in *. lia.
Qed.

(** No [//] is left by the second substitution. *)
Lemma has_line_comment_cons (c : ascii) (s : str) :
  has_line_comment s = true -> has_line_comment (c :: s) = true.
Proof.
  destruct s as [|d r]; [discriminate|]. intros H.
  change (has_line_comment (c :: d :: r))
    with ((Ascii.eqb c "/" && Ascii.eqb d "/")%char || has_line_comment (d :: r)).
  rewrite H. apply orb_true_r.
Qed.

Lemma has_line_comment_other (c : ascii) (s : str) :
  Ascii.eqb c "/" = false -> has_line_comment (c :: s) = has_line_comment s.
Proof.
  intros Hc. destruct s as [|d r]; [reflexivity|].
  change (has_line_comment (c :: d :: r))
    with ((Ascii.eqb c "/" && Ascii.eqb d "/")%char || has_line_comment (d :: r)).
  rewrite Hc. reflexivity.
Qed.

Lemma line_comments_keep (d : ascii) (r : str) :
  Ascii.eqb d "/" = false ->
  Re.line_comments false (d :: r) = d :: Re.line_comments false r.
Proof.
  intros Hd. cbn [Re.line_comments]. destruct r as [|d' r']; [reflexivity|].
  rewrite Hd. reflexivity.
Qed.

Lemma line_comments_clears (s : str) :
  forall b, has_line_comment (Re.line_comments b s) = false.
Proof.
  assert (H : forall n s, List.length s <= n ->
                forall b, has_line_comment (Re.line_comments b s) = false).
  { induction n as [|n IH]; intros [|c r] Hlen b; cbn [List.length] in Hlen;
      try lia; try reflexivity.
    cbn [Re.line_comments]. destruct b.
    - destruct (Ascii.eqb c newline) eqn:Hnl.
      + rewrite has_line_comment_other.
        * apply IH. lia.
        * apply Ascii.eqb_eq in Hnl. subst c. reflexivity.
      + apply IH. lia.
    - destruct r as [|d r']; [reflexivity|]. cbn [List.length] in Hlen.
      destruct (Ascii.eqb c "/") eqn:Hc; cbn [andb].
      + destruct (Ascii.eqb d "/") eqn:Hd.
        * apply IH. lia.
        * pose proof (IH (d :: r') ltac:(cbn [List.length]; lia) false) as Hr.
          rewrite (@line_comments_keep d r' Hd) in *.
          change (has_line_comment (c :: d :: Re.line_comments false r'))
            with ((Ascii.eqb c "/" && Ascii.eqb d "/")%char
                  || has_line_comment (d :: Re.line_comments false r')).
          rewrite Hd, andb_false_r. exact Hr.
      + rewrite (@has_line_comment_other c _ Hc). apply IH. cbn [List.length]. lia. }
  intros b. apply (H (List.length s)). lia.
Qed.

(** Nor by the third, which leaves no closed block comment either. *)
Lemma has_block_end_cons (c : ascii) (s : str) :
  Re.has_block_end s = true -> Re.has_block_end (c :: s) = true.
Proof.
  destruct s as [|d r]; [discriminate|]. intros H.
  change (Re.has_block_end (c :: d :: r))
    with ((Ascii.eqb c "*" && Ascii.eqb d "/")%char || Re.has_block_end (d :: r)).
  rewrite H. apply orb_true_r.
Qed.

Lemma has_block_comment_cons (c : ascii) (s : str) :
  has_block_comment s = true -> has_block_comment (c :: s) = true.
Proof.
  destruct s as [|d r]; [discriminate|]. intros H.
  change (has_block_comment (c :: d :: r))
    with ((Ascii.eqb c "/" && Ascii.eqb d "*")%char && Re.has_block_end r
          || has_block_comment (d :: r)).
  rewrite H. apply orb_true_r.
Qed.

Lemma has_block_comment_other (c : ascii) (s : str) :
  Ascii.eqb c "/" = false -> has_block_comment (c :: s) = has_block_comment s.
Proof.
  intros Hc. destruct s as [|d r]; [reflexivity|].
  change (has_block_comment (c :: d :: r))
    with ((Ascii.eqb c "/" && Ascii.eqb d "*")%char && Re.has_block_end r
          || has_block_comment (d :: r)).
  rewrite Hc. reflexivity.
Qed.

Lemma no_block_end_no_comment (s : str) :
  Re.has_block_end s = false -> has_block_comment s = false.
Proof.
  induction s as [|c r IH]; [reflexivity|]. intros H.
  destruct r as [|d r']; [reflexivity|].
  assert (Hr : Re.has_block_end (d :: r') = false).
  { destruct (Re.has_block_end (d :: r')) eqn:E; [|reflexivity].
    rewrite (has_block_end_cons c _ E) in H. discriminate. }
  assert (Hr' : Re.has_block_end r' = false).
  { destruct (Re.has_block_end r') eqn:E; [|reflexivity].
    rewrite (has_block_end_cons d _ E) in Hr. discriminate. }
  change (has_block_comment (c :: d :: r'))
    with ((Ascii.eqb c "/" && Ascii.eqb d "*")%char && Re.has_block_end r'
          || has_block_comment (d :: r')).
  rewrite Hr', andb_false_r. apply IH. exact Hr.
Qed.

Lemma block_comments_keep (d : ascii) (r : str) :
  Ascii.eqb d "/" = false ->
  Re.block_comments false (d :: r) = d :: Re.block_comments false r.
Proof.
  intros Hd. cbn [Re.block_comments]. destruct r as [|d' r']; [reflexivity|].
  rewrite Hd. reflexivity.
Qed.

Lemma has_line_comment_tail (c : ascii) (s : str) :
  has_line_comment (c :: s) = false -> has_line_comment s = false.
Proof.
  intros H. destruct (has_line_comment s) eqn:E; [|reflexivity].
  rewrite (has_line_comment_cons c _ E) in H. discriminate.
Qed.

Lemma block_comments_clears (s : str) :
  forall b,
    has_line_comment s = false ->
    has_line_comment (Re.block_comments b s) = false
    /\ has_block_comment (Re.block_comments b s) = false.
Proof.
  assert (H : forall n s, List.length s <= n ->
                forall b,
                  has_line_comment s = false ->
                  has_line_comment (Re.block_comments b s) = false
                  /\ has_block_comment (Re.block_comments b s) = false).
  { induction n as [|n IH]; intros [|c r] Hlen b Hs; cbn [List.length] in Hlen;
      try lia; try (split; reflexivity).
    pose proof (has_line_comment_tail _ _ Hs) as Hr.
    cbn [Re.block_comments]. destruct r as [|d r'].
    { destruct b; split; reflexivity. }
    pose proof (has_line_comment_tail _ _ Hr) as Hr'.
    cbn [List.length] in Hlen.
    destruct b.
    - destruct (Ascii.eqb c "*" && Ascii.eqb d "/").
      + apply IH; [lia | exact Hr'].
      + apply IH; [cbn [List.length]; lia | exact Hr].
    - destruct (Ascii.eqb c "/") eqn:Hc; cbn [andb].
      + assert (Hd : Ascii.eqb d "/" = false).
        { change (has_line_comment (c :: d :: r'))
            with ((Ascii.eqb c "/" && Ascii.eqb d "/")%char
                  || has_line_comment (d :: r')) in Hs.
          rewrite Hc in Hs. apply orb_false_iff in Hs as [Hs _]. exact Hs. }
        destruct (Ascii.eqb d "*" && Re.has_block_end r') eqn:Hcomment.
        * apply IH; [lia | exact Hr'].
        * destruct (IH (d :: r') ltac:(cbn [List.length]; lia) false Hr)
            as [Hl Hb].
          rewrite (@block_comments_keep d r' Hd) in *.
          split.
          -- change (has_line_comment (c :: d :: Re.block_comments false r'))
               with ((Ascii.eqb c "/" && Ascii.eqb d "/")%char
                     || has_line_comment (d :: Re.block_comments false r')).
             rewrite Hd, andb_false_r. exact Hl.
          -- change (has_block_comment (c :: d :: Re.block_comments false r'))
               with ((Ascii.eqb c "/" && Ascii.eqb d "*")%char
                     && Re.has_block_end (Re.block_comments false r')
                     || has_block_comment (d :: Re.block_comments false r')).
             rewrite Hb, orb_false_r.
             destruct (Ascii.eqb d "*"); [|rewrite andb_false_r; reflexivity].
             cbn [andb] in Hcomment.
             pose proof (sub_block_comments_fixed _
                           (no_block_end_no_comment _ Hcomment)) as Hfix.
             unfold Re.sub_block_comments in Hfix.
             rewrite Hfix, Hcomment. apply andb_false_r.
      + destruct (IH (d :: r') ltac:(cbn [List.length]; lia) false Hr)
          as [Hl Hb].
        rewrite (@has_line_comment_other c _ Hc), (@has_block_comment_other c _ Hc).
        split; assumption. }
  intros b. apply (H (List.length s)). lia.
Qed.

(** Stripping brings in no comment. *)
Lemma has_line_comment_app_l (w s : str) :
  has_line_comment s = true -> has_line_comment (w ++ s) = true.
Proof.
  intros H. induction w as [|c w IH]; [exact H|].
  cbn [app]. apply has_line_comment_cons, IH.
Qed.

Lemma has_block_comment_app_l (w s : str) :
  has_block_comment s = true -> has_block_comment (w ++ s) = true.
Proof.
  intros H. induction w as [|c w IH]; [exact H|].
  cbn [app]. apply has_block_comment_cons, IH.
Qed.

Lemma has_line_comment_app_r (s w : str) :
  has_line_comment s = true -> has_line_comment (s ++ w) = true.
Proof.
  induction s as [|c r IH]; [discriminate|].
  destruct r as [|d r']; [discriminate|].
  change (has_line_comment (c :: d :: r'))
    with ((Ascii.eqb c "/" && Ascii.eqb d "/")%char || has_line_comment (d :: r')).
  change (has_line_comment ((c :: d :: r') ++ w))
    with ((Ascii.eqb c "/" && Ascii.eqb d "/")%char
          || has_line_comment ((d :: r') ++ w)).
  intros H. apply orb_true_iff in H as [H | H].
  - rewrite H. reflexivity.
  - rewrite (IH H). apply orb_true_r.
Qed.

Lemma has_block_end_app_r (s w : str) :
  Re.has_block_end s = true -> Re.has_block_end (s ++ w) = true.
Proof.
  induction s as [|c r IH]; [discriminate|].
  destruct r as [|d r']; [discriminate|].
  change (Re.has_block_end (c :: d :: r'))
    with ((Ascii.eqb c "*" && Ascii.eqb d "/")%char || Re.has_block_end (d :: r')).
  change (Re.has_block_end ((c :: d :: r') ++ w))
    with ((Ascii.eqb c "*" && Ascii.eqb d "/")%char
          || Re.has_block_end ((d :: r') ++ w)).
  intros H. apply orb_true_iff in H as [H | H].
  - rewrite H. reflexivity.
  - rewrite (IH H). apply orb_true_r.
Qed.

Lemma has_block_comment_app_r (s w : str) :
  has_block_comment s = true -> has_block_comment (s ++ w) = true.
Proof.
  induction s as [|c r IH]; [discriminate|].
  destruct r as [|d r']; [discriminate|].
  change (has_block_comment (c :: d :: r'))
    with ((Ascii.eqb c "/" && Ascii.eqb d "*")%char && Re.has_block_end r'
          || has_block_comment (d :: r')).
  change (has_block_comment ((c :: d :: r') ++ w))
    with ((Ascii.eqb c "/" && Ascii.eqb d "*")%char
          && Re.has_block_end (r' ++ w)
          || has_block_comment ((d :: r') ++ w)).
  intros H. apply orb_true_iff in H as [H | H].
  - apply andb_true_iff in H as [H1 H2].
    rewrite H1, (has_block_end_app_r _ w H2). reflexivity.
  - rewrite (IH H). apply orb_true_r.
Qed.

Lemma strip_no_comment (s : str) :
  has_line_comment s = false -> has_block_comment s = false ->
  has_line_comment (strip s) = false /\ has_block_comment (strip s) = false.
Proof.
  intros Hl Hb. unfold strip.
  destruct (lstrip_suffix s) as [w Hw].
  destruct (rstrip_prefix (lstrip s)) as [w' Hw'].
  split.
  - destruct (has_line_comment (rstrip (lstrip s))) eqn:E; [|reflexivity].
    apply (has_line_comment_app_r _ w') in E. rewrite <- Hw' in E.
    apply (has_line_comment_app_l w) in E. rewrite <- Hw in E. congruence.
  - destruct (has_block_comment (rstrip (lstrip s))) eqn:E; [|reflexivity].
    apply (has_block_comment_app_r _ w') in E. rewrite <- Hw' in E.
    apply (has_block_comment_app_l w) in E. rewrite <- Hw in E. congruence.
Qed.

(** One run of the cleaner leaves no comment behind. *)
Lemma clean_no_comment (s : str) :
  has_line_comment (_clean_json_string s) = false
  /\ has_block_comment (_clean_json_string s) = false.
Proof.
  unfold _clean_json_string.
  pose proof (line_comments_clears (Re.sub_trailing_comma s) false) as Hl.
  destruct (@block_comments_clears _ false Hl) as [Hl' Hb'].
  apply strip_no_comment; assumption.
Qed.

Lemma strip_deletes (s : str) : subsequence (strip s) s.
Proof.
  unfold strip. eapply subsequence_trans; [apply rstrip_deletes|].
  apply lstrip_deletes.
Qed.

(** The texts that the cleaner leaves as they are. *)
Lemma clean_fixed_iff (s : str) :
  _clean_json_string s = s
  <-> has_trailing_comma s = false
      /\ has_line_comment s = false
      /\ has_block_comment s = false
      /\ strip s = s.
Proof.
  split.
  - intros Hfix.
    pose proof (subsequence_length (sub_trailing_comma_deletes s)) as H1.
    pose proof (subsequence_length
                  (line_comments_deletes (Re.sub_trailing_comma s) false)) as H2.
    pose proof (subsequence_length
                  (block_comments_deletes
                     (Re.sub_line_comments (Re.sub_trailing_comma s)) false))
      as H3.
    pose proof (subsequence_length
                  (strip_deletes
                     (Re.sub_block_comments
                        (Re.sub_line_comments (Re.sub_trailing_comma s)))))
      as H4.
    assert (Hlen : List.length (_clean_json_string s) = List.length s)
      by (rewrite Hfix; reflexivity).
    unfold _clean_json_string in Hfix, Hlen.
    unfold Re.sub_line_comments, Re.sub_block_comments in *.
    assert (E1 : Re.sub_trailing_comma s = s).
    { apply subsequence_same_length; [apply sub_trailing_comma_deletes | lia]. }
    rewrite E1 in *.
    assert (E2 : Re.line_comments false s = s).
    { apply subsequence_same_length; [apply line_comments_deletes | lia]. }
    rewrite E2 in *.
    assert (E3 : Re.block_comments false s = s).
    { apply subsequence_same_length; [apply block_comments_deletes | lia]. }
    rewrite E3 in *.
    repeat split.
    + destruct (has_trailing_comma s) eqn:E; [|reflexivity].
      apply sub_trailing_comma_shrinks in E. rewrite E1 in E. lia.
    + destruct (has_line_comment s) eqn:E; [|reflexivity].
      apply sub_line_comments_shrinks in E.
      unfold Re.sub_line_comments in E. rewrite E2 in E. lia.
    + destruct (has_block_comment s) eqn:E; [|reflexivity].
      apply sub_block_comments_shrinks in E.
      unfold Re.sub_block_comments in E. rewrite E3 in E. lia.
    + exact Hfix.
  - intros [Hc [Hl [Hb Hs]]]. unfold _clean_json_string.
    rewrite (sub_trailing_comma_fixed _ Hc), (sub_line_comments_fixed _ Hl),
      (sub_block_comments_fixed _ Hb). exact Hs.
Qed.

(** A second run changes the text exactly when the first one left a comma
    before a closer. *)
Lemma clean_twice_iff (s : str) :
  _clean_json_string (_clean_json_string s) = _clean_json_string s
  <-> has_trailing_comma (_clean_json_string s) = false.
Proof.
  rewrite clean_fixed_iff.
  destruct (clean_no_comment s) as [Hl Hb].
  split; [intros [H _]; exact H|].
  intros H. repeat split; try assumption.
  unfold _clean_json_string. apply strip_idem.
Qed.

(** Without [/] and without stacked commas one run is enough. *)
Lemma clean_idempotent_plain (s : str) :
  has_slash s = false ->
  stacked_commas s = false ->
  _clean_json_string (_clean_json_string s) = _clean_json_string s
  /\ _clean_json_string s = strip (Re.sub_trailing_comma s).
Proof.
  intros Hslash Hstack.
  pose proof (clean_no_slash _ Hslash) as Hclean.
  split; [|exact Hclean].
  rewrite Hclean.
  assert (Hs : has_slash (strip (Re.sub_trailing_comma s)) = false)
    by (apply strip_no_slash, sub_trailing_comma_no_slash, Hslash).
  assert (Hc : has_trailing_comma (strip (Re.sub_trailing_comma s)) = false).
  { apply rstrip_no_trailing_comma, lstrip_no_trailing_comma,
      sub_trailing_comma_clears, Hstack. }
  rewrite (clean_no_slash _ Hs), (sub_trailing_comma_fixed _ Hc).
  apply strip_idem.
Qed.

(** C4, as the code has it.  One run of the cleaner removes every [//]
    comment and every closed block comment and strips, but it can leave a
    comma before a closer: a second run gives the same text exactly when
    the first run left no such comma.  That is so, in particular, for a
    text without [/] in which no comma is followed, white space apart, by
    another comma; there the cleaner removes the trailing commas and
    strips.  The texts that the cleaner leaves as they are ("already
    clean") are exactly those with no comma before a closer, no [//], no
    closed block comment and no white space around them. *)
Theorem clean_idempotent_exactly (s : str) :
  (_clean_json_string (_clean_json_string s) = _clean_json_string s
   <-> has_trailing_comma (_clean_json_string s) = false)
  /\ (_clean_json_string s = s
      <-> has_trailing_comma s = false
          /\ has_line_comment s = false
          /\ has_block_comment s = false
          /\ strip s = s)
  /\ has_line_comment (_clean_json_string s) = false
  /\ has_block_comment (_clean_json_string s) = false
  /\ strip (_clean_json_string s) = _clean_json_string s
  /\ (has_slash s = false -> stacked_commas s = false ->
      _clean_json_string (_clean_json_string s) = _clean_json_string s
      /\ _clean_json_string s = strip (Re.sub_trailing_comma s))
  /\ _clean_json_string (py "[1,,2]") = py "[1,,2]"
  /\ _clean_json_string (py "[1, 2] // note") = py "[1, 2]"
  /\ _clean_json_string (_clean_json_string (py "[1, 2] // note"))
     = _clean_json_string (py "[1, 2] // note")
  /\ _clean_json_string
       (_clean_json_string (_clean_json_string Examples.comma_before_comment))
     = _clean_json_string (_clean_json_string Examples.comma_before_comment).
Proof.
  split; [apply clean_twice_iff|]. split; [apply clean_fixed_iff|].
  split; [apply clean_no_comment|]. split; [apply clean_no_comment|].
  split; [unfold _clean_json_string; apply strip_idem|].
  split; [apply clean_idempotent_plain|].
  repeat split; vm_compute; reflexivity.
Qed.

(** The witness of C4: an object that needs two commas removed, on which
    one run is enough, and an array with two commas before its closer, on
    which it is not. *)
Lemma clean_idempotent_exactly_witness :
  has_slash Examples.two_trailing_commas = false
  /\ stacked_commas Examples.two_trailing_commas = false
  /\ has_trailing_comma (_clean_json_string Examples.two_trailing_commas)
     = false
  /\ _clean_json_string (_clean_json_string Examples.two_trailing_commas)
     = _clean_json_string Examples.two_trailing_commas
  /\ has_trailing_comma (_clean_json_string (py "[1, 2,,]")) = true
  /\ _clean_json_string (_clean_json_string (py "[1, 2,,]"))
     <> _clean_json_string (py "[1, 2,,]").
Proof.
  pose proof (clean_idempotent_exactly Examples.two_trailing_commas)
    as [Hone _].
  pose proof (clean_idempotent_exactly (py "[1, 2,,]")) as [Htwo _].
  split; [reflexivity|]. split; [reflexivity|]. split; [reflexivity|].
  split; [apply Hone; reflexivity|]. split; [reflexivity|].
  intros H. apply Htwo in H. vm_compute in H. discriminate.
Defined.

(** C4 as stated fails.  Of two commas before a closer one pass removes
    the second only, and the next pass the first; and a comma that a
    comment separates from the closer is removed only once the comment is
    gone, on the second pass. *)
Lemma clean_not_idempotent :
  _clean_json_string (py "[1, 2,,]") = py "[1, 2,]"
  /\ _clean_json_string (_clean_json_string (py "[1, 2,,]")) = py "[1, 2]"
  /\ _clean_json_string (_clean_json_string (py "[1, 2,,]"))
     <> _clean_json_string (py "[1, 2,,]")
  /\ _clean_json_string (_clean_json_string Examples.comma_before_comment)
     <> _clean_json_string Examples.comma_before_comment.
Proof.
  split; [reflexivity|]. split; [reflexivity|].
  split; vm_compute; discriminate.
Qed.

(** * Further properties of the code *)

(** ** The retry loop against any backend *)

Lemma attempts_from_range (n : Z) : range n = attempts_from 0 (Z.to_nat n).
Proof. reflexivity. Qed.

Lemma attempts_from_cons (a n : nat) :
  attempts_from a (S n) = Z.of_nat a :: attempts_from (S a) n.
Proof. reflexivity. Qed.

Lemma total_backoff (j : nat) :
  total (map Spec.backoff (attempts_from 0 j)) = (2 ^ Z.of_nat j - 1)%Z.
Proof.
  unfold attempts_from. induction j as [|j IH]; [reflexivity|].
  rewrite seq_S, !map_app. unfold total in *. rewrite fold_right_app.
  cbn [map fold_right Nat.add].
  assert (Hacc : forall (l : list Z) (z : Z),
             fold_right Z.add z l = (fold_right Z.add 0 l + z)%Z).
  { induction l as [|x l IHl]; intros z; cbn [fold_right]; [lia|].
    rewrite IHl. lia. }
  rewrite Hacc, IH. unfold Spec.backoff.
  rewrite Nat2Z.inj_succ, Z.pow_succ_r by lia. lia.
Qed.

Section RetryFacts.

Variables Message Temperature : Type.
Variable completion : Z -> Kwargs Message Temperature -> outcome Response.
Variable completion_stream :
  Z -> Kwargs Message Temperature -> outcome Stream.

Local Abbreviation attempt := (attempt_once completion completion_stream).
Local Abbreviation loop := (retry_loop completion completion_stream).
Local Abbreviation chat := (chat_completion completion completion_stream).
Local Abbreviation kwargs := (Kwargs Message Temperature).

(** The shape of every run of the loop over the attempts [a .. a+n-1],
    where the budget [m] is [a + n] as soon as there is an attempt. *)
Lemma retry_loop_shape (self : LLMClient) (m : Z) (n : nat) :
  forall (a : nat) (kw : kwargs) (last : option exn),
    (1 <= n -> m = Z.of_nat (a + n)) ->
    exists j,
      j <= n
      /\ attempts_made (snd (loop self m (attempts_from a n) kw last))
         = attempts_from a j
      /\ waits (snd (loop self m (attempts_from a n) kw last))
         = map Spec.backoff (attempts_from a (j - 1))
      /\ Forall (sends (sent_kwargs self kw))
           (snd (loop self m (attempts_from a n) kw last))
      /\ (forall e, fst (loop self m (attempts_from a n) kw last) = Raised e ->
                    j = n)
      /\ (forall s, fst (loop self m (attempts_from a n) kw last) = Returned s ->
                    1 <= j).
Proof.
  induction n as [|n IH]; intros a kw last Hm.
  - exists 0. cbn. repeat split; try constructor.
    intros s H. destruct last; discriminate.
  - rewrite attempts_from_cons. cbn [retry_loop].
    pose proof (attempt_once_kwargs completion completion_stream self
                  (Z.of_nat a) kw) as Hk.
    destruct (attempt self (Z.of_nat a) kw) as [kw' r]. cbn [fst] in Hk.
    subst kw'. destruct r as [s|e].
    + exists 1. cbn. repeat split; try lia; try discriminate.
      repeat constructor.
    + specialize (IH (S a) (sent_kwargs self kw) (Some e)).
      rewrite sent_kwargs_idem in IH.
      destruct IH as [j [Hj [Hatt [Hwait [Hsend [Hraise Hret]]]]]]; [lia|].
      destruct (loop self m (attempts_from (S a) n) (sent_kwargs self kw)
                  (Some e)) as [r' evs] eqn:Hloop.
      cbn [fst snd] in *.
      exists (S j). split; [lia|]. split; [|split; [|split; [|split]]].
      * unfold attempts_made in *. cbn [flat_map app].
        rewrite flat_map_app, Hatt.
        destruct (Z.of_nat a <? m - 1)%Z; rewrite attempts_from_cons; reflexivity.
      * unfold waits in *. cbn [flat_map app].
        rewrite flat_map_app, Hwait. replace (S j - 1) with j by lia.
        destruct n as [|n'].
        -- assert (j = 0) by lia. subst j.
           replace (Z.of_nat a <? m - 1)%Z with false; [reflexivity|].
           symmetry. apply Z.ltb_ge. lia.
        -- assert (1 <= j).
           { destruct r' as [s|e']; [exact (Hret s eq_refl)|].
             rewrite (Hraise e' eq_refl). lia. }
           replace (Z.of_nat a <? m - 1)%Z with true
             by (symmetry; apply Z.ltb_lt; lia).
           destruct j as [|j']; [lia|].
           rewrite attempts_from_cons. cbn [map flat_map app Nat.sub].
           rewrite Nat.sub_0_r. reflexivity.
      * constructor; [reflexivity|].
        apply Forall_app. split; [|exact Hsend].
        destruct (Z.of_nat a <? m - 1)%Z; repeat constructor.
      * intros e' He'. rewrite (Hraise e' He'). reflexivity.
      * intros s Hs. lia.
Qed.

(** X1.  Whatever the backend does and whatever the budget is, a run of
    [chat_completion] makes the attempts [0 .. k-1] for some [k] within the
    budget, every one of them with the same [kwargs]; it sleeps after each
    attempt but the last one made, [2^i] after attempt [i], and never after
    the last; it raises only when the whole budget is used up, and returns
    only after at least one attempt. *)
Theorem chat_completion_run_shape (self : LLMClient) (messages : list Message)
  (temperature : Temperature) (response_format : option (list (str * str)))
  (max_retries : Z) :
  let run := chat self messages temperature response_format max_retries in
  exists k,
    (Z.of_nat k <= Z.max 0 max_retries)%Z
    /\ attempts_made (snd run) = range (Z.of_nat k)
    /\ waits (snd run) = map Spec.backoff (range (Z.of_nat k - 1))
    /\ Forall (sends (sent_kwargs self
                        (built_kwargs self messages temperature
                           response_format)))
         (snd run)
    /\ (forall e, fst run = Raised e -> Z.of_nat k = Z.max 0 max_retries)
    /\ (forall s, fst run = Returned s -> 1 <= k).
Proof.
  cbv zeta. unfold chat_completion.
  fold (built_kwargs self messages temperature response_format).
  rewrite attempts_from_range.
  destruct (@retry_loop_shape self max_retries (Z.to_nat max_retries) 0
              (built_kwargs self messages temperature response_format) None)
    as [j [Hj [Hatt [Hwait [Hsend [Hraise Hret]]]]]]; [lia|].
  exists j. rewrite !attempts_from_range, Nat2Z.id.
  replace (Z.to_nat (Z.of_nat j - 1)) with (j - 1) by lia.
  repeat split; try assumption; try lia.
  intros e He. rewrite (Hraise e He). lia.
Qed.

(** X2.  With a budget of at least one attempt, [chat_completion] sleeps
    for at most [2^(max_retries-1) - 1] seconds in all, whatever the backend
    does (3 seconds for the default budget of 3). *)
Theorem chat_completion_total_wait (self : LLMClient) (messages : list Message)
  (temperature : Temperature) (response_format : option (list (str * str)))
  (max_retries : Z) :
  (1 <= max_retries)%Z ->
  (0 <= total (waits (snd (chat self messages temperature response_format
                             max_retries)))
   <= 2 ^ (max_retries - 1) - 1)%Z.
Proof.
  intros Hm.
  unfold chat_completion.
  fold (built_kwargs self messages temperature response_format).
  rewrite attempts_from_range.
  destruct (@retry_loop_shape self max_retries (Z.to_nat max_retries) 0
              (built_kwargs self messages temperature response_format) None)
    as [k [Hk [_ [Hwait _]]]]; [lia|].
  rewrite Hwait, total_backoff.
  assert (2 ^ Z.of_nat (k - 1) <= 2 ^ (max_retries - 1))%Z
    by (apply Z.pow_le_mono_r; lia).
  assert (0 < 2 ^ Z.of_nat (k - 1))%Z by (apply Z.pow_pos_nonneg; lia).
  lia.
Qed.

End RetryFacts.

(** ** Recovery, broken streams and absent contents *)

Section RecoveryFacts.

Variables Message Temperature : Type.
Variable completion : Z -> Kwargs Message Temperature -> outcome Response.
Variable completion_stream :
  Z -> Kwargs Message Temperature -> outcome Stream.

Local Abbreviation attempt := (attempt_once completion completion_stream).
Local Abbreviation loop := (retry_loop completion completion_stream).
Local Abbreviation chat := (chat_completion completion completion_stream).
Local Abbreviation kwargs := (Kwargs Message Temperature).

Lemma attempts_made_recovering (k : nat) (kw : kwargs) (a : nat) :
  attempts_made
    (flat_map (fun t => [Completion t kw; Sleep (2 ^ t)%Z]) (attempts_from a k)
     ++ [Completion (Z.of_nat (a + k)) kw])
  = attempts_from a (S k).
Proof.
  revert a. induction k as [|k IH]; intros a.
  - cbn. rewrite Nat.add_0_r. reflexivity.
  - rewrite attempts_from_cons. cbn [flat_map app].
    unfold attempts_made in *. cbn [flat_map app].
    replace (a + S k) with (S a + k) by lia. rewrite IH. reflexivity.
Qed.

Lemma waits_recovering (k : nat) (kw : kwargs) (a : nat) :
  waits
    (flat_map (fun t => [Completion t kw; Sleep (2 ^ t)%Z]) (attempts_from a k)
     ++ [Completion (Z.of_nat (a + k)) kw])
  = map Spec.backoff (attempts_from a k).
Proof.
  revert a. induction k as [|k IH]; intros a; [reflexivity|].
  rewrite attempts_from_cons. cbn [flat_map app map].
  unfold waits in *. cbn [flat_map app].
  replace (a + S k) with (S a + k) by lia. rewrite IH. reflexivity.
Qed.

(** The loop over the attempts [a .. a+n-1] when the first [k] of them
    fail and the next one answers. *)
Lemma retry_loop_recovers (self : LLMClient) (m : Z) (err : Z -> exn)
  (s : option str) (k : nat) :
  forall (n a : nat) (kw : kwargs) (last : option exn),
    k < n ->
    m = Z.of_nat (a + n) ->
    (forall i kw', i < k ->
       snd (attempt self (Z.of_nat (a + i)) kw')
       = Raised (err (Z.of_nat (a + i)))) ->
    (forall kw', snd (attempt self (Z.of_nat (a + k)) kw') = Returned s) ->
    loop self m (attempts_from a n) kw last
    = (Returned s,
       flat_map (fun t => [Completion t (sent_kwargs self kw);
                           Sleep (2 ^ t)%Z])
         (attempts_from a k)
       ++ [Completion (Z.of_nat (a + k)) (sent_kwargs self kw)]).
Proof.
  induction k as [|k IH]; intros n a kw last Hk Hm Hfail Hok;
    (destruct n as [|n]; [lia|]); rewrite attempts_from_cons;
    cbn [retry_loop];
    pose proof (attempt_once_kwargs completion completion_stream self
                  (Z.of_nat a) kw) as Hkw.
  - specialize (Hok kw). rewrite Nat.add_0_r in *.
    destruct (attempt self (Z.of_nat a) kw) as [kw' r]. cbn [fst snd] in *.
    subst. reflexivity.
  - pose proof (Hfail 0 kw ltac:(lia)) as Hf. rewrite Nat.add_0_r in Hf.
    destruct (attempt self (Z.of_nat a) kw) as [kw' r]. cbn [fst snd] in *.
    subst kw' r.
    rewrite (IH n (S a) (sent_kwargs self kw) (Some (err (Z.of_nat a)))).
    + rewrite sent_kwargs_idem, attempts_from_cons. cbn [flat_map app].
      replace (Z.of_nat a <? m - 1)%Z with true
        by (symmetry; apply Z.ltb_lt; lia).
      replace (S a + k) with (a + S k) by lia. reflexivity.
    + lia.
    + lia.
    + intros i kw' Hi. replace (S a + i) with (a + S i) by lia.
      apply Hfail. lia.
    + intros kw'. replace (S a + k) with (a + S k) by lia. apply Hok.
Qed.

(** X3.  When the attempts [0 .. k-1] fail and attempt [k] answers, with
    [k] inside the budget, [chat_completion] returns that answer: it makes
    exactly the attempts [0 .. k], sleeps [1, 2, ..., 2^(k-1)] between them
    and not after the answer, and raises nothing. *)
Theorem chat_completion_recovers (self : LLMClient) (messages : list Message)
  (temperature : Temperature) (response_format : option (list (str * str)))
  (max_retries : Z) (err : Z -> exn) (s : option str) (k : nat) :
  (Z.of_nat k < max_retries)%Z ->
  (forall i kw, i < k ->
     snd (attempt self (Z.of_nat i) kw) = Raised (err (Z.of_nat i))) ->
  (forall kw, snd (attempt self (Z.of_nat k) kw) = Returned s) ->
  let run := chat self messages temperature response_format max_retries in
  fst run = Returned s
  /\ snd run
     = recovering_run k
         (sent_kwargs self
            (built_kwargs self messages temperature response_format))
  /\ attempts_made (snd run) = range (Z.of_nat k + 1)
  /\ waits (snd run) = map Spec.backoff (range (Z.of_nat k)).
Proof.
  intros Hk Hfail Hok run. subst run. unfold chat_completion.
  fold (built_kwargs self messages temperature response_format).
  rewrite attempts_from_range.
  rewrite (@retry_loop_recovers self max_retries err s k
             (Z.to_nat max_retries) 0); try lia; try assumption.
  cbn [fst snd]. unfold recovering_run.
  rewrite (attempts_made_recovering k _ 0), (waits_recovering k _ 0).
  rewrite !attempts_from_range, Nat2Z.id.
  replace (Z.to_nat (Z.of_nat k + 1)) with (S k) by lia.
  repeat split.
Qed.

Lemma handle_streaming_broken (a : Z) (kw : kwargs) (cs : list Chunk)
  (e : exn) :
  completion_stream a kw = Returned (mkStream cs (Some e)) ->
  _handle_streaming_response completion_stream a kw = Raised e.
Proof. intros H. unfold _handle_streaming_response. rewrite H. reflexivity. Qed.

(** X4.  Nothing of a broken stream leaks into the answer.  When the
    stream of attempt 0 delivers the chunks [cs0] and then breaks, and the
    stream of attempt 1 delivers [cs1] to its end, a streaming client with a
    budget of two or more returns the text of [cs1] alone, after one wait of
    one second. *)
Theorem chat_completion_discards_broken_stream
  (self : LLMClient) (messages : list Message)
  (temperature : Temperature) (response_format : option (list (str * str)))
  (max_retries : Z) (cs0 cs1 : list Chunk) (e : exn) :
  use_streaming self = true ->
  (2 <= max_retries)%Z ->
  (forall kw, completion_stream 0 kw = Returned (mkStream cs0 (Some e))) ->
  (forall kw, completion_stream 1 kw = Returned (mkStream cs1 None)) ->
  let run := chat self messages temperature response_format max_retries in
  fst run = Returned (Some (Spec.aggregate cs1))
  /\ attempts_made (snd run) = [0%Z; 1%Z]
  /\ waits (snd run) = [1%Z].
Proof.
  intros Hs Hm H0 H1 run. subst run. unfold chat_completion.
  rewrite attempts_from_range.
  rewrite (@retry_loop_recovers self max_retries (fun _ => e)
             (Some (Spec.aggregate cs1)) 1 (Z.to_nat max_retries) 0);
    try lia.
  - cbn [fst snd]. repeat split.
  - intros i kw Hi. replace i with 0 by lia. cbn [Nat.add Z.of_nat].
    unfold attempt_once. rewrite Hs.
    rewrite (handle_streaming_broken (H0 _)). reflexivity.
  - intros kw. cbn [Nat.add Z.of_nat]. unfold attempt_once. rewrite Hs.
    change (Z.pos 1) with 1%Z.
    rewrite (@handle_streaming_delivered _ _ completion_stream _ _ _ (H1 _)).
    reflexivity.
Qed.

(** What the loop returns was returned by one of its attempts. *)
Lemma retry_loop_returned (self : LLMClient) (m : Z) (attempts : list Z) :
  forall (kw : kwargs) (last : option exn) (x : option str),
    fst (loop self m attempts kw last) = Returned x ->
    exists a kw', snd (attempt self a kw') = Returned x.
Proof.
  induction attempts as [|a later IH]; intros kw last x.
  - cbn. destruct last; discriminate.
  - cbn [retry_loop].
    destruct (attempt self a kw) as [kw' r] eqn:Ha.
    destruct r as [s|e].
    + cbn. intros H; injection H as <-. exists a, kw. rewrite Ha. reflexivity.
    + destruct (loop self m later kw' (Some e)) as [r' evs] eqn:Hl.
      cbn [fst]. intros H. apply (IH kw' (Some e) x). rewrite Hl. exact H.
Qed.

(** X5.  A streaming client never returns Python's [None]: whenever
    [chat_completion] returns, it returns a text. *)
Theorem chat_completion_streaming_returns_text
  (self : LLMClient) (messages : list Message)
  (temperature : Temperature) (response_format : option (list (str * str)))
  (max_retries : Z) :
  use_streaming self = true ->
  fst (chat self messages temperature response_format max_retries)
  <> Returned None.
Proof.
  intros Hs H. unfold chat_completion in H.
  apply retry_loop_returned in H as [a [kw H]].
  unfold attempt_once in H. rewrite Hs in H. cbn [snd] in H.
  destruct (_handle_streaming_response completion_stream a (set_stream kw true));
    discriminate.
Qed.

(** X6.  Without streaming, a response whose first choice has no content
    makes [chat_completion] return [None] at its first attempt: one call of
    the backend, no wait and no retry. *)
Theorem chat_completion_absent_content
  (self : LLMClient) (messages : list Message)
  (temperature : Temperature) (response_format : option (list (str * str)))
  (max_retries : Z) (more : list (option str)) :
  use_streaming self = false ->
  (1 <= max_retries)%Z ->
  (forall kw, completion 0 kw = Returned (None :: more)) ->
  chat self messages temperature response_format max_retries
  = (Returned None,
     [Completion 0%Z
        (built_kwargs self messages temperature response_format)]).
Proof.
  intros Hs Hm H. unfold chat_completion.
  fold (built_kwargs self messages temperature response_format).
  unfold range. destruct (Z.to_nat max_retries) as [|k] eqn:E; [lia|].
  cbn [seq map retry_loop]. unfold attempt_once. rewrite Hs, H. reflexivity.
Qed.

(** X21.  Without streaming, a response without any choice counts as a
    failed attempt: when every response is like that, [chat_completion]
    uses up its budget, with the waits 1, 2, 4, ... between the attempts,
    and raises the [IndexError] of [choices[0]]. *)
Theorem chat_completion_no_choices
  (self : LLMClient) (messages : list Message)
  (temperature : Temperature) (response_format : option (list (str * str)))
  (max_retries : Z) :
  use_streaming self = false ->
  (1 <= max_retries)%Z ->
  (forall a kw, completion a kw = Returned []) ->
  let run := chat self messages temperature response_format max_retries in
  fst run = Raised (IndexError (py "list index out of range"))
  /\ attempts_made (snd run) = range max_retries
  /\ waits (snd run) = map Spec.backoff (range (max_retries - 1)).
Proof.
  intros Hs Hm H run. subst run. unfold chat_completion.
  fold (built_kwargs self messages temperature response_format).
  rewrite (@retry_loop_all_fail _ _ completion completion_stream self
             (fun _ => IndexError (py "list index out of range"))
             max_retries).
  - cbn [fst snd]. rewrite last_error_range by lia.
    rewrite attempts_made_failing_run, waits_failing_run,
      filter_range_below by lia.
    repeat split.
  - intros a kw. unfold attempt_once. rewrite Hs, H. reflexivity.
Qed.

End RecoveryFacts.

(** ** The extraction chain as a whole *)

Section ChainFacts.

Variable V : Type.
Variable json_loads : str -> option V.
Variable is_None : V -> bool.

Lemma sound_ret : sound json_loads (ret None).
Proof. intros v H. discriminate. Qed.

Lemma sound_loads site s : sound json_loads (loads json_loads site s).
Proof.
  intros v H. exists [], site, s. split; [reflexivity | exact H].
Qed.

Lemma sound_bind (m : Logged (option V)) (k : option V -> Logged (option V)) :
  sound json_loads m -> hands_on k -> sound json_loads (k None) ->
  sound json_loads (bind m k).
Proof.
  intros Hm Hk Hnone v Hv. rewrite result_bind in Hv. rewrite calls_bind.
  destruct (result m) as [w|] eqn:Hr.
  - destruct (Hk w v Hv) as [-> Hcalls]. rewrite Hcalls, app_nil_r.
    apply Hm. exact Hr.
  - destruct (Hnone v Hv) as [before [site [s [Hc Hs]]]].
    exists (calls m ++ before), site, s. rewrite Hc, app_assoc. auto.
Qed.

Lemma hands_on_match (k : Logged (option V)) :
  hands_on (fun r => match r with Some v => ret (Some v) | None => k end).
Proof. intros v v' H. injection H as <-. split; reflexivity. Qed.

Lemma sound_parse_then_clean site s :
  sound json_loads (parse_then_clean json_loads site s).
Proof.
  unfold parse_then_clean.
  apply sound_bind; [apply sound_loads | apply hands_on_match | apply sound_loads].
Qed.

Lemma sound_extract_balanced text start_char :
  sound json_loads (_extract_balanced_json json_loads text start_char).
Proof.
  rewrite extract_balanced_by_region.
  destruct (balanced_region text start_char); [|apply sound_ret].
  unfold parse_region.
  apply sound_bind; [apply sound_loads | apply hands_on_match |].
  apply sound_bind;
    [apply sound_loads | apply hands_on_match | apply sound_ret].
Qed.

Lemma sound_for_start_chars body cs :
  (forall c, sound json_loads (body c)) ->
  sound json_loads (for_start_chars body cs).
Proof.
  intros Hbody. induction cs as [|c cs IH]; [apply sound_ret|].
  cbn [for_start_chars].
  apply sound_bind; [apply Hbody | apply hands_on_match | exact IH].
Qed.

Lemma sound_later_strategies strat :
  In strat (later_strategies json_loads is_None) ->
  forall text, sound json_loads (strat text).
Proof.
  intros [<- | [<- | [<- | [<- | []]]]] text.
  - unfold labeled_fence.
    repeat match goal with
           | |- sound _ (if ?b then _ else _) => destruct b
           | |- sound _ (match ?o with Some _ => _ | None => _ end) => destruct o
           end;
      (apply sound_parse_then_clean || apply sound_ret).
  - unfold generic_fence.
    destruct (contains fence text); [|apply sound_ret].
    destruct (find fence 0 text); [|apply sound_ret].
    match goal with
    | |- sound _ (match ?o with Some _ => _ | None => _ end) => destruct o
    end; (apply sound_parse_then_clean || apply sound_ret).
  - unfold balanced_scan. apply sound_for_start_chars. intros c.
    apply sound_bind; [apply sound_extract_balanced | | apply sound_ret].
    intros v v' H. destruct (is_None v); [discriminate|].
    injection H as <-. split; reflexivity.
  - unfold best_effort_suffix. apply sound_for_start_chars. intros c.
    destruct (find [c] 0 text); [apply sound_loads | apply sound_ret].
Qed.

Lemma sound_first_value strategies text :
  (forall strat, In strat strategies -> forall t, sound json_loads (strat t)) ->
  sound json_loads (first_value strategies text).
Proof.
  induction strategies as [|strat more IH]; intros H; [apply sound_ret|].
  cbn [first_value]. apply sound_bind.
  - apply H. left; reflexivity.
  - apply hands_on_match.
  - apply IH. intros s Hs. apply H. right; exact Hs.
Qed.

(** The run of [extract_json] on a text that is not blank. *)
Lemma extract_json_not_blank (text : str) :
  forallb isspace text = false ->
  extract_json json_loads is_None text
  = (r <- loads json_loads Direct (normalized text) ;;
     match r with
     | Some v => ret (Returned v)
     | None =>
         r <- first_value (later_strategies json_loads is_None)
                (normalized text) ;;
         match r with
         | Some v => ret (Returned v)
         | None => ret (Raised (extraction_failed (normalized text)))
         end
     end).
Proof.
  intros Hblank.
  assert (Hne : strip text <> []).
  { intros E. apply strip_nil_blank in E. congruence. }
  unfold extract_json. destruct text as [|c r]; [discriminate|].
  destruct (strip (c :: r)) as [|c' r'] eqn:E; [congruence|].
  cbn [orb]. rewrite <- E. reflexivity.
Qed.

(** The ways in which [extract_json] ends when whatever leaves it at a call
    of the parser counts as its value. *)
Lemma extract_json_ends (text : str) :
  let run := extract_json json_loads is_None text in
  (forallb isspace text = true /\ run = (Raised empty_response, []))
  \/ (forallb isspace text = false
      /\ (exists rest, calls run = Loads Direct (normalized text) :: rest)
      /\ ((exists v before site s,
             result run = Returned v
             /\ calls run = before ++ [Loads site s]
             /\ json_loads s = Some v)
          \/ result run = Raised (extraction_failed (normalized text)))).
Proof.
  cbv zeta. destruct (forallb isspace text) eqn:Hblank.
  - left. split; [reflexivity|].
    unfold extract_json. rewrite (strip_blank _ Hblank), orb_true_r. reflexivity.
  - right. split; [reflexivity|]. rewrite (extract_json_not_blank _ Hblank).
    split.
    + rewrite calls_bind. cbn [loads calls snd app]. eauto.
    + rewrite result_bind, calls_bind.
      change (result (loads json_loads Direct (normalized text)))
        with (json_loads (normalized text)).
      change (calls (loads json_loads Direct (normalized text)))
        with [Loads Direct (normalized text)].
      destruct (json_loads (normalized text)) as [v|] eqn:Hd.
      * left. exists v, [], Direct, (normalized text). cbn. auto.
      * rewrite result_bind, calls_bind.
        pose proof (@sound_first_value
                      (later_strategies json_loads is_None) (normalized text)
                      sound_later_strategies) as Hsound.
        destruct (result (first_value (later_strategies json_loads is_None)
                            (normalized text))) as [v|] eqn:Hr.
        -- left. destruct (Hsound v Hr) as [before [site [s [Hc Hs]]]].
           exists v, (Loads Direct (normalized text) :: before), site, s.
           rewrite Hc. cbn. rewrite app_nil_r. auto.
        -- right. reflexivity.
Qed.

End ChainFacts.

(** X7.  [extract_json] ends in one of four ways, and never invents a
    value.  On a blank input it raises the empty-response error without
    calling the parser.  Otherwise its first call is the direct parse of
    the stripped text, and it returns a value, which is what the parser
    made of the string of the last call; or an exception of the parser that
    is no [JSONDecodeError] escapes, raised by the last call; or it raises
    the extraction error built from the stripped text.  The third way is
    taken on a fenced integer of 4301 digits, whatever follows the
    block. *)
Theorem extract_json_outcomes (V E : Type) (json_loads : str -> parsed V E)
  (is_None : V -> bool) (text : str) :
  let run := extract_json_raising json_loads is_None text in
  ((forallb isspace text = true /\ run = (Fails empty_response, []))
   \/ (forallb isspace text = false
       /\ (exists rest, calls run = Loads Direct (normalized text) :: rest)
       /\ ((exists v before site s,
              result run = Gives v
              /\ calls run = before ++ [Loads site s]
              /\ json_loads s = Parsed v)
           \/ (exists e before site s,
                 result run = Escapes e
                 /\ calls run = before ++ [Loads site s]
                 /\ json_loads s = OtherError e)
           \/ result run = Fails (extraction_failed (normalized text)))))
  /\ extract_json_raising Examples.loads_limited Json.is_null
       Examples.fenced_long_integer
     = (Escapes Examples.digits_exceeded,
        [Loads Direct Examples.fenced_long_integer;
         Loads GenericFence Examples.long_integer]).
Proof.
  cbv zeta. split; [|vm_compute; reflexivity].
  unfold extract_json_raising.
  pose proof (extract_json_ends (caught json_loads) (leaves_None is_None) text)
    as H.
  cbv zeta in H.
  destruct (extract_json (caught json_loads) (leaves_None is_None) text)
    as [r made].
  unfold calls, result in *. cbn [fst snd] in *.
  destruct H as [[Hblank H] | [Hblank [Hfirst H]]].
  - left. split; [exact Hblank|]. injection H as -> ->. reflexivity.
  - right. split; [exact Hblank|]. split; [exact Hfirst|].
    destruct H as [[v [before [site [s [-> [-> Hs]]]]]] | ->].
    + unfold caught in Hs. destruct v as [v|e].
      * left. exists v, before, site, s. repeat split.
        destruct (json_loads s); congruence.
      * right; left. exists e, before, site, s. repeat split.
        destruct (json_loads s); congruence.
    + right; right. reflexivity.
Qed.

(** ** Order and number of the parser calls *)

Lemma calls_ret {A} (a : A) : calls (ret a) = [].
Proof. reflexivity. Qed.

Lemma part_nil site n : part site n [].
Proof. split; [constructor | cbn; lia]. Qed.

Lemma part_app site n1 n2 l1 l2 :
  part site n1 l1 -> part site n2 l2 -> part site (n1 + n2) (l1 ++ l2).
Proof.
  intros [F1 L1] [F2 L2]. split.
  - apply Forall_app. auto.
  - rewrite length_app. lia.
Qed.

Lemma part_weaken site n n' l : n <= n' -> part site n l -> part site n' l.
Proof. intros Hn [F L]. split; [exact F | lia]. Qed.

Section CallFacts.

Variable V : Type.
Variable json_loads : str -> option V.
Variable is_None : V -> bool.

Lemma part_loads site s : part site 1 (calls (loads json_loads site s)).
Proof. split; [repeat constructor | cbn; lia]. Qed.

Lemma part_bind {A B} site n1 n2 (m : Logged A) (k : A -> Logged B) :
  part site n1 (calls m) -> (forall r, part site n2 (calls (k r))) ->
  part site (n1 + n2) (calls (bind m k)).
Proof. intros Hm Hk. rewrite calls_bind. apply part_app; auto. Qed.

Lemma part_parse_then_clean site s :
  part site 2 (calls (parse_then_clean json_loads site s)).
Proof.
  unfold parse_then_clean. apply (@part_bind _ _ site 1 1).
  - apply part_loads.
  - intros [v|]; [apply part_nil | apply part_loads].
Qed.

Lemma part_extract_balanced text c :
  part BalancedScan 2 (calls (_extract_balanced_json json_loads text c)).
Proof.
  rewrite extract_balanced_by_region.
  destruct (balanced_region text c); [|apply part_nil].
  unfold parse_region. apply (@part_bind _ _ BalancedScan 1 1).
  - apply part_loads.
  - intros [v|]; [apply part_nil|].
    apply (@part_bind _ _ BalancedScan 1 0); [apply part_loads|].
    intros [v|]; apply part_nil.
Qed.

Lemma part_for_start_chars site n body cs :
  (forall c, part site n (calls (body c))) ->
  part site (List.length cs * n)
    (calls (for_start_chars (V := V) body cs)).
Proof.
  intros Hbody. induction cs as [|c cs IH]; [apply part_nil|].
  cbn [for_start_chars List.length Nat.mul].
  apply part_bind; [apply Hbody|].
  intros [v|]; [apply part_nil | exact IH].
Qed.

Lemma part_labeled_fence text :
  part LabeledFence 2 (calls (labeled_fence json_loads text)).
Proof.
  unfold labeled_fence.
  repeat match goal with
         | |- part _ _ (calls (if ?b then _ else _)) => destruct b
         | |- part _ _ (calls (match ?o with Some _ => _ | None => _ end)) =>
             destruct o
         end;
    (apply part_parse_then_clean || apply part_nil).
Qed.

Lemma part_generic_fence text :
  part GenericFence 2 (calls (generic_fence json_loads text)).
Proof.
  unfold generic_fence.
  destruct (contains fence text); [|apply part_nil].
  destruct (find fence 0 text); [|apply part_nil].
  match goal with
  | |- part _ _ (calls (match ?o with Some _ => _ | None => _ end)) =>
      destruct o
  end; (apply part_parse_then_clean || apply part_nil).
Qed.

Lemma part_balanced_scan text :
  part BalancedScan 4 (calls (balanced_scan json_loads is_None text)).
Proof.
  unfold balanced_scan.
  apply (@part_for_start_chars BalancedScan 2 _ start_chars). intros c.
  apply (@part_bind _ _ BalancedScan 2 0); [apply part_extract_balanced|].
  intros [v|]; [destruct (is_None v)|]; apply part_nil.
Qed.

Lemma part_best_effort_suffix text :
  part BestEffortSuffix 2 (calls (best_effort_suffix json_loads text)).
Proof.
  unfold best_effort_suffix.
  apply (@part_for_start_chars BestEffortSuffix 1 _ start_chars). intros c.
  destruct (find [c] 0 text); [apply part_loads | apply part_nil].
Qed.

Local Ltac parts :=
  repeat match goal with |- _ /\ _ => split end;
  first [assumption | apply part_nil].

Lemma extract_json_calls_split (text : str) :
  exists d l g b s,
    calls (extract_json json_loads is_None text) = d ++ l ++ g ++ b ++ s
    /\ part Direct 1 d /\ part LabeledFence 2 l /\ part GenericFence 2 g
    /\ part BalancedScan 4 b /\ part BestEffortSuffix 2 s.
Proof.
  destruct (forallb isspace text) eqn:Hblank.
  - exists [], [], [], [], []. split; [|parts].
    unfold extract_json. rewrite (strip_blank _ Hblank), orb_true_r. reflexivity.
  - rewrite (extract_json_not_blank _ _ _ Hblank).
    remember (normalized text) as t eqn:Ht. clear Ht.
    pose proof (part_loads Direct t) as Hd.
    pose proof (part_labeled_fence t) as Hl.
    pose proof (part_generic_fence t) as Hg.
    pose proof (part_balanced_scan t) as Hb.
    pose proof (part_best_effort_suffix t) as Hs.
    rewrite calls_bind.
    destruct (result (loads json_loads Direct t)) as [v|].
    { exists (calls (loads json_loads Direct t)), [], [], [], [].
      split; [rewrite ?calls_ret, ?app_nil_r; reflexivity | parts]. }
    rewrite calls_bind. cbn [first_value later_strategies].
    rewrite !calls_bind, !result_bind.
    destruct (result (labeled_fence json_loads t)) as [v|].
    { exists (calls (loads json_loads Direct t)),
        (calls (labeled_fence json_loads t)), [], [], [].
      split; [rewrite ?calls_ret, ?app_nil_r; reflexivity | parts]. }
    rewrite !calls_bind, !result_bind.
    destruct (result (generic_fence json_loads t)) as [v|].
    { exists (calls (loads json_loads Direct t)),
        (calls (labeled_fence json_loads t)),
        (calls (generic_fence json_loads t)), [], [].
      split; [rewrite ?calls_ret, ?app_nil_r; reflexivity | parts]. }
    rewrite !calls_bind, !result_bind.
    exists (calls (loads json_loads Direct t)),
      (calls (labeled_fence json_loads t)),
      (calls (generic_fence json_loads t)),
      (calls (balanced_scan json_loads is_None t)),
      (match result (balanced_scan json_loads is_None t) with
       | Some _ => []
       | None => calls (best_effort_suffix json_loads t)
       end).
    split.
    + destruct (result (balanced_scan json_loads is_None t)) as [v|].
      * rewrite ?calls_ret, ?app_nil_r. reflexivity.
      * rewrite !calls_bind, !result_bind.
        destruct (result (best_effort_suffix json_loads t));
          cbn [result ret fst]; rewrite ?calls_ret, ?app_nil_r, <- ?app_assoc;
          reflexivity.
    + split; [exact Hd|]. split; [exact Hl|]. split; [exact Hg|].
      split; [exact Hb|].
      destruct (result (balanced_scan json_loads is_None t));
        [apply part_nil | exact Hs].
Qed.

(** X8.  The strategies run in the order of the source and none runs
    twice: the calls of the parser made by [extract_json] are those of the
    direct parse (at most 1), then of the labelled fenced block (at most 2),
    then of the generic fenced block (at most 2), then of the balanced scan
    (at most 4), then of the last resort (at most 2), so at most 11 in
    all. *)
Theorem extract_json_calls_in_order (text : str) :
  exists d l g b s,
    calls (extract_json json_loads is_None text) = d ++ l ++ g ++ b ++ s
    /\ part Direct 1 d /\ part LabeledFence 2 l /\ part GenericFence 2 g
    /\ part BalancedScan 4 b /\ part BestEffortSuffix 2 s
    /\ List.length (calls (extract_json json_loads is_None text)) <= 11.
Proof.
  destruct (extract_json_calls_split text)
    as [d [l [g [b [s [E [Hd [Hl [Hg [Hb Hs]]]]]]]]]].
  exists d, l, g, b, s. split; [exact E|]. do 5 (split; [assumption|]).
  rewrite E, !length_app.
  destruct Hd as [_ Hd], Hl as [_ Hl], Hg as [_ Hg], Hb as [_ Hb],
    Hs as [_ Hs]. lia.
Qed.

End CallFacts.

(** ** The last resort and the stripped text *)

Section SuffixFacts.

Variable V : Type.
Variable json_loads : str -> option V.
Variable is_None : V -> bool.

Lemma first_value_some (strategies : list (str -> Logged (option V)))
  (text : str) :
  (exists strat, In strat strategies /\ result (strat text) <> None) ->
  result (first_value strategies text) <> None.
Proof.
  induction strategies as [|strat more IH]; intros [st [Hin Hres]];
    [destruct Hin|].
  cbn [first_value]. rewrite result_bind.
  destruct (result (strat text)) as [v|] eqn:Hr; [discriminate|].
  apply IH. destruct Hin as [<- | Hin]; [congruence | eauto].
Qed.

Lemma best_effort_suffix_some (text : str) (c : ascii) (i : nat) :
  In c start_chars ->
  find [c] 0 text = Some i ->
  json_loads (_clean_json_string (slice_from text i)) <> None ->
  result (best_effort_suffix json_loads text) <> None.
Proof.
  intros Hc Hfind Hparse. unfold best_effort_suffix, start_chars.
  cbn [for_start_chars]. rewrite result_bind.
  destruct Hc as [<- | [<- | []]].
  - rewrite Hfind. unfold loads, result at 2. cbn [fst].
    destruct (json_loads (_clean_json_string (slice_from text i)));
      [discriminate | congruence].
  - match goal with
    | |- context [match ?r with Some _ => _ | None => _ end] =>
        destruct r as [v|]
    end; [discriminate|].
    rewrite result_bind, Hfind. unfold loads, result at 2. cbn [fst].
    destruct (json_loads (_clean_json_string (slice_from text i)));
      [discriminate | congruence].
Qed.

(** When the stripped text, from its first [{] or its first [[] to its
    end, gives something once cleaned, so does the chain. *)
Lemma extract_json_suffix_value (text : str) (c : ascii) (i : nat) (v : V) :
  forallb isspace text = false ->
  In c start_chars ->
  find [c] 0 (normalized text) = Some i ->
  json_loads (_clean_json_string (slice_from (normalized text) i)) = Some v ->
  exists v', result (extract_json json_loads is_None text) = Returned v'.
Proof.
  intros Hblank Hc Hfind Hparse.
  rewrite (extract_json_not_blank _ _ _ Hblank), result_bind.
  destruct (result (loads json_loads Direct (normalized text))) as [w|];
    [exists w; reflexivity|].
  rewrite result_bind.
  assert (Hsome : result (first_value (later_strategies json_loads is_None)
                            (normalized text)) <> None).
  { apply first_value_some. exists (best_effort_suffix json_loads). split.
    - unfold later_strategies. cbn. auto.
    - apply (best_effort_suffix_some _ Hc Hfind). congruence. }
  destruct (result (first_value (later_strategies json_loads is_None)
                      (normalized text))) as [w|];
    [exists w; reflexivity | congruence].
Qed.

End SuffixFacts.

(** X9.  The last resort makes the chain complete for texts that end in
    their payload: when the stripped text, from its first [{] or its first
    [[] to its end, parses once cleaned, [extract_json] raises neither of
    its own two errors.  It returns a value (that of an earlier strategy if
    one succeeded) unless the parser raised, on the string of the last
    call, an exception that is no [JSONDecodeError], which then escapes; so
    it returns a value whenever the parser raises no such exception on the
    strings handed to it. *)
Theorem extract_json_suffix_parses (V E : Type)
  (json_loads : str -> parsed V E) (is_None : V -> bool)
  (text : str) (c : ascii) (i : nat) (v : V) :
  forallb isspace text = false ->
  In c start_chars ->
  find [c] 0 (normalized text) = Some i ->
  json_loads (_clean_json_string (slice_from (normalized text) i)) = Parsed v ->
  let run := extract_json_raising json_loads is_None text in
  (forall e, result run <> Fails e)
  /\ ((exists v', result run = Gives v')
      \/ (exists e before site s,
            result run = Escapes e
            /\ calls run = before ++ [Loads site s]
            /\ json_loads s = OtherError e))
  /\ ((forall site s, In (Loads site s) (calls run) ->
                      forall e, json_loads s <> OtherError e) ->
      exists v', result run = Gives v').
Proof.
  intros Hblank Hc Hfind Hparse. cbv zeta.
  assert (Hcaught : caught json_loads
                      (_clean_json_string (slice_from (normalized text) i))
                    = Some (inl v))
    by (unfold caught; rewrite Hparse; reflexivity).
  destruct (@extract_json_suffix_value _ (caught json_loads)
              (leaves_None is_None) text c i (inl v) Hblank Hc Hfind Hcaught)
    as [w Hw].
  pose proof (extract_json_ends (caught json_loads) (leaves_None is_None) text)
    as Hends.
  cbv zeta in Hends.
  unfold extract_json_raising.
  destruct (extract_json (caught json_loads) (leaves_None is_None) text)
    as [r made].
  unfold calls, result in *. cbn [fst snd] in *. subst r.
  destruct Hends as [[Hb _] | [_ [_ Hends]]]; [congruence|].
  destruct Hends as [[w' [before [site [s [Hr [-> Hs]]]]]] | Hr];
    [|discriminate].
  injection Hr as <-. unfold caught in Hs.
  destruct w as [w|e].
  - split; [discriminate|]. split; [left; eauto|]. eauto.
  - assert (He : json_loads s = OtherError e)
      by (destruct (json_loads s); congruence).
    split; [discriminate|]. split.
    + right. exists e, before, site, s. auto.
    + intros Hnone. exfalso. apply (Hnone site s) with (e := e); [|exact He].
      apply in_or_app. right. left. reflexivity.
Qed.

Lemma slice_of_refl (s : str) : slice_of s s.
Proof. exists [], []. rewrite app_nil_r. reflexivity. Qed.

Lemma slice_of_trans (a b c : str) : slice_of a b -> slice_of b c -> slice_of a c.
Proof.
  intros [x [y ->]] [x' [y' ->]]. exists (x' ++ x), (y ++ y').
  rewrite <- !app_assoc. reflexivity.
Qed.

Lemma strip_slice (s : str) : slice_of (strip s) s.
Proof.
  unfold strip. destruct (lstrip_suffix s) as [w Hw].
  destruct (rstrip_prefix (lstrip s)) as [w' Hw'].
  exists w, w'. rewrite <- Hw'. exact Hw.
Qed.

Lemma strip_prefix_slice (text prefix : str) :
  slice_of (strip_prefix text prefix) text.
Proof.
  unfold strip_prefix. destruct (startswith (lower prefix) (lower text));
    [|apply slice_of_refl].
  apply (slice_of_trans (strip_slice _)). unfold slice_from.
  exists (firstn (List.length prefix) text), [].
  rewrite app_nil_r, firstn_skipn. reflexivity.
Qed.

Lemma strip_prefix_stripped (text prefix : str) :
  strip text = text -> strip (strip_prefix text prefix) = strip_prefix text prefix.
Proof.
  intros H. unfold strip_prefix.
  destruct (startswith (lower prefix) (lower text)); [apply strip_idem | exact H].
Qed.

Lemma slice_of_length (a b : str) : slice_of a b -> List.length a <= List.length b.
Proof. intros [x [y ->]]. rewrite !length_app. lia. Qed.

(** X10.  The text that the strategies work on is a part of the input in
    one piece: stripping white space and leading phrases removes characters
    at the two ends only and never alters what lies between; the result has
    no white space at either end and is not longer than the input. *)
Theorem normalized_is_slice (text : str) :
  slice_of (normalized text) text
  /\ strip (normalized text) = normalized text
  /\ List.length (normalized text) <= List.length text.
Proof.
  assert (H : forall prefixes t,
             strip t = t ->
             slice_of (fold_left strip_prefix prefixes t) t
             /\ strip (fold_left strip_prefix prefixes t)
                = fold_left strip_prefix prefixes t).
  { induction prefixes as [|p more IH]; intros t Ht.
    - split; [apply slice_of_refl | exact Ht].
    - cbn [fold_left].
      destruct (IH (strip_prefix t p) (strip_prefix_stripped _ Ht)) as [Hs He].
      split; [|exact He].
      exact (slice_of_trans Hs (strip_prefix_slice t p)). }
  destruct (H common_prefixes (strip text) (strip_idem text)) as [Hs He].
  assert (Hslice : slice_of (normalized text) text)
    by exact (slice_of_trans Hs (strip_slice text)).
  split; [exact Hslice|]. split; [exact He|].
  apply slice_of_length, Hslice.
Qed.

(** ** Fenced blocks *)

Lemma startswith_app (sub r : str) : startswith sub (sub ++ r) = true.
Proof.
  induction sub as [|c sub IH]; [reflexivity|].
  cbn. rewrite Ascii.eqb_refl. exact IH.
Qed.

(** [find] skips a stretch in which the first character of the pattern does
    not occur. *)
Lemma find_at_past (c0 : ascii) (sub' p r : str) :
  lacks c0 p = true ->
  forall i, find_at (c0 :: sub') i (p ++ (c0 :: sub') ++ r)
            = Some (i + List.length p).
Proof.
  induction p as [|x p IH]; intros Hp i.
  - cbn [app List.length find_at startswith].
    rewrite Ascii.eqb_refl, startswith_app, Nat.add_0_r. reflexivity.
  - cbn [lacks forallb] in Hp. apply andb_true_iff in Hp as [Hx Hp].
    cbn [app find_at startswith]. apply negb_true_iff in Hx.
    rewrite Ascii.eqb_sym, Hx. cbn [andb].
    rewrite (IH Hp). cbn [List.length]. f_equal. lia.
Qed.

Lemma find_at_fence (p r : str) (i : nat) :
  lacks backtick p = true ->
  find_at fence i (p ++ fence ++ r) = Some (i + List.length p).
Proof. intros H. exact (@find_at_past backtick (py "``") p r H i). Qed.

Lemma find_at_json_fence (p r : str) (i : nat) :
  lacks backtick p = true ->
  find_at (py "```json") i (p ++ py "```json" ++ r)
  = Some (i + List.length p).
Proof. intros H. exact (@find_at_past backtick (py "``json") p r H i). Qed.

Lemma find_after (sub a b : str) :
  find sub (List.length a) (a ++ b) = find_at sub (List.length a) b.
Proof.
  unfold find. rewrite length_app.
  replace (List.length a + List.length b <? List.length a) with false
    by (symmetry; apply Nat.ltb_ge; lia).
  rewrite skipn_app, Nat.sub_diag, skipn_all. reflexivity.
Qed.

Lemma slice_middle (a b c : str) :
  slice (a ++ b ++ c) (List.length a) (List.length a + List.length b) = b.
Proof.
  unfold slice. rewrite skipn_app, Nat.sub_diag, skipn_all.
  replace (List.length a + List.length b - List.length a)
    with (List.length b) by lia.
  cbn [skipn app]. rewrite firstn_app, Nat.sub_diag, firstn_all.
  cbn [firstn]. apply app_nil_r.
Qed.

Lemma lower_char_backtick (c : ascii) :
  Ascii.eqb (lower_char c) backtick = Ascii.eqb c backtick.
Proof. destruct c as [[] [] [] [] [] [] [] []]; reflexivity. Qed.

Lemma lower_lacks_backtick (s : str) :
  lacks backtick (lower s) = lacks backtick s.
Proof.
  induction s as [|c s IH]; [reflexivity|].
  cbn [lower map lacks forallb]. rewrite lower_char_backtick. f_equal. exact IH.
Qed.

Lemma lacks_app (c : ascii) (a b : str) :
  lacks c (a ++ b) = lacks c a && lacks c b.
Proof. apply forallb_app. Qed.

Section FenceFacts.

Variable V : Type.
Variable json_loads : str -> option V.
Variable is_None : V -> bool.

Lemma parse_then_clean_parses site s v :
  parses_to json_loads s v ->
  result (parse_then_clean json_loads site s) = Some v
  /\ produced_by (parse_then_clean json_loads site s) = Some site.
Proof.
  unfold parse_then_clean, loads, bind, result, produced_by, calls.
  intros [H | [H1 H2]].
  - rewrite H. split; reflexivity.
  - rewrite H1, H2. split; reflexivity.
Qed.

(** The chain when the direct parse fails and the strategies up to one
    that gives a value give nothing and call nothing. *)
Lemma chain_value (t : str) (v : V) (site : strategy)
  (m : Logged (option V)) :
  json_loads t = None ->
  first_value (later_strategies json_loads is_None) t = m ->
  result m = Some v ->
  produced_by m = Some site ->
  let run :=
    (r <- loads json_loads Direct t ;;
     match r with
     | Some v => ret (Returned v)
     | None =>
         r <- first_value (later_strategies json_loads is_None) t ;;
         match r with
         | Some v => ret (Returned v)
         | None => ret (Raised (extraction_failed t))
         end
     end) in
  result run = Returned v /\ produced_by run = Some site.
Proof.
  intros Hdirect -> Hres Hby run. subst run.
  unfold loads, bind. rewrite Hdirect.
  destruct m as [r l]. unfold result, produced_by, calls in *.
  cbn [fst snd] in *. subst r. cbn [ret app fst snd].
  split; [reflexivity|]. rewrite app_nil_r. cbn [rev].
  destruct (rev l) as [|[s a] l']; [discriminate|]. exact Hby.
Qed.

Lemma labeled_fence_found (pre label body post : str) :
  lower label = py "json" ->
  lacks backtick pre = true ->
  lacks backtick body = true ->
  labeled_fence json_loads (pre ++ fence ++ label ++ body ++ fence ++ post)
  = parse_then_clean json_loads LabeledFence (strip body).
Proof.
  intros Hlabel Hpre Hbody.
  assert (Hlen : List.length label = 4).
  { rewrite <- (length_map lower_char label).
    change (map lower_char label) with (lower label). rewrite Hlabel.
    reflexivity. }
  set (t := pre ++ fence ++ label ++ body ++ fence ++ post).
  assert (Hlow : lower t
                 = lower pre ++ py "```json"
                   ++ (lower body ++ fence ++ lower post)).
  { unfold t, lower. rewrite !map_app. fold (lower label). rewrite Hlabel.
    reflexivity. }
  assert (Hfind : find (py "```json") 0 (lower t) = Some (List.length pre)).
  { rewrite Hlow. unfold find. cbn [Nat.ltb Nat.leb skipn].
    rewrite find_at_json_fence by (rewrite lower_lacks_backtick; exact Hpre).
    unfold lower. rewrite length_map. reflexivity. }
  unfold labeled_fence, contains. rewrite Hfind.
  change (List.length (py "```json")) with 7.
  assert (Hsplit : t = (pre ++ fence ++ label) ++ body ++ fence ++ post)
    by (unfold t; rewrite <- !app_assoc; reflexivity).
  assert (Hstart : List.length (pre ++ fence ++ label) = List.length pre + 7)
    by (rewrite !length_app, Hlen; reflexivity).
  rewrite Hsplit, <- Hstart, find_after.
  rewrite find_at_fence by exact Hbody.
  rewrite slice_middle. reflexivity.
Qed.

(** Where the labelled fence is found: in the lowered text, at the position
    that it has in the text itself. *)
Lemma labeled_fence_position (pre label rest : str) :
  lower label = py "json" ->
  lacks backtick pre = true ->
  find (py "```json") 0 (lower (pre ++ fence ++ label ++ rest))
  = Some (List.length pre).
Proof.
  intros Hlabel Hpre.
  assert (Hlow : lower (pre ++ fence ++ label ++ rest)
                 = lower pre ++ py "```json" ++ lower rest).
  { unfold lower. rewrite !map_app. fold (lower label). rewrite Hlabel.
    reflexivity. }
  rewrite Hlow. unfold find. cbn [Nat.ltb Nat.leb skipn].
  rewrite find_at_json_fence by (rewrite lower_lacks_backtick; exact Hpre).
  unfold lower. rewrite length_map. reflexivity.
Qed.

(** X11.  For a text of code points below 256, which are the texts of this
    embedding: there [str.lower] maps character to character, so that a
    position found in [text.lower()] is the same position in [text] (the
    last two parts of the statement).  A fenced block labelled [json], in
    any letter case, is then found whatever prose surrounds it: when the
    stripped text is some prose without backticks, the labelled fence, a
    body without backticks, a closing fence and anything after it, and the
    text as a whole does not parse, [extract_json] returns what the
    stripped body parses to, directly or once cleaned.  Nothing is said
    about a text with a character such as U+0130, whose lowered form is
    longer than the character: there the index that the code takes from
    [text.lower()] is not the position of the fence in [text]. *)
Theorem extract_json_labeled_block
  (text pre label body post : str) (v : V) :
  normalized text = pre ++ fence ++ label ++ body ++ fence ++ post ->
  lower label = py "json" ->
  lacks backtick pre = true ->
  lacks backtick body = true ->
  json_loads (normalized text) = None ->
  parses_to json_loads (strip body) v ->
  result (extract_json json_loads is_None text) = Returned v
  /\ produced_by (extract_json json_loads is_None text) = Some LabeledFence
  /\ find (py "```json") 0 (lower (normalized text)) = Some (List.length pre)
  /\ List.length (lower (normalized text)) = List.length (normalized text).
Proof.
  intros Ht Hlabel Hpre Hbody Hdirect Hparse.
  assert (Hblank : forallb isspace text = false).
  { destruct (forallb isspace text) eqn:E; [|reflexivity].
    rewrite (normalized_blank _ (strip_blank _ E)) in Ht.
    symmetry in Ht. apply app_eq_nil in Ht as [_ Ht]. discriminate. }
  assert (Hrun : result (extract_json json_loads is_None text) = Returned v
                 /\ produced_by (extract_json json_loads is_None text)
                    = Some LabeledFence).
  { rewrite (extract_json_not_blank _ _ _ Hblank).
    destruct (parse_then_clean_parses LabeledFence Hparse) as [Hres Hby].
    rewrite <- (@labeled_fence_found pre label body post Hlabel Hpre Hbody),
      <- Ht in Hres, Hby.
    apply (@chain_value (normalized text) v LabeledFence
             (labeled_fence json_loads (normalized text))); try assumption.
    cbn [first_value later_strategies].
    destruct (labeled_fence json_loads (normalized text)) as [r l].
    cbn [result fst] in Hres. subst r. unfold bind, ret.
    rewrite app_nil_r. reflexivity. }
  destruct Hrun as [Hres Hby].
  split; [exact Hres|]. split; [exact Hby|]. split.
  - rewrite Ht. apply labeled_fence_position; assumption.
  - unfold lower. apply length_map.
Qed.

End FenceFacts.

Lemma find_at_newline (p r : str) (i : nat) :
  lacks newline p = true ->
  find_at [newline] i (p ++ newline :: r) = Some (i + List.length p).
Proof. intros H. exact (@find_at_past newline [] p r H i). Qed.

Section GenericFenceFacts.

Variable V : Type.
Variable json_loads : str -> option V.
Variable is_None : V -> bool.

Lemma generic_fence_found (pre line body post : str) :
  lacks backtick pre = true ->
  lacks backtick line = true ->
  lacks newline line = true ->
  lacks backtick body = true ->
  generic_fence json_loads
    (pre ++ fence ++ line ++ newline :: body ++ fence ++ post)
  = parse_then_clean json_loads GenericFence
      (strip (generic_interior line body)).
Proof.
  intros Hpre Hline Hnl Hbody.
  set (t := pre ++ fence ++ line ++ newline :: body ++ fence ++ post).
  assert (Hfind : find fence 0 t = Some (List.length pre)).
  { unfold find, t. cbn [Nat.ltb Nat.leb skipn].
    rewrite find_at_fence by exact Hpre. reflexivity. }
  unfold generic_fence, contains. rewrite Hfind.
  assert (Hstart : List.length (pre ++ fence) = List.length pre + 3)
    by (rewrite length_app; reflexivity).
  assert (H1 : t = (pre ++ fence) ++ line ++ newline :: body ++ fence ++ post)
    by (unfold t; rewrite <- !app_assoc; reflexivity).
  assert (Hnewline : find [newline] (List.length pre + 3) t
                     = Some (List.length pre + 3 + List.length line)).
  { rewrite H1 at 1. rewrite <- Hstart, find_after.
    apply find_at_newline. exact Hnl. }
  rewrite Hnewline.
  replace (List.length pre + 3 + List.length line - (List.length pre + 3))
    with (List.length line) by lia.
  unfold generic_interior. destruct (List.length line <? 20).
  - assert (H2 : t = (pre ++ fence ++ line ++ [newline]) ++ body
                     ++ fence ++ post).
    { unfold t. rewrite <- !app_assoc. reflexivity. }
    assert (Hs : List.length (pre ++ fence ++ line ++ [newline])
                 = List.length pre + 3 + List.length line + 1).
    { rewrite !length_app. cbn [List.length]. change (List.length fence) with 3.
      lia. }
    rewrite H2, <- Hs, find_after, find_at_fence by exact Hbody.
    rewrite slice_middle. reflexivity.
  - assert (H2 : t = (pre ++ fence) ++ (line ++ newline :: body)
                     ++ fence ++ post).
    { unfold t. rewrite <- !app_assoc. reflexivity. }
    rewrite H2, <- Hstart, find_after, find_at_fence.
    + rewrite slice_middle. reflexivity.
    + unfold lacks in *. rewrite forallb_app, Hline. cbn [forallb andb].
      rewrite Hbody. reflexivity.
Qed.

(** X12.  A fenced block without the [json] label is found whatever
    prose without backticks precedes it.  When the opening fence is followed
    by a first line and a newline, that line is left out if it has fewer
    than 20 characters, whether it is a label or the start of the payload,
    and is kept with the body otherwise; when the text holds no fence
    labelled [json] and does not parse as a whole, [extract_json] returns
    what the stripped interior parses to, directly or once cleaned. *)
Theorem extract_json_generic_block
  (text pre line body post : str) (v : V) :
  normalized text = pre ++ fence ++ line ++ newline :: body ++ fence ++ post ->
  lacks backtick pre = true ->
  lacks backtick line = true ->
  lacks newline line = true ->
  lacks backtick body = true ->
  contains (py "```json") (lower (normalized text)) = false ->
  json_loads (normalized text) = None ->
  parses_to json_loads (strip (generic_interior line body)) v ->
  result (extract_json json_loads is_None text) = Returned v
  /\ produced_by (extract_json json_loads is_None text) = Some GenericFence.
Proof.
  intros Ht Hpre Hline Hnl Hbody Hnolabel Hdirect Hparse.
  assert (Hblank : forallb isspace text = false).
  { destruct (forallb isspace text) eqn:E; [|reflexivity].
    rewrite (normalized_blank _ (strip_blank _ E)) in Ht.
    symmetry in Ht. apply app_eq_nil in Ht as [_ Ht]. discriminate. }
  rewrite (extract_json_not_blank _ _ _ Hblank).
  destruct (parse_then_clean_parses GenericFence Hparse) as [Hres Hby].
  rewrite <- (@generic_fence_found pre line body post Hpre Hline Hnl Hbody),
    <- Ht in Hres, Hby.
  apply (@chain_value _ json_loads is_None (normalized text) v GenericFence
           (generic_fence json_loads (normalized text))); try assumption.
  cbn [first_value later_strategies]. unfold labeled_fence at 1.
  rewrite Hnolabel.
  destruct (generic_fence json_loads (normalized text)) as [r l].
  cbn [result fst] in Hres. subst r. unfold bind, ret.
  cbn [app]. rewrite app_nil_r. reflexivity.
Qed.

End GenericFenceFacts.

(** ** The scanner looks at nothing behind the region *)

Section ScannerLocality.

Variables opening closing : ascii.

Local Abbreviation step := (ScanSpec.step opening closing).
Local Abbreviation closes := (ScanSpec.closes opening closing).
Local Abbreviation scan := (scan_loop opening closing (@Some nat) None).

Lemma scan_loop_ge (rest : str) :
  forall d ins esc i j, scan d ins esc i rest = Some j -> i <= j.
Proof.
  induction rest as [|c rest' IH]; intros d ins esc i j; [discriminate|].
  rewrite scan_loop_step.
  destruct (ScanSpec.closes opening closing (ScanSpec.mkScanState d ins esc) c).
  - intros H; injection H as <-. lia.
  - cbv zeta. intros H. apply IH in H. lia.
Qed.

Lemma closes_closing st c : closes st c = true -> c = closing.
Proof.
  unfold ScanSpec.closes. intros H.
  repeat (apply andb_true_iff in H as [H ?]).
  apply Ascii.eqb_eq. assumption.
Qed.

(** The loop stops at a closing character and would stop at the same place
    whatever came behind it. *)
Lemma scan_loop_prefix (rest : str) :
  forall d ins esc i m,
    scan d ins esc i rest = Some (i + m) ->
    nth_error rest m = Some closing
    /\ forall i' junk,
         scan d ins esc i' (firstn (S m) rest ++ junk) = Some (i' + m).
Proof.
  induction rest as [|c rest' IH]; intros d ins esc i m; [discriminate|].
  rewrite scan_loop_step.
  destruct (closes (ScanSpec.mkScanState d ins esc) c) eqn:Hc.
  - intros H. injection H as H. assert (m = 0) by lia. subst m. split.
    + cbn. f_equal. apply (closes_closing _ _ Hc).
    + intros i' junk. cbn [firstn app]. rewrite scan_loop_step, Hc.
      f_equal. lia.
  - cbv zeta. intros H. pose proof (scan_loop_ge _ _ _ _ _ H) as Hge.
    destruct m as [|m]; [lia|].
    replace (i + S m) with (S i + m) in H by lia.
    apply IH in H as [Hnth Hjunk]. split; [exact Hnth|].
    intros i' junk. cbn [firstn app]. rewrite scan_loop_step, Hc. cbv zeta.
    rewrite Hjunk. f_equal. lia.
Qed.

End ScannerLocality.

Lemma firstn_exact (a b : str) : firstn (List.length a) (a ++ b) = a.
Proof.
  rewrite firstn_app, Nat.sub_diag, firstn_all. cbn [firstn]. apply app_nil_r.
Qed.

Lemma firstn_succ_nth (s : str) (m : nat) (x : ascii) :
  nth_error s m = Some x -> firstn (S m) s = firstn m s ++ [x].
Proof.
  revert m. induction s as [|c s IH]; intros [|m]; cbn; try discriminate.
  - intros H; injection H as ->. reflexivity.
  - intros H. f_equal. apply IH. exact H.
Qed.

(** The loop gets to the same region when the region stands alone or is
    followed by any other text. *)
Lemma balanced_region_alone (text : str) (start_char : ascii) (region : str) :
  start_char = "{"%char \/ start_char = "["%char ->
  balanced_region text start_char = Some region ->
  (forall junk, balanced_region (region ++ junk) start_char = Some region)
  /\ balanced_region region start_char = Some region
  /\ (exists body, region = start_char :: body ++ [end_char_of start_char]).
Proof.
  intros Hc Hregion.
  destruct (opening_not_special Hc) as [Hstep Hopen].
  unfold balanced_region in Hregion.
  destruct (find [start_char] 0 text) as [start_idx|] eqn:Hfind; [|discriminate].
  destruct (find_char_first _ _ Hfind) as [rest [Hskip _]].
  rewrite scan_loop_factor, Hskip, scan_loop_step in Hregion.
  change (ScanSpec.mkScanState 0 false false) with ScanSpec.initial in Hregion.
  rewrite Hopen, Hstep in Hregion. cbv zeta in Hregion.
  cbn [ScanSpec.depth ScanSpec.in_string ScanSpec.escaped] in Hregion.
  destruct (scan_loop start_char (end_char_of start_char) (@Some nat) None 1
              false false (S start_idx) rest) as [j|] eqn:Hscan;
    [|discriminate].
  injection Hregion as Hregion.
  pose proof (scan_loop_ge _ _ _ _ _ _ _ Hscan) as Hge.
  replace j with (S start_idx + (j - S start_idx)) in Hscan by lia.
  set (m := j - S start_idx) in *.
  apply scan_loop_prefix in Hscan as [Hnth Hjunk].
  assert (Hr : region = start_char :: firstn (S m) rest).
  { rewrite <- Hregion. unfold slice. rewrite Hskip.
    replace (j + 1 - start_idx) with (S (S m)) by (unfold m; lia).
    reflexivity. }
  assert (Hlen : List.length (firstn (S m) rest) = S m).
  { apply firstn_length_le.
    assert (m < List.length rest)
      by (apply nth_error_Some; rewrite Hnth; discriminate).
    lia. }
  assert (Hlocal : forall junk,
             balanced_region (region ++ junk) start_char = Some region).
  { intros junk. rewrite Hr.
    remember (firstn (S m) rest) as fr eqn:Hfr.
    unfold balanced_region, find.
    cbn [app List.length Nat.ltb Nat.leb skipn find_at startswith].
    rewrite Ascii.eqb_refl. cbn [andb skipn].
    rewrite scan_loop_factor, scan_loop_step.
    change (ScanSpec.mkScanState 0 false false) with ScanSpec.initial.
    rewrite Hopen, Hstep. cbv zeta.
    cbn [ScanSpec.depth ScanSpec.in_string ScanSpec.escaped].
    rewrite (Hjunk 1 junk). f_equal. unfold slice.
    change (skipn 0 (start_char :: fr ++ junk))
      with ((start_char :: fr) ++ junk).
    replace (1 + m + 1 - 0) with (List.length (start_char :: fr))
      by (cbn [List.length]; lia).
    apply firstn_exact. }
  split; [exact Hlocal|]. split.
  - rewrite <- (app_nil_r region) at 1. apply Hlocal.
  - exists (firstn m rest). rewrite Hr. f_equal.
    apply firstn_succ_nth. exact Hnth.
Qed.

(** X13.  For an opening character [{] or [[] with the closing character
    that matches it: when [_extract_balanced_json] calls the parser, the
    string it calls it on begins with the opening character and ends with
    the closing one, and neither the calls nor the result depend on what
    surrounds that string in the text: called on the string alone, or on the
    string followed by any other text, the function makes the same calls and
    gives the same result as on the text. *)
Theorem extract_balanced_local (V : Type) (json_loads : str -> option V)
  (text : str) (start_char closing : ascii)
  (site : strategy) (region : str) (later : list parse_call) :
  In (start_char, closing) ScanSpec.brackets ->
  calls (_extract_balanced_json json_loads text start_char)
  = Loads site region :: later ->
  (forall junk,
     _extract_balanced_json json_loads (region ++ junk) start_char
     = _extract_balanced_json json_loads text start_char)
  /\ _extract_balanced_json json_loads region start_char
     = _extract_balanced_json json_loads text start_char
  /\ (exists body, region = start_char :: body ++ [closing]).
Proof.
  intros Hin Hcalls. destruct (brackets_end_char Hin) as [-> Hc].
  assert (Hregion : balanced_region text start_char = Some region).
  { pose proof (extract_balanced_calls json_loads text start_char) as H.
    destruct (balanced_region text start_char) as [r|].
    - destruct H as [later' [H _]]. rewrite H in Hcalls.
      injection Hcalls as _ -> _. reflexivity.
    - rewrite H in Hcalls. discriminate. }
  destruct (balanced_region_alone _ Hc Hregion) as [Hjunk [Halone Hshape]].
  split; [|split; [|exact Hshape]].
  - intros junk. rewrite !extract_balanced_by_region, Hjunk, Hregion.
    reflexivity.
  - rewrite !extract_balanced_by_region, Halone, Hregion. reflexivity.
Qed.

(** ** What the cleaner does and does not do *)

Lemma ws_closer_ahead_blank (r : str) :
  forallb isspace r = true -> Re.ws_closer_ahead r = false.
Proof.
  induction r as [|c r IH]; [reflexivity|].
  cbn [forallb Re.ws_closer_ahead]. intros H.
  apply andb_true_iff in H as [Hc Hr]. rewrite Hc. auto.
Qed.

Lemma ws_closer_ahead_app (r z : str) :
  Re.ws_closer_ahead (r ++ z)
  = if forallb isspace r then Re.ws_closer_ahead z else Re.ws_closer_ahead r.
Proof.
  induction r as [|c r IH]; [reflexivity|].
  cbn [app forallb Re.ws_closer_ahead]. destruct (isspace c); [exact IH|].
  reflexivity.
Qed.

(** The first substitution works on the two parts of a text apart, unless
    a comma hangs at the end of the first part and the second begins with
    the rest of a match. *)
Lemma sub_trailing_comma_app (a z : str) :
  comma_hanging a && Re.ws_closer_ahead z = false ->
  Re.sub_trailing_comma (a ++ z)
  = Re.sub_trailing_comma a ++ Re.sub_trailing_comma z.
Proof.
  induction a as [|x a IH]; intros H; [reflexivity|].
  cbn [app Re.sub_trailing_comma comma_hanging] in *.
  assert (Ha : comma_hanging a && Re.ws_closer_ahead z = false).
  { destruct (comma_hanging a); [|reflexivity].
    rewrite orb_true_r in H. exact H. }
  rewrite (IH Ha), ws_closer_ahead_app.
  destruct (Ascii.eqb x ",") eqn:Hx; [|reflexivity]. cbn [andb] in *.
  destruct (forallb isspace a) eqn:Hblank.
  - cbn [orb andb] in H. rewrite H, (ws_closer_ahead_blank _ Hblank).
    reflexivity.
  - destruct (Re.ws_closer_ahead a); reflexivity.
Qed.

Lemma ws_closer_ahead_group (w : str) (c : ascii) (b : str) :
  forallb isspace w = true -> Re.is_closer c = true ->
  Re.ws_closer_ahead (w ++ c :: b) = true.
Proof.
  intros Hw Hc. rewrite ws_closer_ahead_app, Hw. cbn [Re.ws_closer_ahead].
  destruct (isspace c) eqn:E; [|exact Hc].
  unfold Re.is_closer in Hc. apply orb_true_iff in Hc as [Hc | Hc];
    apply Ascii.eqb_eq in Hc; subst c; discriminate.
Qed.

(** X14.  A trailing comma does not change what the cleaner gives: a text
    with a comma before a closing brace or bracket, white space allowed in
    between, is cleaned to the same string as the text without that comma,
    so that the parser sees the same in both cases.  The part before the
    comma must not itself end in a comma followed by white space only. *)
Theorem clean_drops_trailing_comma (a w : str) (c : ascii) (b : str) :
  comma_hanging a = false ->
  forallb isspace w = true ->
  Re.is_closer c = true ->
  _clean_json_string (a ++ ","%char :: w ++ c :: b)
  = _clean_json_string (a ++ w ++ c :: b).
Proof.
  intros Ha Hw Hc. unfold _clean_json_string.
  pose proof (@ws_closer_ahead_group w c b Hw Hc) as Hgroup.
  rewrite !sub_trailing_comma_app by (rewrite Ha; reflexivity).
  cbn [Re.sub_trailing_comma]. rewrite Hgroup. reflexivity.
Qed.

(** X15.  The cleaner only deletes: what it gives is the text with some
    characters removed, nothing added and nothing moved; it is never
    longer than the text and has no white space at either end. *)
Theorem clean_only_deletes (s : str) :
  subsequence (_clean_json_string s) s
  /\ List.length (_clean_json_string s) <= List.length s
  /\ strip (_clean_json_string s) = _clean_json_string s.
Proof.
  assert (H : subsequence (_clean_json_string s) s).
  { unfold _clean_json_string, strip.
    eapply subsequence_trans; [apply rstrip_deletes|].
    eapply subsequence_trans; [apply lstrip_deletes|].
    eapply subsequence_trans; [apply block_comments_deletes|].
    eapply subsequence_trans; [apply line_comments_deletes|].
    apply sub_trailing_comma_deletes. }
  split; [exact H|]. split; [apply subsequence_length, H|].
  unfold _clean_json_string. apply strip_idem.
Qed.

Lemma line_comments_open (x y : str) :
  has_slash x = false ->
  Re.line_comments false (x ++ "/"%char :: "/"%char :: y)
  = x ++ Re.line_comments true y.
Proof.
  induction x as [|c x IH]; [reflexivity|].
  cbn [has_slash existsb app]. intros H.
  apply orb_false_iff in H as [Hc Hx].
  cbn [Re.line_comments].
  destruct (x ++ "/"%char :: "/"%char :: y) as [|d r'] eqn:E.
  - destruct x; discriminate.
  - rewrite Hc. cbn [andb app]. f_equal. apply IH. exact Hx.
Qed.

Lemma line_comments_to_end (y : str) :
  lacks newline y = true -> Re.line_comments true y = [].
Proof.
  induction y as [|c y IH]; [reflexivity|].
  cbn [lacks forallb Re.line_comments]. intros H.
  apply andb_true_iff in H as [Hc Hy]. apply negb_true_iff in Hc.
  rewrite Hc. auto.
Qed.

Lemma sub_trailing_comma_lacks (c : ascii) (s : str) :
  lacks c s = true -> lacks c (Re.sub_trailing_comma s) = true.
Proof.
  induction s as [|x s IH]; [reflexivity|].
  cbn [lacks forallb Re.sub_trailing_comma]. intros H.
  apply andb_true_iff in H as [Hx Hs].
  destruct (Ascii.eqb x "," && Re.ws_closer_ahead s); [auto|].
  cbn [lacks forallb]. rewrite Hx. cbn [andb]. auto.
Qed.

(** X16.  The cleaner does not know about strings: whatever precedes a
    [//], an open quote included, everything from the [//] to the end of
    its line goes.  For a text without [/] followed by [//] and a last line
    [b], cleaning gives what cleaning the text alone gives. *)
Theorem clean_cuts_at_double_slash (a b : str) :
  has_slash a = false ->
  lacks newline b = true ->
  _clean_json_string (a ++ py "//" ++ b) = _clean_json_string a.
Proof.
  intros Ha Hb. rewrite (clean_no_slash _ Ha). unfold _clean_json_string.
  rewrite sub_trailing_comma_app by apply andb_false_r.
  change (Re.sub_trailing_comma (py "//" ++ b))
    with ("/"%char :: "/"%char :: Re.sub_trailing_comma b).
  unfold Re.sub_line_comments.
  rewrite line_comments_open by (apply sub_trailing_comma_no_slash, Ha).
  rewrite line_comments_to_end by (apply sub_trailing_comma_lacks, Hb).
  rewrite app_nil_r.
  rewrite (block_comments_no_slash _ (sub_trailing_comma_no_slash _ Ha)).
  reflexivity.
Qed.

(** ** The embedding client *)

Lemma sorted_permutation_unique (l l' : list Z) :
  StronglySorted Z.le l -> StronglySorted Z.le l' -> Permutation l l' ->
  l = l'.
Proof.
  revert l'. induction l as [|a l IH]; intros l' Hl Hl' Hp.
  - apply Permutation_nil in Hp. congruence.
  - destruct l' as [|b l'].
    + apply Permutation_sym, Permutation_nil in Hp. discriminate.
    + apply StronglySorted_inv in Hl as [Hl Ha].
      apply StronglySorted_inv in Hl' as [Hl' Hb].
      assert (a = b).
      { assert (Hina : In a (b :: l'))
          by (apply (Permutation_in _ Hp); left; reflexivity).
        assert (Hinb : In b (a :: l))
          by (apply (Permutation_in _ (Permutation_sym Hp)); left; reflexivity).
        rewrite Forall_forall in Ha, Hb.
        destruct Hina as [-> | Hina]; [reflexivity|].
        destruct Hinb as [-> | Hinb]; [reflexivity|].
        pose proof (Ha _ Hinb). pose proof (Hb _ Hina). lia. }
      subst b. f_equal. apply IH; try assumption.
      apply (Permutation_cons_inv Hp).
Qed.

Lemma range_sorted (n : Z) : StronglySorted Z.le (range n).
Proof.
  unfold range. generalize 0 as a. induction (Z.to_nat n) as [|k IH]; intros a.
  - constructor.
  - cbn [seq map]. constructor; [apply IH|].
    apply Forall_forall. intros x Hx. apply in_map_iff in Hx as [y [<- Hy]].
    apply in_seq in Hy. lia.
Qed.

Section EmbedFacts.

Import Embed.

Variable F : Type.
Variable litellm_embedding :
  str -> list str -> option str -> outcome (list (Item F)).

Local Abbreviation item := (Item F).
Local Abbreviation by_index :=
  (fun a b : Item F => (index a <= index b)%Z).
Local Abbreviation keyed k := (fun y : Item F => (index y =? k)%Z).

Lemma insert_by_index_perm (x : item) (l : list item) :
  Permutation (insert_by_index x l) (x :: l).
Proof.
  induction l as [|y l IH]; [reflexivity|].
  cbn [insert_by_index]. destruct (index x <=? index y)%Z; [reflexivity|].
  rewrite IH. apply perm_swap.
Qed.

Lemma sort_by_index_perm (l : list item) : Permutation (sort_by_index l) l.
Proof.
  induction l as [|x l IH]; [reflexivity|].
  cbn [sort_by_index fold_right]. fold (sort_by_index l).
  rewrite insert_by_index_perm. constructor. exact IH.
Qed.

Lemma insert_by_index_sorted (x : item) (l : list item) :
  StronglySorted by_index l -> StronglySorted by_index (insert_by_index x l).
Proof.
  induction l as [|y l IH]; intros Hl.
  - repeat constructor.
  - cbn [insert_by_index].
    apply StronglySorted_inv in Hl as Hinv. destruct Hinv as [Hl' Hy].
    destruct (Z.leb_spec (index x) (index y)) as [Hle|Hgt].
    + constructor; [exact Hl|]. constructor; [exact Hle|].
      eapply Forall_impl; [|exact Hy]. intros z Hz. cbn in *. lia.
    + constructor; [apply IH; exact Hl'|].
      apply (Permutation_Forall (Permutation_sym (insert_by_index_perm x l))).
      constructor; [cbn; lia | exact Hy].
Qed.

Lemma sort_by_index_sorted (l : list item) :
  StronglySorted by_index (sort_by_index l).
Proof.
  induction l as [|x l IH]; [constructor|].
  cbn [sort_by_index fold_right]. apply insert_by_index_sorted. exact IH.
Qed.

Lemma insert_by_index_stable (k : Z) (x : item) (l : list item) :
  filter (keyed k) (insert_by_index x l) = filter (keyed k) (x :: l).
Proof.
  induction l as [|y l IH]; [reflexivity|].
  cbn [insert_by_index].
  destruct (Z.leb_spec (index x) (index y)) as [Hle|Hgt]; [reflexivity|].
  cbn [filter] in *. rewrite IH.
  destruct (Z.eqb_spec (index x) k), (Z.eqb_spec (index y) k);
    try reflexivity. lia.
Qed.

Lemma sort_by_index_stable (k : Z) (l : list item) :
  filter (keyed k) (sort_by_index l) = filter (keyed k) l.
Proof.
  induction l as [|x l IH]; [reflexivity|].
  cbn [sort_by_index fold_right]. fold (sort_by_index l).
  rewrite insert_by_index_stable. cbn [filter]. rewrite IH. reflexivity.
Qed.

(** X17.  For a list of texts that is not empty, [encode_documents] makes
    one call to the backend and returns the embeddings of the items it
    got, in ascending order of their [index], items of equal index in the
    order of arrival: the vectors are those of a list that is sorted by
    index, holds the very items of the answer and keeps the order of
    arrival among equal indices.  There are as many vectors as items in the
    answer, whatever the number of texts. *)
Theorem encode_documents_sorted (self : EmbeddingModel) (text : str)
  (texts : list str) (data : list item) :
  litellm_embedding (model_name self) (text :: texts) (api_key self)
  = Returned data ->
  exists sorted,
    encode_documents litellm_embedding self (text :: texts)
    = (Returned (map (@embedding F) sorted), [text :: texts])
    /\ Permutation sorted data
    /\ StronglySorted by_index sorted
    /\ (forall k, filter (keyed k) sorted = filter (keyed k) data)
    /\ List.length (map (@embedding F) sorted) = List.length data.
Proof.
  intros H. exists (sort_by_index data). unfold encode_documents. rewrite H.
  split; [reflexivity|]. split; [apply sort_by_index_perm|].
  split; [apply sort_by_index_sorted|].
  split; [intros k; apply sort_by_index_stable|].
  rewrite length_map. apply Permutation_length, sort_by_index_perm.
Qed.

Lemma sorted_indices (l : list item) :
  StronglySorted by_index l -> StronglySorted Z.le (map (@index F) l).
Proof.
  induction 1 as [|a l Hl IH Ha]; [constructor|].
  cbn [map]. constructor; [exact IH|].
  apply Forall_map. exact Ha.
Qed.

(** X18.  The order of submission is restored.  When the answer of the
    backend holds one item for each of the [n] texts, with the indices
    [0 .. n-1] in any order of arrival, [encode_documents] returns [n]
    vectors and the vector at position [k] is the embedding of the item of
    index [k]. *)
Theorem encode_documents_restores_order (self : EmbeddingModel) (text : str)
  (texts : list str) (data : list item) :
  litellm_embedding (model_name self) (text :: texts) (api_key self)
  = Returned data ->
  Permutation (map (@index F) data)
    (range (Z.of_nat (List.length (text :: texts)))) ->
  exists vectors,
    fst (encode_documents litellm_embedding self (text :: texts))
    = Returned vectors
    /\ List.length vectors = List.length (text :: texts)
    /\ forall it, In it data ->
         nth_error vectors (Z.to_nat (index it)) = Some (embedding it).
Proof.
  intros H Hperm. unfold encode_documents. rewrite H. cbn [fst].
  exists (map (@embedding F) (sort_by_index data)).
  pose proof (sort_by_index_perm data) as Hp.
  assert (Hidx : map (@index F) (sort_by_index data)
                 = range (Z.of_nat (List.length (text :: texts)))).
  { apply sorted_permutation_unique.
    - apply sorted_indices, sort_by_index_sorted.
    - apply range_sorted.
    - rewrite <- Hperm. apply Permutation_map. exact Hp. }
  split; [reflexivity|]. split.
  - rewrite length_map, <- (length_map (@index F)), Hidx.
    unfold range. rewrite length_map, length_seq, Nat2Z.id. reflexivity.
  - intros it Hin.
    apply (Permutation_in _ (Permutation_sym Hp)) in Hin.
    apply In_nth_error in Hin as [p Hp'].
    assert (Hk : nth_error (map (@index F) (sort_by_index data)) p
                 = Some (index it))
      by (rewrite nth_error_map, Hp'; reflexivity).
    rewrite Hidx in Hk. unfold range in Hk. rewrite nth_error_map in Hk.
    destruct (nth_error (seq 0 (Z.to_nat (Z.of_nat (List.length (text :: texts)))))
                p) as [q|] eqn:Hq; [|discriminate].
    assert (Hlt : p < List.length
                        (seq 0 (Z.to_nat (Z.of_nat (List.length (text :: texts))))))
      by (apply nth_error_Some; rewrite Hq; discriminate).
    rewrite length_seq in Hlt.
    pose proof (nth_error_nth _ _ 0 Hq) as Hnth.
    rewrite seq_nth in Hnth by exact Hlt. cbn in Hk. injection Hk as Hk.
    replace (Z.to_nat (index it)) with p by lia.
    rewrite nth_error_map, Hp'. reflexivity.
Qed.

(** X19.  [encode_single] returns the embedding of an item of least
    index in the answer, which need not be the first to arrive, and raises
    the error "Failed to generate embedding" when the answer holds no item
    at all; it makes one call, for the one text. *)
Theorem encode_single_least_index (self : EmbeddingModel) (text : str)
  (data : list item) :
  litellm_embedding (model_name self) [text] (api_key self) = Returned data ->
  snd (encode_single litellm_embedding self text) = [[text]]
  /\ match data with
     | [] =>
         fst (encode_single litellm_embedding self text)
         = Raised (ValueError (py "Failed to generate embedding"))
     | _ :: _ =>
         exists it,
           In it data
           /\ fst (encode_single litellm_embedding self text)
              = Returned (embedding it)
           /\ forall other, In other data -> (index it <= index other)%Z
     end.
Proof.
  intros H. unfold encode_single, encode_documents. rewrite H.
  pose proof (sort_by_index_perm data) as Hp.
  pose proof (sort_by_index_sorted data) as Hs.
  destruct (sort_by_index data) as [|it sorted] eqn:E.
  - apply Permutation_nil in Hp. subst data. split; reflexivity.
  - cbn [map fst snd]. split; [reflexivity|].
    destruct data as [|d data].
    + apply Permutation_sym, Permutation_nil in Hp. discriminate.
    + exists it. split; [|split; [reflexivity|]].
      * apply (Permutation_in _ Hp). left; reflexivity.
      * intros other Hin.
        apply (Permutation_in _ (Permutation_sym Hp)) in Hin.
        apply StronglySorted_inv in Hs as [_ Hall].
        destruct Hin as [<- | Hin]; [lia|].
        rewrite Forall_forall in Hall. apply Hall. exact Hin.
Qed.

(** X20.  Building an [EmbeddingModel] never fails and always sets the
    dimension.  A model name that holds one of the known marks costs no
    call to the backend; any other name costs exactly one call, for the
    text [test], and when that call fails or its answer holds no item the
    dimension is 768. *)
Theorem init_sets_dimension (config : Config) (name : option str) :
  let built := __init__ litellm_embedding config name in
  let self := fst built in
  dimension self <> None
  /\ (snd built = [] \/ snd built = [[py "test"]])
  /\ (contains (py "text-embedding-004") (model_name self)
      || contains (py "ada-002") (model_name self)
      || contains (py "3-small") (model_name self)
      || contains (py "qwen") (lower (model_name self)) = true ->
      snd built = [])
  /\ (contains (py "text-embedding-004") (model_name self)
      || contains (py "ada-002") (model_name self)
      || contains (py "3-small") (model_name self)
      || contains (py "qwen") (lower (model_name self)) = false ->
      snd built = [[py "test"]]
      /\ ((litellm_embedding (model_name self) [py "test"] (api_key self)
           = Returned []
           \/ exists e,
               litellm_embedding (model_name self) [py "test"] (api_key self)
               = Raised e) ->
          dimension self = Some 768%Z)).
Proof.
  cbv zeta. unfold __init__.
  set (m := match name with Some (c :: n) => c :: n | _ => EMBEDDING_MODEL config end).
  destruct (contains (py "text-embedding-004") m) eqn:H1.
  { cbn [fst snd model_name dimension]. rewrite H1. cbn [orb].
    repeat split; auto; discriminate. }
  destruct (contains (py "ada-002") m || contains (py "3-small") m) eqn:H2.
  { cbn [fst snd model_name dimension]. rewrite H1. cbn [orb].
    rewrite H2. cbn [orb]. repeat split; auto; discriminate. }
  destruct (contains (py "qwen") (lower m)) eqn:H3.
  { cbn [fst snd model_name dimension]. rewrite H1. cbn [orb].
    rewrite H2, H3. cbn [orb]. repeat split; auto; discriminate. }
  unfold encode_single, encode_documents. cbn [model_name api_key].
  destruct (litellm_embedding m [py "test"] (OPENAI_API_KEY config))
    as [data|e] eqn:Hcall.
  - destruct (sort_by_index data) as [|it sorted] eqn:E;
      cbn [map fst snd model_name api_key dimension];
      rewrite H1; cbn [orb]; rewrite H2, H3; cbn [orb].
    + repeat split; auto; try discriminate.
    + repeat split; auto; try discriminate.
      intros [Hnil | [e He]]; [|congruence].
      rewrite Hcall in Hnil. injection Hnil as ->. discriminate.
  - cbn [fst snd model_name api_key dimension].
    rewrite H1. cbn [orb]. rewrite H2, H3. cbn [orb].
    repeat split; auto; discriminate.
Qed.

End EmbedFacts.

(** ** Instances of the further properties *)

Lemma chat_completion_total_wait_witness :
  (1 <= 3)%Z
  /\ (0 <= total (waits (snd (chat_completion Examples.failing
                                Examples.failing_stream
                                (Examples.client true) [] tt None 3)))
      <= 2 ^ (3 - 1) - 1)%Z.
Proof.
  split; [lia|].
  apply (@chat_completion_total_wait unit unit Examples.failing
           Examples.failing_stream (Examples.client true) [] tt None 3%Z).
  lia.
Defined.

Lemma chat_completion_recovers_witness :
  (Z.of_nat 2 < 3)%Z
  /\ (forall i kw, i < 2 ->
        snd (attempt_once Examples.recovering Examples.failing_stream
               (Examples.client false) (Z.of_nat i) kw)
        = Raised (Examples.timeout_error (Z.of_nat i)))
  /\ (forall kw,
        snd (attempt_once Examples.recovering Examples.failing_stream
               (Examples.client false) (Z.of_nat 2) kw)
        = Returned (Some Examples.answer))
  /\ (let run :=
        chat_completion Examples.recovering Examples.failing_stream
          (Examples.client false) [] tt None 3 in
      fst run = Returned (Some Examples.answer)
      /\ snd run
         = recovering_run 2
             (sent_kwargs (Examples.client false)
                (built_kwargs (Examples.client false) [] tt None))
      /\ attempts_made (snd run) = range (Z.of_nat 2 + 1)
      /\ waits (snd run) = map Spec.backoff (range (Z.of_nat 2))).
Proof.
  assert (Hfail : forall i kw, i < 2 ->
            snd (attempt_once Examples.recovering Examples.failing_stream
                   (Examples.client false) (Z.of_nat i) kw)
            = Raised (Examples.timeout_error (Z.of_nat i))).
  { intros i kw Hi. destruct i as [|[|i]]; [reflexivity | reflexivity | lia]. }
  split; [lia|]. split; [exact Hfail|]. split; [intros kw; reflexivity|].
  apply (@chat_completion_recovers unit unit Examples.recovering
           Examples.failing_stream (Examples.client false) [] tt None 3%Z
           Examples.timeout_error (Some Examples.answer) 2).
  - lia.
  - exact Hfail.
  - intros kw. reflexivity.
Defined.

Lemma chat_completion_discards_broken_stream_witness :
  use_streaming (Examples.client true) = true
  /\ (2 <= 3)%Z
  /\ (forall kw,
        Examples.breaking_stream 0 kw
        = Returned (mkStream [[Some (py "garb")]; [Some (py "age")]]
                      (Some (Examples.timeout_error 0))))
  /\ (forall kw,
        Examples.breaking_stream 1 kw
        = Returned (mkStream Examples.answer_chunks None))
  /\ (let run :=
        chat_completion Examples.failing Examples.breaking_stream
          (Examples.client true) [] tt None 3 in
      fst run = Returned (Some (Spec.aggregate Examples.answer_chunks))
      /\ attempts_made (snd run) = [0%Z; 1%Z]
      /\ waits (snd run) = [1%Z]).
Proof.
  split; [reflexivity|]. split; [lia|].
  split; [intros kw; reflexivity|]. split; [intros kw; reflexivity|].
  apply (@chat_completion_discards_broken_stream unit unit Examples.failing
           Examples.breaking_stream (Examples.client true) [] tt None 3%Z
           [[Some (py "garb")]; [Some (py "age")]] Examples.answer_chunks
           (Examples.timeout_error 0)).
  - reflexivity.
  - lia.
  - intros kw. reflexivity.
  - intros kw. reflexivity.
Defined.

Lemma chat_completion_streaming_returns_text_witness :
  use_streaming (Examples.client true) = true
  /\ fst (chat_completion Examples.contentless Examples.breaking_stream
            (Examples.client true) [] tt None 3)
     <> Returned None.
Proof.
  split; [reflexivity|].
  apply (@chat_completion_streaming_returns_text unit unit Examples.contentless
           Examples.breaking_stream (Examples.client true) [] tt None 3%Z).
  reflexivity.
Defined.

Lemma chat_completion_absent_content_witness :
  use_streaming (Examples.client false) = false
  /\ (1 <= 3)%Z
  /\ (forall kw, Examples.contentless 0 kw
                 = Returned [None; Some Examples.answer])
  /\ chat_completion Examples.contentless Examples.failing_stream
       (Examples.client false) [] tt None 3
     = (Returned None,
        [Completion 0%Z (built_kwargs (Examples.client false) [] tt None)]).
Proof.
  split; [reflexivity|]. split; [lia|]. split; [intros kw; reflexivity|].
  apply (@chat_completion_absent_content unit unit Examples.contentless
           Examples.failing_stream (Examples.client false) [] tt None 3%Z
           [Some Examples.answer]).
  - reflexivity.
  - lia.
  - intros kw. reflexivity.
Defined.

Lemma chat_completion_no_choices_witness :
  use_streaming (Examples.client false) = false
  /\ (1 <= 3)%Z
  /\ (forall a kw, Examples.choiceless a kw = Returned [])
  /\ (let run :=
        chat_completion Examples.choiceless Examples.failing_stream
          (Examples.client false) [] tt None 3 in
      fst run = Raised (IndexError (py "list index out of range"))
      /\ attempts_made (snd run) = range 3
      /\ waits (snd run) = map Spec.backoff (range (3 - 1))).
Proof.
  split; [reflexivity|]. split; [lia|]. split; [intros a kw; reflexivity|].
  apply (@chat_completion_no_choices unit unit Examples.choiceless
           Examples.failing_stream (Examples.client false) [] tt None 3%Z).
  - reflexivity.
  - lia.
  - intros a kw. reflexivity.
Defined.

Lemma extract_json_suffix_parses_witness :
  forallb isspace Examples.suffix_text = false
  /\ In "["%char start_chars
  /\ find ["["%char] 0 (normalized Examples.suffix_text) = Some 4
  /\ Examples.loads_limited
       (_clean_json_string (slice_from (normalized Examples.suffix_text) 4))
     = Parsed (Json.JArr [Json.JInt 1; Json.JInt 2])
  /\ result (extract_json_raising Examples.loads_limited Json.is_null
               Examples.suffix_text)
     = Gives (Json.JArr [Json.JInt 1; Json.JInt 2])
  /\ (let run :=
        extract_json_raising Examples.loads_limited Json.is_null
          Examples.suffix_text in
      (forall e, result run <> Fails e)
      /\ ((exists v', result run = Gives v')
          \/ (exists e before site s,
                result run = Escapes e
                /\ calls run = before ++ [Loads site s]
                /\ Examples.loads_limited s = OtherError e))
      /\ ((forall site s, In (Loads site s) (calls run) ->
                          forall e, Examples.loads_limited s <> OtherError e) ->
          exists v', result run = Gives v'))
  /\ forallb isspace Examples.fenced_long_integer = false
  /\ find ["["%char] 0 (normalized Examples.fenced_long_integer) = Some 4310
  /\ Examples.loads_limited
       (_clean_json_string
          (slice_from (normalized Examples.fenced_long_integer) 4310))
     = Parsed (Json.JArr [Json.JInt 1])
  /\ result (extract_json_raising Examples.loads_limited Json.is_null
               Examples.fenced_long_integer)
     = Escapes Examples.digits_exceeded
  /\ (let run :=
        extract_json_raising Examples.loads_limited Json.is_null
          Examples.fenced_long_integer in
      (forall e, result run <> Fails e)
      /\ ((exists v', result run = Gives v')
          \/ (exists e before site s,
                result run = Escapes e
                /\ calls run = before ++ [Loads site s]
                /\ Examples.loads_limited s = OtherError e))
      /\ ((forall site s, In (Loads site s) (calls run) ->
                          forall e, Examples.loads_limited s <> OtherError e) ->
          exists v', result run = Gives v')).
Proof.
  split; [reflexivity|]. split; [right; left; reflexivity|].
  split; [reflexivity|]. split; [vm_compute; reflexivity|].
  split; [vm_compute; reflexivity|]. split.
  - apply (@extract_json_suffix_parses Json.value exn Examples.loads_limited
             Json.is_null Examples.suffix_text "["%char 4
             (Json.JArr [Json.JInt 1; Json.JInt 2])).
    + reflexivity.
    + right; left; reflexivity.
    + reflexivity.
    + vm_compute; reflexivity.
  - split; [vm_compute; reflexivity|]. split; [vm_compute; reflexivity|].
    split; [vm_compute; reflexivity|]. split; [vm_compute; reflexivity|].
    apply (@extract_json_suffix_parses Json.value exn Examples.loads_limited
             Json.is_null Examples.fenced_long_integer "["%char 4310
             (Json.JArr [Json.JInt 1])).
    + vm_compute; reflexivity.
    + right; left; reflexivity.
    + vm_compute; reflexivity.
    + vm_compute; reflexivity.
Defined.

Lemma extract_json_labeled_block_witness :
  normalized Examples.labeled_block_text
  = py "Sure! " ++ fence ++ py "JSON" ++ Examples.labeled_block_body
    ++ fence ++ py " bye"
  /\ lower (py "JSON") = py "json"
  /\ lacks backtick (py "Sure! ") = true
  /\ lacks backtick Examples.labeled_block_body = true
  /\ Json.loads (normalized Examples.labeled_block_text) = None
  /\ parses_to Json.loads (strip Examples.labeled_block_body)
       (Json.JObj [(py "a", Json.JInt 1)])
  /\ (result (extract_json Json.loads Json.is_null Examples.labeled_block_text)
      = Returned (Json.JObj [(py "a", Json.JInt 1)])
      /\ produced_by
           (extract_json Json.loads Json.is_null Examples.labeled_block_text)
         = Some LabeledFence
      /\ find (py "```json") 0 (lower (normalized Examples.labeled_block_text))
         = Some (List.length (py "Sure! "))
      /\ List.length (lower (normalized Examples.labeled_block_text))
         = List.length (normalized Examples.labeled_block_text)).
Proof.
  assert (Hparse : parses_to Json.loads (strip Examples.labeled_block_body)
                     (Json.JObj [(py "a", Json.JInt 1)]))
    by (right; split; reflexivity).
  split; [reflexivity|]. split; [reflexivity|]. split; [reflexivity|].
  split; [reflexivity|]. split; [reflexivity|]. split; [exact Hparse|].
  apply (@extract_json_labeled_block Json.value Json.loads Json.is_null
           Examples.labeled_block_text (py "Sure! ") (py "JSON")
           Examples.labeled_block_body (py " bye")
           (Json.JObj [(py "a", Json.JInt 1)]));
    try reflexivity; exact Hparse.
Defined.

Lemma extract_json_generic_block_witness :
  normalized Examples.generic_block_text
  = py "see " ++ fence ++ py "python" ++ newline :: Examples.generic_block_body
    ++ fence ++ []
  /\ lacks backtick (py "see ") = true
  /\ lacks backtick (py "python") = true
  /\ lacks newline (py "python") = true
  /\ lacks backtick Examples.generic_block_body = true
  /\ contains (py "```json") (lower (normalized Examples.generic_block_text))
     = false
  /\ Json.loads (normalized Examples.generic_block_text) = None
  /\ parses_to Json.loads
       (strip (generic_interior (py "python") Examples.generic_block_body))
       (Json.JArr [Json.JBool true])
  /\ (result (extract_json Json.loads Json.is_null Examples.generic_block_text)
      = Returned (Json.JArr [Json.JBool true])
      /\ produced_by
           (extract_json Json.loads Json.is_null Examples.generic_block_text)
         = Some GenericFence).
Proof.
  assert (Hparse : parses_to Json.loads
                     (strip (generic_interior (py "python")
                               Examples.generic_block_body))
                     (Json.JArr [Json.JBool true]))
    by (left; reflexivity).
  do 7 (split; [reflexivity|]). split; [exact Hparse|].
  apply (@extract_json_generic_block Json.value Json.loads Json.is_null
           Examples.generic_block_text (py "see ") (py "python")
           Examples.generic_block_body []
           (Json.JArr [Json.JBool true]));
    try reflexivity; exact Hparse.
Defined.

Lemma extract_balanced_local_witness :
  In ("{"%char, "}"%char) ScanSpec.brackets
  /\ calls (_extract_balanced_json Json.loads Examples.escaped_quote_text "{")
     = [Loads BalancedScan Examples.escaped_quote_region]
  /\ ((forall junk,
         _extract_balanced_json Json.loads
           (Examples.escaped_quote_region ++ junk) "{"
         = _extract_balanced_json Json.loads Examples.escaped_quote_text "{")
      /\ _extract_balanced_json Json.loads Examples.escaped_quote_region "{"
         = _extract_balanced_json Json.loads Examples.escaped_quote_text "{"
      /\ (exists body,
            Examples.escaped_quote_region = "{"%char :: body ++ ["}"%char])).
Proof.
  split; [left; reflexivity|]. split; [reflexivity|].
  apply (@extract_balanced_local Json.value Json.loads
           Examples.escaped_quote_text "{"%char "}"%char BalancedScan
           Examples.escaped_quote_region []).
  - left; reflexivity.
  - reflexivity.
Defined.

Lemma clean_drops_trailing_comma_witness :
  comma_hanging (pyq "{'a': [1, 2") = false
  /\ forallb isspace (py " ") = true
  /\ Re.is_closer "]" = true
  /\ _clean_json_string (pyq "{'a': [1, 2" ++ ","%char :: py " " ++ "]"%char :: py "}")
     = _clean_json_string (pyq "{'a': [1, 2" ++ py " " ++ "]"%char :: py "}").
Proof.
  split; [reflexivity|]. split; [reflexivity|]. split; [reflexivity|].
  apply (@clean_drops_trailing_comma (pyq "{'a': [1, 2") (py " ") "]"%char
           (py "}")); reflexivity.
Defined.

Lemma clean_cuts_at_double_slash_witness :
  has_slash Examples.url_head = false
  /\ lacks newline Examples.url_tail = true
  /\ _clean_json_string (Examples.url_head ++ py "//" ++ Examples.url_tail)
     = _clean_json_string Examples.url_head.
Proof.
  split; [reflexivity|]. split; [reflexivity|].
  apply (@clean_cuts_at_double_slash Examples.url_head Examples.url_tail);
    reflexivity.
Defined.

Lemma encode_documents_sorted_witness :
  Examples.reversing (Embed.model_name Examples.embedder)
    (py "a" :: [py "b"; py "c"]) (Embed.api_key Examples.embedder)
  = Returned Examples.reversed_items
  /\ exists sorted,
       Embed.encode_documents Examples.reversing Examples.embedder
         (py "a" :: [py "b"; py "c"])
       = (Returned (map (@Embed.embedding Z) sorted),
          [py "a" :: [py "b"; py "c"]])
       /\ Permutation sorted Examples.reversed_items
       /\ StronglySorted
            (fun a b : Embed.Item Z => (Embed.index a <= Embed.index b)%Z)
            sorted
       /\ (forall k,
             filter (fun y : Embed.Item Z => (Embed.index y =? k)%Z) sorted
             = filter (fun y : Embed.Item Z => (Embed.index y =? k)%Z)
                 Examples.reversed_items)
       /\ List.length (map (@Embed.embedding Z) sorted)
          = List.length Examples.reversed_items.
Proof.
  split; [reflexivity|].
  apply (@encode_documents_sorted Z Examples.reversing Examples.embedder
           (py "a") [py "b"; py "c"] Examples.reversed_items).
  reflexivity.
Defined.

Lemma encode_documents_restores_order_witness :
  Examples.reversing (Embed.model_name Examples.embedder)
    (py "a" :: [py "b"; py "c"]) (Embed.api_key Examples.embedder)
  = Returned Examples.reversed_items
  /\ Permutation (map (@Embed.index Z) Examples.reversed_items)
       (range (Z.of_nat (List.length (py "a" :: [py "b"; py "c"]))))
  /\ exists vectors,
       fst (Embed.encode_documents Examples.reversing Examples.embedder
              (py "a" :: [py "b"; py "c"]))
       = Returned vectors
       /\ List.length vectors = List.length (py "a" :: [py "b"; py "c"])
       /\ forall it, In it Examples.reversed_items ->
            nth_error vectors (Z.to_nat (Embed.index it))
            = Some (Embed.embedding it).
Proof.
  assert (Hperm : Permutation (map (@Embed.index Z) Examples.reversed_items)
                    (range (Z.of_nat (List.length (py "a" :: [py "b"; py "c"]))))).
  { change (Permutation (rev [0%Z; 1%Z; 2%Z]) [0%Z; 1%Z; 2%Z]).
    apply Permutation_sym, Permutation_rev. }
  split; [reflexivity|]. split; [exact Hperm|].
  apply (@encode_documents_restores_order Z Examples.reversing
           Examples.embedder (py "a") [py "b"; py "c"]
           Examples.reversed_items); [reflexivity | exact Hperm].
Defined.

Lemma encode_single_least_index_witness :
  Examples.swapping (Embed.model_name Examples.embedder) [py "a"]
    (Embed.api_key Examples.embedder)
  = Returned Examples.swapped_items
  /\ fst (Embed.encode_single Examples.swapping Examples.embedder (py "a"))
     = Returned [0%Z; 10%Z]
  /\ (snd (Embed.encode_single Examples.swapping Examples.embedder (py "a"))
      = [[py "a"]]
      /\ match Examples.swapped_items with
         | [] =>
             fst (Embed.encode_single Examples.swapping Examples.embedder
                    (py "a"))
             = Raised (ValueError (py "Failed to generate embedding"))
         | _ :: _ =>
             exists it,
               In it Examples.swapped_items
               /\ fst (Embed.encode_single Examples.swapping Examples.embedder
                         (py "a"))
                  = Returned (Embed.embedding it)
               /\ forall other, In other Examples.swapped_items ->
                                (Embed.index it <= Embed.index other)%Z
         end)
  /\ Examples.silent (Embed.model_name Examples.embedder) [py "a"]
       (Embed.api_key Examples.embedder)
     = Returned []
  /\ (snd (Embed.encode_single Examples.silent Examples.embedder (py "a"))
      = [[py "a"]]
      /\ fst (Embed.encode_single Examples.silent Examples.embedder (py "a"))
         = Raised (ValueError (py "Failed to generate embedding"))).
Proof.
  split; [reflexivity|]. split; [reflexivity|]. split.
  - apply (@encode_single_least_index Z Examples.swapping Examples.embedder
             (py "a") Examples.swapped_items).
    reflexivity.
  - split; [reflexivity|].
    apply (@encode_single_least_index Z Examples.silent Examples.embedder
             (py "a") []).
    reflexivity.
Defined.
